(** * Document segmentation and metadata extraction
    (scripts/preprocessing/preprocess_local.py)

    A shallow embedding of [MetadataExtractor] and [DocumentChunker] and
    the properties of their chunk stream.

    Conventions of the embedding.
    - A Python [str] is a list of characters; a character is a Latin-1
      code point (an [ascii]), which covers the section sign used by the
      Finnish patterns.  [len], slicing and concatenation are those of
      lists.
    - A Python [int] is a [Z].
    - The comparisons against [n * 1.2], [n * 1.5] and [n * 0.8] are taken
      over the rationals: [x <= n * 1.2] is [5 * x <= 6 * n], and so on.
    - The standard [re] module is embedded as a backtracking matcher over
      a syntax tree of the pattern (greedy and lazy repetition, capturing
      groups, anchors, word boundaries, look-around).
    - The sub-word tokenizer is the library's: it is a parameter
      [encode], which either returns the tokens or raises. *)

From Stdlib Require Import ZArith Ascii String.
From stdpp Require Import base tactics option list numbers sorting gmap strings.

Local Open Scope Z_scope.

(** ** Strings *)

Definition str := list ascii.

Definition lit (s : string) : str := list_ascii_of_string s.

Arguments lit : simpl never.

Definition code (c : ascii) : nat := nat_of_ascii c.

Definition between (lo hi : nat) (c : ascii) : bool :=
  (Nat.leb lo (code c)) && (Nat.leb (code c) hi).

Definition char_eqb (a b : ascii) : bool := Ascii.eqb a b.

(** [ch.isspace()], also the class [\s] of a [str] pattern. *)
Definition is_space (c : ascii) : bool :=
  between 9 13 c || between 28 32 c || Nat.eqb (code c) 133 || Nat.eqb (code c) 160.

(** The class [\d]: the decimal digits below 256 are the ASCII ones. *)
Definition is_digit (c : ascii) : bool := between 48 57 c.

Definition is_upper_ascii (c : ascii) : bool := between 65 90 c.
Definition is_lower_ascii (c : ascii) : bool := between 97 122 c.

(** [ch.isalnum()] below 256. *)
Definition is_alnum (c : ascii) : bool :=
  is_digit c || is_upper_ascii c || is_lower_ascii c
  || Nat.eqb (code c) 170 || Nat.eqb (code c) 178 || Nat.eqb (code c) 179
  || Nat.eqb (code c) 181 || Nat.eqb (code c) 185 || Nat.eqb (code c) 186
  || between 188 190 c || between 192 214 c || between 216 246 c
  || between 248 255 c.

(** The class [\w]. *)
Definition is_word (c : ascii) : bool := is_alnum c || Nat.eqb (code c) 95.

(** [ch.isdigit()] below 256: the ASCII digits and the superscripts. *)
Definition is_digit_char (c : ascii) : bool :=
  is_digit c || Nat.eqb (code c) 178 || Nat.eqb (code c) 179 || Nat.eqb (code c) 185.

Definition lower_char (c : ascii) : ascii :=
  if is_upper_ascii c || (between 192 222 c && negb (Nat.eqb (code c) 215))
  then ascii_of_nat (code c + 32) else c.

(** The upper-case partner of a character when it lies below 256. *)
Definition upper_char (c : ascii) : ascii :=
  if is_lower_ascii c || (between 224 254 c && negb (Nat.eqb (code c) 247))
  then ascii_of_nat (code c - 32) else c.

Definition lower (s : str) : str := map lower_char s.

Definition len (s : str) : Z := Z.of_nat (length s).

(** [s[a:b]] for indices that are not negative. *)
Definition slice (s : str) (a b : Z) : str :=
  drop (Z.to_nat a) (take (Z.to_nat b) s).

Fixpoint lstrip (s : str) : str :=
  match s with
  | c :: s' => if is_space c then lstrip s' else s
  | [] => []
  end.

Definition rstrip (s : str) : str := reverse (lstrip (reverse s)).

(** [s.strip()] *)
Definition strip (s : str) : str := rstrip (lstrip s).

Fixpoint startswith (p s : str) : bool :=
  match p, s with
  | [], _ => true
  | a :: p', b :: s' => char_eqb a b && startswith p' s'
  | _ :: _, [] => false
  end.

(** [p in s] *)
Fixpoint contains (p s : str) : bool :=
  startswith p s ||
  match s with
  | [] => false
  | _ :: s' => contains p s'
  end.

(** [s.count(c)] for a one-character argument. *)
Definition count_char (c : ascii) (s : str) : nat :=
  length (filter (λ x, x = c) s).

(** [s.split(sep)] for a one-character separator. *)
Fixpoint split_on (sep : ascii) (s : str) : list str :=
  match s with
  | [] => [[]]
  | c :: s' =>
      if char_eqb c sep then [] :: split_on sep s'
      else match split_on sep s' with
           | w :: ws => (c :: w) :: ws
           | [] => [[c]]
           end
  end.

(** [sep.join(ps)] *)
Fixpoint join (sep : str) (ps : list str) : str :=
  match ps with
  | [] => []
  | [p] => p
  | p :: ps' => p ++ sep ++ join sep ps'
  end.

Definition newline : ascii := "010".

Definition nl : str := [newline].

(** [s.isdigit()] *)
Definition isdigit (s : str) : bool :=
  match s with [] => false | _ => forallb is_digit_char s end.

(** [int(s)] on a string of ASCII digits. *)
Definition int_of_digits (s : str) : Z :=
  fold_left (λ acc c, 10 * acc + Z.of_nat (code c - 48)) s 0.

Fixpoint digits_of_nat (fuel n : nat) (acc : str) : str :=
  match fuel with
  | O => acc
  | S fuel' =>
      let acc' := ascii_of_nat (48 + n mod 10) :: acc in
      if Nat.ltb n 10 then acc' else digits_of_nat fuel' (n / 10) acc'
  end.

(** [str(n)] for an [int] that is not negative. *)
Definition str_of_int (n : Z) : str :=
  digits_of_nat (S (Z.to_nat n)) (Z.to_nat n) [].

(** [s.replace(old, new)] for a non-empty [old]. *)
Fixpoint replace_fuel (fuel : nat) (old new s : str) : str :=
  match fuel with
  | O => s
  | S fuel' =>
      match s with
      | [] => []
      | c :: s' =>
          if startswith old s
          then new ++ replace_fuel fuel' old new (drop (length old) s)
          else c :: replace_fuel fuel' old new s'
      end
  end.

Definition replace (old new s : str) : str :=
  replace_fuel (S (length s)) old new s.

(** Lexicographic order of code points, the order of [sorted] on [str]. *)
Fixpoint str_leb (a b : str) : bool :=
  match a, b with
  | [], _ => true
  | _ :: _, [] => false
  | x :: a', y :: b' =>
      if Nat.ltb (code x) (code y) then true
      else if Nat.ltb (code y) (code x) then false
      else str_leb a' b'
  end.

Definition str_le (a b : str) : Prop := str_leb a b = true.

#[global] Instance str_le_dec : RelDecision str_le.
Proof. intros a b. unfold str_le. apply _. Defined.

(** ** Regular expressions

    The syntax tree of a pattern and the backtracking matcher of [re]:
    alternatives are tried left to right, greedy repetition takes the
    longest run first, lazy repetition the shortest, and the first way
    through the whole pattern is the match. *)

(** An item of a bracketed set, or a class escape. *)
Inductive citem :=
| CChar (a : ascii)
| CRange (lo hi : ascii)
| CDigit
| CSpace
| CWord.

(** A pattern element that matches one character. *)
Inductive atom :=
| AChar (a : ascii)                       (* a literal character *)
| ASet (negated : bool) (items : list citem)  (* [...] and [^...] *)
| ADot.                                   (* . without DOTALL *)

Inductive regex :=
| Eps
| One (a : atom)
| Rep (greedy : bool) (lo : nat) (hi : option nat) (a : atom)
| Seq (r1 r2 : regex)
| Alt (r1 r2 : regex)
| Opt (r : regex)                         (* (?:r)? *)
| Grp (n : nat) (r : regex)               (* the n-th capturing group *)
| Bol                                     (* ^ without MULTILINE *)
| Eol                                     (* $ without MULTILINE *)
| Wordb                                   (* \b *)
| Behind (l : list atom)                  (* (?<=...) of fixed width *)
| Ahead (a : atom).                       (* (?=x) *)

Definition Star (a : atom) : regex := Rep true 0 None a.
Definition Plus (a : atom) : regex := Rep true 1 None a.
Definition PlusLazy (a : atom) : regex := Rep false 1 None a.
Definition Maybe (a : atom) : regex := Rep true 0 (Some 1%nat) a.
Definition Times (n : nat) (a : atom) : regex := Rep true n (Some n) a.

Definition Digit : atom := ASet false [CDigit].
Definition Space : atom := ASet false [CSpace].

Fixpoint Seqs (rs : list regex) : regex :=
  match rs with
  | [] => Eps
  | [r] => r
  | r :: rs' => Seq r (Seqs rs')
  end.

Fixpoint Alts (rs : list regex) : regex :=
  match rs with
  | [] => Eps
  | [r] => r
  | r :: rs' => Alt r (Alts rs')
  end.

(** A literal run of characters. *)
Definition Str (s : string) : regex := Seqs (map (λ c, One (AChar c)) (lit s)).

Definition in_range (lo hi c : ascii) : bool := between (code lo) (code hi) c.

Definition citem_match (ic : bool) (i : citem) (c : ascii) : bool :=
  match i with
  | CChar a =>
      if ic then char_eqb (lower_char a) (lower_char c) else char_eqb a c
  | CRange lo hi =>
      if ic
      then in_range lo hi c || in_range lo hi (lower_char c)
           || in_range lo hi (upper_char c)
      else in_range lo hi c
  | CDigit => is_digit c
  | CSpace => is_space c
  | CWord => is_word c
  end.

(** [ic] is the IGNORECASE flag. *)
Definition atom_match (ic : bool) (a : atom) (c : ascii) : bool :=
  match a with
  | AChar x =>
      if ic then char_eqb (lower_char x) (lower_char c) else char_eqb x c
  | ASet neg items => xorb neg (existsb (λ i, citem_match ic i c) items)
  | ADot => negb (char_eqb c newline)
  end.

(** Captured groups: group number to (start, end). *)
Definition captures := list (nat * (nat * nat)).

Definition hi_pred (hi : option nat) : option nat :=
  match hi with Some n => Some (Nat.pred n) | None => None end.

Definition hi_open (hi : option nat) : bool :=
  match hi with Some O => false | _ => true end.

Section matcher.
Context {R : Type} (ic : bool).

(** Repetition of a one-character element; [bef] is the text before
    the position, reversed, and [aft] the text from the position on. *)
Fixpoint rep (greedy : bool) (a : atom) (lo : nat) (hi : option nat)
    (bef aft : str) (k : str → str → option R) : option R :=
  let stop := if Nat.eqb lo 0 then k bef aft else None in
  match aft with
  | c :: aft' =>
      if atom_match ic a c && hi_open hi then
        if greedy then
          match rep greedy a (Nat.pred lo) (hi_pred hi) (c :: bef) aft' k with
          | Some r => Some r
          | None => stop
          end
        else
          match stop with
          | Some r => Some r
          | None => rep greedy a (Nat.pred lo) (hi_pred hi) (c :: bef) aft' k
          end
      else stop
  | [] => stop
  end.

Fixpoint behind (l : list atom) (bef : str) : bool :=
  match l, bef with
  | [], _ => true
  | a :: l', c :: bef' => atom_match ic a c && behind l' bef'
  | _ :: _, [] => false
  end.

Definition at_word_boundary (bef aft : str) : bool :=
  xorb (from_option is_word false (head bef))
       (from_option is_word false (head aft)).

Fixpoint rmatch (r : regex) (bef aft : str) (cs : captures)
    (k : str → str → captures → option R) : option R :=
  match r with
  | Eps => k bef aft cs
  | One a =>
      match aft with
      | c :: aft' => if atom_match ic a c then k (c :: bef) aft' cs else None
      | [] => None
      end
  | Rep g lo hi a => rep g a lo hi bef aft (λ b a', k b a' cs)
  | Seq r1 r2 => rmatch r1 bef aft cs (λ b a c, rmatch r2 b a c k)
  | Alt r1 r2 =>
      match rmatch r1 bef aft cs k with
      | Some x => Some x
      | None => rmatch r2 bef aft cs k
      end
  | Opt r1 =>
      match rmatch r1 bef aft cs k with
      | Some x => Some x
      | None => k bef aft cs
      end
  | Grp n r1 =>
      rmatch r1 bef aft cs
        (λ b a c, k b a ((n, (length bef, length b)) :: c))
  | Bol => match bef with [] => k bef aft cs | _ => None end
  | Eol =>
      match aft with
      | [] => k bef aft cs
      | [c] => if char_eqb c newline then k bef aft cs else None
      | _ => None
      end
  | Wordb => if at_word_boundary bef aft then k bef aft cs else None
  | Behind l => if behind (reverse l) bef then k bef aft cs else None
  | Ahead a =>
      match aft with
      | c :: _ => if atom_match ic a c then k bef aft cs else None
      | [] => None
      end
  end.
End matcher.

(** A match object: the span of the whole match and of its groups. *)
Record re_match := ReMatch {
  m_start : nat;
  m_end : nat;
  m_caps : captures
}.

(** The match that starts exactly at the position between [bef] and [aft]. *)
Definition match_here (ic : bool) (r : regex) (bef aft : str) : option re_match :=
  rmatch ic r bef aft []
    (λ b _ c, Some (ReMatch (length bef) (length b) c)).

(** [pattern.match(s)] *)
Definition re_match_start (ic : bool) (r : regex) (s : str) : option re_match :=
  match_here ic r [] s.

(** The leftmost match from the position between [bef] and [aft] on. *)
Fixpoint search_from (ic : bool) (r : regex) (bef aft : str) : option re_match :=
  match match_here ic r bef aft with
  | Some m => Some m
  | None =>
      match aft with
      | c :: aft' => search_from ic r (c :: bef) aft'
      | [] => None
      end
  end.

(** [pattern.search(s)] *)
Definition re_search (ic : bool) (r : regex) (s : str) : option re_match :=
  search_from ic r [] s.

Definition span (s : str) (i j : nat) : str := drop i (take j s).

(** [m.group(0)] *)
Definition group0 (s : str) (m : re_match) : str := span s (m_start m) (m_end m).

Fixpoint cap_lookup (n : nat) (cs : captures) : option (nat * nat) :=
  match cs with
  | [] => None
  | (k, v) :: cs' => if Nat.eqb k n then Some v else cap_lookup n cs'
  end.

(** [m.group(n)]: [None] when the group took no part in the match. *)
Definition group (s : str) (m : re_match) (n : nat) : option str :=
  match cap_lookup n (m_caps m) with
  | Some (i, j) => Some (span s i j)
  | None => None
  end.

(** All non-overlapping matches, left to right; after an empty match the
    scan moves one character on. *)
Fixpoint matches_from (fuel : nat) (ic : bool) (r : regex) (s : str) (pos : nat)
    : list re_match :=
  match fuel with
  | O => []
  | S fuel' =>
      if Nat.ltb (length s) pos then [] else
      match search_from ic r (reverse (take pos s)) (drop pos s) with
      | None => []
      | Some m =>
          let next := if Nat.ltb (m_start m) (m_end m) then m_end m else S (m_end m) in
          m :: matches_from fuel' ic r s next
      end
  end.

Definition all_matches (ic : bool) (r : regex) (s : str) : list re_match :=
  matches_from (S (length s)) ic r s 0.

(** [pattern.split(s)] for a pattern without capturing groups. *)
Fixpoint split_by (s : str) (pos : nat) (ms : list re_match) : list str :=
  match ms with
  | [] => [drop pos s]
  | m :: ms' => span s pos (m_start m) :: split_by s (m_end m) ms'
  end.

Definition re_split (ic : bool) (r : regex) (s : str) : list str :=
  split_by s 0 (all_matches ic r s).

(** [pattern.findall(s)] for a pattern with one group: the group's text,
    empty when the group took no part. *)
Definition findall1 (ic : bool) (r : regex) (s : str) : list str :=
  map (λ m, default [] (group s m 1)) (all_matches ic r s).

(** [pattern.findall(s)] for a pattern with two groups. *)
Definition findall2 (ic : bool) (r : regex) (s : str) : list (str * str) :=
  map (λ m, (default [] (group s m 1), default [] (group s m 2)))
      (all_matches ic r s).

(** ** Data model *)

Record DocumentInfo := {
  document_id : str;
  filename : str;
  file_path : str;
  paragraphs : list str;
  full_text : str;
  source_type : str;
  language : str
}.

(** ** MetadataExtractor *)

Module MetadataExtractor.

Definition REGULATION_PATTERN : regex :=
  Seqs [ Grp 1 (Alts [Str "Commission"; Str "Council"; Str "European Parliament";
                      Str "Directive"; Str "Regulation"; Str "Decision";
                      Str "Corrigendum to"]);
         Plus Space;
         Opt (Alts [Str "Implementing"; Str "Delegated"; Str "Amending"]);
         Star Space;
         Grp 2 (Alts [Str "Regulation"; Str "Directive"; Str "Decision"]);
         Plus Space;
         Str "("; Grp 3 (Alts [Str "EU"; Str "EC"; Str "EEC"]); Str ")";
         Plus Space;
         Opt (Seq (Str "No") (Plus Space));
         Grp 4 (Alt (Seqs [Times 4 Digit; Str "/"; Plus Digit])
                    (Seqs [Plus Digit; Str "/"; Times 4 Digit])) ].

Definition FINNISH_ACT_PATTERN : regex :=
  Seqs [ Grp 1 (Alts [Str "Laki"; Str "Act"; Str "laki"]);
         Plus Space;
         Opt (Seq (Str "on") (Plus Space));
         Grp 2 (PlusLazy (ASet true [CChar "("; CChar newline]));
         Star Space;
         Str "(";
         Grp 3 (Seqs [Rep true 1 (Some 4%nat) Digit; Str "/"; Times 4 Digit]) ].

Definition STANDARD_PATTERN : regex :=
  Seqs [ Grp 1 (Alts [Str "Basel"; Str "IFRS"; Str "MiFID"; Str "MiFIR"; Str "CRD";
                      Str "CRR"; Str "BRRD"; Str "EBA"; Str "SFDR"]);
         Star Space;
         Opt (Grp 2 (Alts [Str "Framework"; Str "Standard"; Str "Directive";
                           Str "Regulation"]));
         Star Space;
         Opt (Grp 3 (Plus (ASet false [CChar "I"; CChar "V"; CChar "X"]))) ].

Definition CELEX_PATTERN : regex :=
  Seqs [ Str "CELEX";
         Maybe (ASet false [CChar "_"; CChar ":"]);
         Grp 1 (Seqs [Times 5 Digit; One (ASet false [CRange "A" "Z"]);
                      Times 4 Digit]) ].

Definition YEAR_PATTERN : regex :=
  Seqs [ Wordb;
         Grp 1 (Alt (Seq (Str "19") (Times 2 Digit))
                    (Seq (Str "20") (Times 2 Digit)));
         Wordb ].

Definition DOC_TYPE_PATTERN : regex :=
  Seqs [ Bol;
         Opt (Seq (Grp 1 (Alts [Str "Commission"; Str "Council";
                                Str "European Parliament"; Str "Ministry"]))
                  (Plus Space));
         Opt (Seq (Grp 2 (Alts [Str "Implementing"; Str "Delegated"; Str "Amending"]))
                  (Plus Space));
         Grp 3 (Alts [Str "Regulation"; Str "Directive"; Str "Decision";
                      Str "Corrigendum"; Str "Act"; Str "Laki"; Str "Framework";
                      Str "Standard"]) ].

Definition REF_PATTERN : regex :=
  Seqs [ Str "("; Grp 1 (Alts [Str "EU"; Str "EC"; Str "EEC"]); Str ")";
         Plus Space;
         Opt (Seq (Str "No") (Plus Space));
         Grp 2 (Alt (Seqs [Times 4 Digit; Str "/"; Plus Digit])
                    (Seqs [Plus Digit; Str "/"; Times 4 Digit])) ].

(** [^(.+?\)\s*(?:\(.+?\))?)], the clean-up of a national-law title. *)
Definition TITLE_PATTERN : regex :=
  Seqs [ Bol;
         Grp 1 (Seqs [PlusLazy ADot; Str ")"; Star Space;
                      Opt (Seqs [Str "("; PlusLazy ADot; Str ")"])]) ].

(** [\b(19|20)\d{2}\b], the pattern applied to the file name. *)
Definition FILENAME_YEAR_PATTERN : regex :=
  Seqs [ Wordb; Grp 1 (Alt (Str "19") (Str "20")); Times 2 Digit; Wordb ].

(** The scan of the leading lines of a national law. *)
Fixpoint scan_title_lines (lines : list str) : option str :=
  match lines with
  | [] => None
  | line0 :: rest =>
      let line := strip line0 in
      if bool_decide (len line < 10) && contains (lit "(") line
         && from_option is_digit_char false (head line)
      then scan_title_lines rest
      else if contains (lit "translation from") (lower line)
              || contains (lit "legally binding") (lower line)
      then scan_title_lines rest
      else if contains (lit "ministry of") (lower line)
      then scan_title_lines rest
      else if (contains (lit "Act on") line || contains (lit "Laki") line)
              && bool_decide (20 < len line)
      then
        if contains (lit "(") line && Nat.ltb 1 (count_char "(" line)
        then match re_search false TITLE_PATTERN line with
             | Some m => Some (strip (default [] (group line m 1)))
             | None => Some line
             end
        else Some line
      else scan_title_lines rest
  end.

(** The fall-back: the first substantial one of the first five lines. *)
Fixpoint first_substantial (lines : list str) : option str :=
  match lines with
  | [] => None
  | line :: rest =>
      let cleaned := strip line in
      if bool_decide (20 < len cleaned) && negb (isdigit cleaned)
      then Some (take 150 cleaned)
      else first_substantial rest
  end.

Definition pattern_name (search_text : str) : option str :=
  match re_search true REGULATION_PATTERN search_text with
  | Some m => Some (group0 search_text m)
  | None =>
  match re_search true FINNISH_ACT_PATTERN search_text with
  | Some m => Some (group0 search_text m)
  | None =>
  match re_search true STANDARD_PATTERN search_text with
  | Some m => Some (group0 search_text m)
  | None =>
  match re_search true CELEX_PATTERN search_text with
  | Some m => Some (lit "CELEX " ++ default [] (group search_text m 1))
  | None => None
  end end end end.

(** No operation in the guarded block raises here, so the handler of
    the source is never entered. *)
Definition extract_regulation_name (first_paragraph source_type : str) : str :=
  let search_text := take 800 first_paragraph in
  let lines := split_on newline search_text in
  let national :=
    if bool_decide (source_type = lit "national_law")
    then scan_title_lines (take 15 lines) else None in
  match national with
  | Some name => name
  | None =>
      match pattern_name search_text with
      | Some name => name
      | None =>
          match first_substantial (take 5 (split_on newline first_paragraph)) with
          | Some name => name
          | None => strip (take 100 first_paragraph)
          end
      end
  end.

(** [max] of a list of years that is not empty. *)
Definition max_year (years : list Z) : option Z :=
  match years with
  | [] => None
  | y :: ys => Some (fold_left Z.max ys y)
  end.

Definition extract_year (text filename : str) : option Z :=
  let matches := findall1 false YEAR_PATTERN text in
  match matches with
  | _ :: _ => max_year (map int_of_digits matches)
  | [] =>
      match filename with
      | [] => None
      | _ :: _ =>
          let filename_matches := findall1 false FILENAME_YEAR_PATTERN filename in
          match last filename_matches with
          | Some y => Some (int_of_digits y)
          | None => None
          end
      end
  end.

Fixpoint first_keyword (keywords : list str) (text : str) : option str :=
  match keywords with
  | [] => None
  | k :: ks =>
      if contains (lower k) (lower (take 500 text)) then Some k
      else first_keyword ks text
  end.

Definition extract_doc_type (first_paragraph source_type : str) : str :=
  match re_search true DOC_TYPE_PATTERN first_paragraph with
  | Some m =>
      let parts :=
        omap (λ n, match group first_paragraph m n with
                   | Some [] => None
                   | g => g
                   end) [1; 2; 3]%nat in
      let doc_type := join (lit " ") parts in
      if contains (lit "Laki") doc_type && negb (contains (lit "Act") doc_type)
      then replace (lit "Laki") (lit "Act") doc_type
      else doc_type
  | None =>
      let standard :=
        if bool_decide (source_type = lit "international_standard")
        then first_keyword [lit "Framework"; lit "Standard"; lit "Guideline";
                            lit "Directive"; lit "Regulation"] first_paragraph
        else None in
      match standard with
      | Some k => k
      | None =>
          let search_lower := lower (take 500 first_paragraph) in
          if bool_decide (source_type = lit "national_law")
          then if contains (lit "laki") search_lower || contains (lit "act") search_lower
               then lit "Act"
               else if contains (lit "asetus") search_lower then lit "Decree"
               else lit "Unknown"
          else lit "Unknown"
      end
  end.

(** The set [refs] that the loop of [extract_regulation_refs] builds. *)
Definition ref_set (text : str) : gset str :=
  list_to_set (map (λ m, fst m ++ lit " No " ++ snd m)
                   (findall2 true REF_PATTERN text)).

(** [list(refs)]: the elements of the set in an order that the
    language leaves open. *)
Definition enumerates (refs : gset str) (l : list str) : Prop :=
  l ≡ₚ elements refs.

(** [sorted(l)] *)
Definition sorted (l : list str) : list str := merge_sort str_le l.

(** A run of [extract_regulation_refs] returns [out]. *)
Definition extract_regulation_refs_run (text : str) (out : list str) : Prop :=
  ∃ l, enumerates (ref_set text) l ∧ out = sorted l.

(** The value every run returns. *)
Definition extract_regulation_refs (text : str) : list str :=
  sorted (elements (ref_set text)).

End MetadataExtractor.

(** ** Exceptions

    A call either returns a value or raises; [try_except] is a [try]
    block with a handler for [Exception]. *)

Inductive outcome (A : Type) :=
| Returns (a : A)
| Raises.

Arguments Returns {A} a.
Arguments Raises {A}.

#[global] Instance outcome_bind : MBind outcome :=
  λ A B f x, match x with Returns a => f a | Raises => Raises end.

Definition try_except {A} (body handler : outcome A) : outcome A :=
  match body with
  | Returns a => Returns a
  | Raises => handler
  end.

(** A loop whose body may raise. *)
Fixpoint for_each {S A} (body : S → A → outcome S) (st : S) (l : list A) : outcome S :=
  match l with
  | [] => Returns st
  | x :: l' => st' ← body st x ; for_each body st' l'
  end.

(** ** ChunkMetadata

    [paragraph_numbers] holds a reference to a list object: the chunker
    hands its running list to the chunk and may go on extending that
    same list afterwards.  The store of these list objects is [heap]. *)

Definition loc := nat.
Definition heap := list (list str).

Module Chunk.
Record ChunkMetadata := {
  document_id : str;
  filename : str;
  regulation_name : str;
  year : option Z;
  doc_type : str;
  chunk_id : Z;
  chunk_type : str;
  article_number : option str;
  paragraph_numbers : loc;
  full_text : str;
  paragraph_indices : list (Z * Z);
  char_start : Z;
  char_end : Z;
  token_count : Z;
  regulation_refs : list str;
  language : str;
  source_type : str
}.
End Chunk.

Definition alloc (h : heap) : loc * heap := (length h, h ++ [[]]).

(** [h[l].extend(xs)] *)
Definition extend (l : loc) (xs : list str) (h : heap) : heap :=
  alter (λ old, old ++ xs) l h.

Definition deref (h : heap) (l : loc) : list str := default [] (h !! l).

(** The value of a chunk's [paragraph_numbers] in a store. *)
Definition paragraph_numbers_of (h : heap) (c : Chunk.ChunkMetadata) : list str :=
  deref h (Chunk.paragraph_numbers c).

(** ** Configuration

    The values that [Config.get] returns.  The three patterns are those
    of the configuration file, compiled without flags; an option with a
    default in the source is [None] when the file leaves it out. *)

Record Config := {
  article_pattern : regex;
  recital_pattern : regex;
  section_pattern : regex;
  chunk_target_tokens : Z;
  min_chunk_tokens : Z;
  max_chunk_tokens : Z;
  merge_orphans : bool;
  orphan_threshold : Z;
  enable_overlap : option bool;
  overlap_tokens : option Z;
  keep_related_articles : option bool;
  max_paragraph_tokens : option Z
}.

Definition section_sign : ascii := ascii_of_nat 167.

Definition UpperAZ : atom := ASet false [CRange "A" "Z"].
Definition EndPunct : atom := ASet false [CChar "."; CChar "!"; CChar "?"].

(** ** DocumentChunker *)

Section DocumentChunker.
(** [self.encoder.encode]: the tokens, or [None] when it raises. *)
Context (encode : str → option (list nat)) (cfg : Config).

Definition finnish_section_pattern : regex :=
  Seqs [ Bol;
         Grp 1 (Alt (Seqs [Str "Section"; Plus Space; Plus Digit])
                    (Seqs [Bol; Plus Digit; Star Space; One (AChar section_sign)])) ].

(** Compiled with IGNORECASE. *)
Definition finnish_chapter_pattern : regex :=
  Seqs [ Bol; Grp 1 (Alt (Str "Chapter") (Str "Luku")); Plus Space; Plus Digit ].

(** Compiled with IGNORECASE. *)
Definition framework_section_pattern : regex :=
  Seqs [ Bol;
         Grp 1 (Alts [Str "Part"; Str "Section"; Str "Chapter"; Str "Annex"]);
         Plus Space;
         Plus (ASet false [CChar "I"; CChar "V"; CChar "X"; CDigit]) ].

Definition count_tokens_run (text : str) : outcome Z :=
  try_except
    (if bool_decide (50000 < len text)
     then Returns (len text / 4)
     else match encode text with
          | Some tokens => Returns (Z.of_nat (length tokens))
          | None => Raises
          end)
    (Returns (len text / 4)).

(** The value [count_tokens] returns. *)
Definition count_tokens (text : str) : Z :=
  if bool_decide (50000 < len text)
  then len text / 4
  else match encode text with
       | Some tokens => Z.of_nat (length tokens)
       | None => len text / 4
       end.

Definition sentence_pattern : regex :=
  Alts [ Seqs [Behind [EndPunct]; Plus Space; Ahead UpperAZ];
         Seqs [Behind [EndPunct]; Plus (ASet false [CChar newline])];
         Seqs [Behind [Digit; AChar ")"]; Plus Space; Ahead UpperAZ];
         Seqs [Str ";"; Plus Space; Ahead UpperAZ] ].

Definition flush (chunks current : list str) : list str :=
  match current with
  | [] => chunks
  | _ => chunks ++ [join (lit " ") current]
  end.

(** The loop of [split_at_sentences] over [sentences]. *)
Fixpoint pack_sentences (max_tokens : Z) (sentences : list str)
    (chunks current : list str) (current_tokens : Z) : list str :=
  match sentences with
  | [] => flush chunks current
  | sentence0 :: rest =>
      let sentence := strip sentence0 in
      match sentence with
      | [] => pack_sentences max_tokens rest chunks current current_tokens
      | _ =>
          let sent_tokens := count_tokens sentence in
          if bool_decide (max_tokens < sent_tokens)
          then
            let '(chunks1, current1, tokens1) :=
              if bool_decide (current ≠ [])
              then (chunks ++ [join (lit " ") current], [], 0)
              else (chunks, current, current_tokens) in
            pack_sentences max_tokens rest (chunks1 ++ [sentence]) current1 tokens1
          else
            if bool_decide (current ≠ [])
               && bool_decide (max_tokens < current_tokens + sent_tokens)
            then pack_sentences max_tokens rest
                   (chunks ++ [join (lit " ") current]) [sentence] sent_tokens
            else pack_sentences max_tokens rest chunks (current ++ [sentence])
                   (current_tokens + sent_tokens)
      end
  end.

Definition split_at_sentences (text : str) (max_tokens : Z) : list str :=
  let sentences := re_split false sentence_pattern text in
  match sentences with
  | [] | [_] => [text]
  | _ => pack_sentences max_tokens sentences [] [] 0
  end.

(** [[\(\[]?[a-z0-9]+[\)\]]?\.?$], searched with IGNORECASE. *)
Definition list_item_end : regex :=
  Seqs [ Maybe (ASet false [CChar "("; CChar "["]);
         Plus (ASet false [CRange "a" "z"; CRange "0" "9"]);
         Maybe (ASet false [CChar ")"; CChar "]"]);
         Maybe (AChar ".");
         Eol ].

(** [\d{4}/\d+[A-Z]*$] *)
Definition citation_end : regex :=
  Seqs [ Times 4 Digit; Str "/"; Plus Digit; Star UpperAZ; Eol ].

(** [(Article|paragraph|point)\s+\d+[a-z]?$], searched with IGNORECASE. *)
Definition reference_end : regex :=
  Seqs [ Grp 1 (Alts [Str "Article"; Str "paragraph"; Str "point"]);
         Plus Space; Plus Digit; Maybe (ASet false [CRange "a" "z"]); Eol ].

Definition matched (m : option re_match) : bool :=
  match m with Some _ => true | None => false end.

(** [text[-1]] raises on the empty string that [rstrip] leaves of a
    text of white space only. *)
Definition ends_at_sentence_boundary (text0 : str) : outcome bool :=
  match text0 with
  | [] => Returns false
  | _ =>
      let text := rstrip text0 in
      match last text with
      | None => Raises
      | Some c =>
          if bool_decide (c ∈ lit ".!?;") then Returns true
          else if bool_decide (c = ":"%char) then Returns true
          else if matched (re_search true list_item_end text) then Returns true
          else if matched (re_search false citation_end text) then Returns true
          else if matched (re_search true reference_end text) then Returns true
          else Returns false
      end
  end.

(** [\barticle\s+{current_article}\b]; the article number is a run of
    digits, so it stands for itself in the pattern. *)
Definition article_reference (current_article : str) : regex :=
  Seqs [ Wordb; Str "article"; Plus Space;
         Seqs (map (λ c, One (AChar c)) current_article); Wordb ].

(** [\b(paragraph|subparagraph|point)\s+\d+\b] *)
Definition paragraph_reference : regex :=
  Seqs [ Wordb; Grp 1 (Alts [Str "paragraph"; Str "subparagraph"; Str "point"]);
         Plus Space; Plus Digit; Wordb ].

Definition continuation_patterns : list regex :=
  [ Seq Bol (Grp 1 (Alts [Str "however"; Str "moreover"; Str "furthermore";
                          Str "in addition"; Str "additionally"; Str "therefore";
                          Str "thus"]));
    Seq Bol (Grp 1 (Alts [Str "where"; Str "when"; Str "if"; Str "unless";
                          Str "provided that"]));
    Seq Bol (Grp 1 (Alts [Str "such"; Str "those"; Str "these"; Str "that";
                          Str "which"])) ].

Definition truthy (s : option str) : bool :=
  match s with Some (_ :: _) => true | _ => false end.

Definition should_keep_together (current_paras : list str) (next_para : str)
    (current_article : option str) : outcome bool :=
  match last current_paras with
  | None => Returns false
  | Some last_para =>
      ends ← ends_at_sentence_boundary last_para ;
      if negb ends then Returns true
      else if truthy current_article
              && (matched (re_search true
                     (article_reference (default [] current_article)) next_para)
                  || matched (re_search true paragraph_reference next_para))
      then Returns true
      else
        let next_para_lower := strip (lower next_para) in
        Returns (existsb (λ pattern, matched (re_match_start false pattern next_para_lower))
                         continuation_patterns)
  end.

(** The loop of [calculate_overlap] over the reversed paragraphs. *)
Fixpoint overlap_loop (target_tokens : Z) (rev_paras : list str)
    (overlap : list str) (tokens : Z) : outcome (list str) :=
  match rev_paras with
  | [] => Returns overlap
  | para :: rest =>
      let para_tokens := count_tokens para in
      ends ← ends_at_sentence_boundary para ;
      if negb ends then overlap_loop target_tokens rest overlap tokens
      else if bool_decide (3 * target_tokens < 2 * (tokens + para_tokens))
              && bool_decide (overlap ≠ [])
      then Returns overlap
      else
        let overlap' := para :: overlap in
        let tokens' := tokens + para_tokens in
        if bool_decide (4 * target_tokens ≤ 5 * tokens')
        then Returns overlap'
        else overlap_loop target_tokens rest overlap' tokens'
  end.

Definition calculate_overlap (paragraphs : list str) (target_tokens : Z)
    : outcome (list str) :=
  match paragraphs with
  | [] => Returns []
  | _ =>
      if bool_decide (target_tokens ≤ 0) then Returns []
      else overlap_loop target_tokens (reverse paragraphs) [] 0
  end.

(** [(?:Section\s+)?(\d+)\s*§?] *)
Definition section_number : regex :=
  Seqs [ Opt (Seq (Str "Section") (Plus Space)); Grp 1 (Plus Digit);
         Star Space; Maybe (AChar section_sign) ].

(** [Article\s+(\d+)] *)
Definition article_number_pattern : regex :=
  Seqs [ Str "Article"; Plus Space; Grp 1 (Plus Digit) ].

(** [\((\d+)\)] *)
Definition recital_number : regex :=
  Seqs [ Str "("; Grp 1 (Plus Digit); Str ")" ].

Definition group1 (p : str) (m : option re_match) : option str :=
  match m with
  | Some m' => Some (default [] (group p m' 1))
  | None => None
  end.

Definition detect_boundary (paragraph : str) : str * option str * list str :=
  if matched (re_match_start true finnish_chapter_pattern paragraph)
  then (lit "chapter", None, [])
  else if matched (re_match_start false finnish_section_pattern paragraph)
  then
    let section_num :=
      match group1 paragraph (re_search false section_number paragraph) with
      | Some n => Some (n ++ [" "%char; section_sign])
      | None => None
      end in
    (lit "section", section_num, [])
  else if matched (re_match_start false (article_pattern cfg) paragraph)
  then
    let article_num :=
      group1 paragraph (re_search false article_number_pattern paragraph) in
    (lit "article", article_num, [])
  else if matched (re_match_start false (recital_pattern cfg) paragraph)
  then
    match group1 paragraph (re_search false recital_number paragraph) with
    | Some n => (lit "recital", None, [lit "(" ++ n ++ lit ")"])
    | None => (lit "recital", None, [])
    end
  else if matched (re_match_start true framework_section_pattern paragraph)
  then (lit "section", None, [])
  else if matched (re_match_start false (section_pattern cfg) paragraph)
  then (lit "section", None, [])
  else (lit "paragraph", None, []).

(** The document-level metadata that [chunk_document] computes once. *)
Record doc_metadata := {
  md_regulation_name : str;
  md_year : option Z;
  md_doc_type : str;
  md_regulation_refs : list str;
  md_doc_header : str
}.

Definition year_truthy (year : option Z) : bool :=
  match year with Some y => bool_decide (y ≠ 0) | None => false end.

Definition year_text (year : option Z) : str := str_of_int (default 0 year).

Definition source_tag (doc : DocumentInfo) : list str :=
  if bool_decide (source_type doc = lit "national_law") then [lit "[National Law]"]
  else if bool_decide (source_type doc = lit "international_standard")
  then [lit "[International Standard]"]
  else [].

Definition create_document_header (doc : DocumentInfo) (regulation_name : str)
    (year : option Z) (doc_type : str) : str :=
  let parts0 :=
    if bool_decide (regulation_name ≠ [])
       && negb (bool_decide (regulation_name ∈ [lit "Unknown"; lit "N/A"]))
       && negb (startswith (lit "1(") regulation_name)
    then [regulation_name] else [] in
  let known_type := bool_decide (doc_type ≠ []) && bool_decide (doc_type ≠ lit "Unknown") in
  match parts0 with
  | name :: _ =>
      if known_type && year_truthy year
      then name ++ lit " (" ++ year_text year ++ lit ")"
      else
        let parts1 :=
          if year_truthy year && negb (contains (year_text year) name)
          then parts0 ++ [lit "(" ++ year_text year ++ lit ")"]
          else parts0 in
        join (lit " ") (parts1 ++ source_tag doc)
  | [] =>
      let parts1 := if known_type then [doc_type] else [] in
      let parts2 :=
        if year_truthy year
           && negb (existsb (contains (year_text year)) parts1)
        then match parts1 with
             | [] => [year_text year]
             | _ => parts1 ++ [lit "(" ++ year_text year ++ lit ")"]
             end
        else parts1 in
      join (lit " ") (parts2 ++ source_tag doc)
  end.

(** The indices of the paragraphs laid out from [pos] on, one
    separator apart. *)
Fixpoint para_indices_from (pos : Z) (paras : list str) : list (Z * Z) :=
  match paras with
  | [] => []
  | p :: ps => (pos, pos + len p) :: para_indices_from (pos + len p + 1) ps
  end.

Definition split_indices (chunk_text : str) : list (Z * Z) :=
  para_indices_from 0 (split_on newline chunk_text).

Definition create_chunk_metadata (doc : DocumentInfo) (chunk_id : Z)
    (chunk_text chunk_type : str) (article_number : option str)
    (paragraph_numbers : loc) (char_start : Z) (md : doc_metadata)
    (paragraph_indices : option (list (Z * Z))) : Chunk.ChunkMetadata :=
  {| Chunk.document_id := document_id doc;
     Chunk.filename := filename doc;
     Chunk.regulation_name := md_regulation_name md;
     Chunk.year := md_year md;
     Chunk.doc_type := md_doc_type md;
     Chunk.chunk_id := chunk_id;
     Chunk.chunk_type := chunk_type;
     Chunk.article_number := article_number;
     Chunk.paragraph_numbers := paragraph_numbers;
     Chunk.full_text := chunk_text;
     Chunk.paragraph_indices :=
       match paragraph_indices with
       | Some l => l
       | None => split_indices chunk_text
       end;
     Chunk.char_start := char_start;
     Chunk.char_end := char_start + len chunk_text;
     Chunk.token_count := count_tokens chunk_text;
     Chunk.regulation_refs := md_regulation_refs md;
     Chunk.language := language doc;
     Chunk.source_type := source_type doc |}.

(** The local variables of [chunk_document], and the store. *)
Record state := {
  chunks : list Chunk.ChunkMetadata;
  current_chunk_paras : list str;
  current_chunk_type : str;
  current_article : option str;
  current_paragraph_nums : loc;
  char_offset : Z;
  store : heap
}.

Definition initial_state : state :=
  {| chunks := []; current_chunk_paras := []; current_chunk_type := lit "mixed";
     current_article := None; current_paragraph_nums := 0%nat; char_offset := 0;
     store := [[]] |}.

Definition cfg_enable_overlap : bool := default false (enable_overlap cfg).
Definition cfg_overlap_tokens : Z := default 200 (overlap_tokens cfg).
Definition cfg_keep_related : bool := default true (keep_related_articles cfg).
Definition cfg_max_para_tokens : Z := default 1800 (max_paragraph_tokens cfg).

(** The text of the chunk that the buffer makes, and the position of
    its first paragraph: behind the header in the first chunk of a
    document. *)
Definition chunk_text_of (md : doc_metadata) (st : state) : str * Z :=
  let chunk_text := join nl (current_chunk_paras st) in
  if bool_decide (chunks st = []) && bool_decide (md_doc_header md ≠ [])
  then (md_doc_header md ++ nl ++ nl ++ chunk_text, len (md_doc_header md) + 2)
  else (chunk_text, 0).

(** The chunk that the buffer makes. *)
Definition buffer_chunk (doc : DocumentInfo) (md : doc_metadata) (st : state)
    : Chunk.ChunkMetadata :=
  let '(chunk_text, pos) := chunk_text_of md st in
  create_chunk_metadata doc (Z.of_nat (length (chunks st))) chunk_text
    (current_chunk_type st) (current_article st) (current_paragraph_nums st)
    (char_offset st) md (Some (para_indices_from pos (current_chunk_paras st))).

Definition is_boundary (kinds : list str) (para_type : str) : bool :=
  bool_decide (para_type ∈ kinds).

(** The split decision for an incoming sub-paragraph. *)
Definition should_split (st : state) (para_type sub_para : str) : outcome bool :=
  let sub_para_tokens := count_tokens sub_para in
  match current_chunk_paras st with
  | [] => Returns false
  | _ =>
      let current_tokens := count_tokens (join nl (current_chunk_paras st)) in
      let last_para := default [] (last (current_chunk_paras st)) in
      keep ← (if cfg_keep_related
               then should_keep_together (current_chunk_paras st) sub_para
                      (current_article st)
               else Returns false);
      if keep : bool
      then Returns (negb (bool_decide
                     (5 * (current_tokens + sub_para_tokens) ≤ 6 * max_chunk_tokens cfg)))
      else if is_boundary [lit "article"; lit "section"] para_type
              && bool_decide (min_chunk_tokens cfg ≤ current_tokens)
      then ends_at_sentence_boundary last_para
      else if bool_decide (max_chunk_tokens cfg < current_tokens + sub_para_tokens)
      then Returns true
      else if bool_decide (chunk_target_tokens cfg ≤ current_tokens)
              && is_boundary [lit "article"; lit "recital"; lit "section"] para_type
      then ends_at_sentence_boundary last_para
      else Returns false
  end.

(** The body of [if should_split:]: emit the buffer, then start the
    next one empty or from the overlap. *)
Definition emit (doc : DocumentInfo) (md : doc_metadata) (st : state) : outcome state :=
  let chunk := buffer_chunk doc md st in
  let offset' := char_offset st + len (Chunk.full_text chunk) + 1 in
  if cfg_enable_overlap
  then
    overlap_paras ← calculate_overlap (current_chunk_paras st) cfg_overlap_tokens;
    match overlap_paras with
    | [] =>
        let '(l, h) := alloc (store st) in
        Returns {| chunks := chunks st ++ [chunk]; current_chunk_paras := [];
                   current_chunk_type := current_chunk_type st;
                   current_article := current_article st;
                   current_paragraph_nums := l; char_offset := offset';
                   store := h |}
    | _ =>
        Returns {| chunks := chunks st ++ [chunk]; current_chunk_paras := overlap_paras;
                   current_chunk_type := current_chunk_type st;
                   current_article := current_article st;
                   current_paragraph_nums := current_paragraph_nums st;
                   char_offset := offset'; store := store st |}
    end
  else
    let '(l, h) := alloc (store st) in
    Returns {| chunks := chunks st ++ [chunk]; current_chunk_paras := [];
               current_chunk_type := current_chunk_type st;
               current_article := current_article st;
               current_paragraph_nums := l; char_offset := offset'; store := h |}.

(** Append the sub-paragraph and update the running context. *)
Definition track (st : state) (para_type : str) (article_num : option str)
    (para_nums : list str) (sub_para : str) : state :=
  let paras := current_chunk_paras st ++ [sub_para] in
  if bool_decide (para_type = lit "article") && truthy article_num
  then {| chunks := chunks st; current_chunk_paras := paras;
          current_chunk_type := lit "article"; current_article := article_num;
          current_paragraph_nums := current_paragraph_nums st;
          char_offset := char_offset st; store := store st |}
  else if bool_decide (para_type = lit "recital")
  then {| chunks := chunks st; current_chunk_paras := paras;
          current_chunk_type := lit "recital"; current_article := current_article st;
          current_paragraph_nums := current_paragraph_nums st;
          char_offset := char_offset st;
          store := match para_nums with
                   | [] => store st
                   | _ => extend (current_paragraph_nums st) para_nums (store st)
                   end |}
  else if bool_decide (para_type = lit "section")
  then {| chunks := chunks st; current_chunk_paras := paras;
          current_chunk_type := lit "section"; current_article := current_article st;
          current_paragraph_nums := current_paragraph_nums st;
          char_offset := char_offset st; store := store st |}
  else {| chunks := chunks st; current_chunk_paras := paras;
          current_chunk_type := current_chunk_type st;
          current_article := current_article st;
          current_paragraph_nums := current_paragraph_nums st;
          char_offset := char_offset st; store := store st |}.

(** The body of the inner loop, for one sub-paragraph. *)
Definition step_sub (doc : DocumentInfo) (md : doc_metadata)
    (kind : str * option str * list str) (st : state) (sub_para : str)
    : outcome state :=
  let '(para_type, article_num, para_nums) := kind in
  split ← should_split st para_type sub_para;
  st1 ← (if split : bool then emit doc md st else Returns st);
  Returns (track st1 para_type article_num para_nums sub_para).

Definition sub_paras_of (para : str) : list str :=
  if bool_decide (cfg_max_para_tokens < count_tokens para)
  then split_at_sentences para cfg_max_para_tokens
  else [para].

(** The body of the outer loop, for one paragraph. *)
Definition step_para (doc : DocumentInfo) (md : doc_metadata) (st : state) (para : str)
    : outcome state :=
  for_each (step_sub doc md (detect_boundary para)) st (sub_paras_of para).

(** The orphan merge into the previous chunk. *)
Definition merge_into (prev : Chunk.ChunkMetadata) (st : state)
    (chunk_text merged_text : str) (merged_tokens : Z) : Chunk.ChunkMetadata :=
  let offset := len (Chunk.full_text prev) + 1 in
  {| Chunk.document_id := Chunk.document_id prev;
     Chunk.filename := Chunk.filename prev;
     Chunk.regulation_name := Chunk.regulation_name prev;
     Chunk.year := Chunk.year prev;
     Chunk.doc_type := Chunk.doc_type prev;
     Chunk.chunk_id := Chunk.chunk_id prev;
     Chunk.chunk_type := Chunk.chunk_type prev;
     Chunk.article_number := Chunk.article_number prev;
     Chunk.paragraph_numbers := Chunk.paragraph_numbers prev;
     Chunk.full_text := merged_text;
     Chunk.paragraph_indices :=
       Chunk.paragraph_indices prev
       ++ para_indices_from offset (current_chunk_paras st);
     Chunk.char_start := Chunk.char_start prev;
     Chunk.char_end := char_offset st + len chunk_text;
     Chunk.token_count := merged_tokens;
     Chunk.regulation_refs := Chunk.regulation_refs prev;
     Chunk.language := Chunk.language prev;
     Chunk.source_type := Chunk.source_type prev |}.

(** The code after the loops: the last buffer becomes a chunk of its
    own or is merged into the previous chunk. *)
Definition finalize (doc : DocumentInfo) (md : doc_metadata) (st : state)
    : list Chunk.ChunkMetadata * heap :=
  match current_chunk_paras st with
  | [] => (chunks st, store st)
  | _ =>
      let chunk := buffer_chunk doc md st in
      let chunk_text := Chunk.full_text chunk in
      let chunk_tokens := count_tokens chunk_text in
      match last (chunks st) with
      | Some prev_chunk =>
          if merge_orphans cfg && bool_decide (chunk_tokens < orphan_threshold cfg)
          then
            let merged_text := Chunk.full_text prev_chunk ++ nl ++ chunk_text in
            let merged_tokens := count_tokens merged_text in
            if bool_decide (5 * merged_tokens ≤ 6 * max_chunk_tokens cfg)
            then
              let nums := deref (store st) (current_paragraph_nums st) in
              (removelast (chunks st)
                 ++ [merge_into prev_chunk st chunk_text merged_text merged_tokens],
               match nums with
               | [] => store st
               | _ => extend (Chunk.paragraph_numbers prev_chunk) nums (store st)
               end)
            else (chunks st ++ [chunk], store st)
          else (chunks st ++ [chunk], store st)
      | None => (chunks st ++ [chunk], store st)
      end
  end.

(** [doc.paragraphs[0]] raises on an empty list. *)
Definition first_text_of (doc : DocumentInfo) : outcome str :=
  if bool_decide (source_type doc = lit "national_law")
  then Returns (join nl (take 20 (paragraphs doc)))
  else match paragraphs doc with
       | p :: _ => Returns p
       | [] => Raises
       end.

Definition document_metadata (doc : DocumentInfo) (first_text : str) : doc_metadata :=
  let regulation_name :=
    MetadataExtractor.extract_regulation_name first_text (source_type doc) in
  let year := MetadataExtractor.extract_year first_text (filename doc) in
  let doc_type := MetadataExtractor.extract_doc_type first_text (source_type doc) in
  {| md_regulation_name := regulation_name;
     md_year := year;
     md_doc_type := doc_type;
     md_regulation_refs := MetadataExtractor.extract_regulation_refs (full_text doc);
     md_doc_header := create_document_header doc regulation_name year doc_type |}.

(** The state after the paragraphs [paras] of the document. *)
Definition run_paragraphs (doc : DocumentInfo) (md : doc_metadata) (paras : list str)
    : outcome state :=
  for_each (step_para doc md) initial_state paras.

(** The chunks of a document, with the store that holds their
    [paragraph_numbers]. *)
Definition chunk_document (doc : DocumentInfo)
    : outcome (list Chunk.ChunkMetadata * heap) :=
  first_text ← first_text_of doc;
  let md := document_metadata doc first_text in
  st ← run_paragraphs doc md (paragraphs doc);
  Returns (finalize doc md st).
End DocumentChunker.

(** ** Specification-level definitions *)

(** The paragraphs a chunk's [paragraph_indices] cut out of its text. *)
Definition chunk_paragraphs (c : Chunk.ChunkMetadata) : list str :=
  map (λ se, slice (Chunk.full_text c) se.1 se.2) (Chunk.paragraph_indices c).

(** ** The pattern cache of [re]

    Two of the extractors give [re] the text of a pattern instead of a
    compiled one ([re.search] in [extract_regulation_name], [re.findall]
    in [extract_year]). The module then looks the text up in its cache
    of compiled patterns and, when it is not there, compiles it and
    stores it, dropping older entries when the cache is full. This
    cache is the one piece of state of the interpreter that the
    extractors read and write. *)
Definition re_cache := gmap str regex.

(** The text of the pattern [TITLE_PATTERN] is compiled from. *)
Definition title_source : str := lit "^(.+?\)\s*(?:\(.+?\))?)".

(** The text of the pattern [FILENAME_YEAR_PATTERN] is compiled from. *)
Definition filename_year_source : str := lit "\b(19|20)\d{2}\b".

Section pattern_cache.
(** The compiler of [re], and what the module drops from a full cache. *)
Context (re_compile : str → regex) (evict : re_cache → re_cache).

(** [re._compile(source)] *)
Definition re_cached (cache : re_cache) (source : str) : regex * re_cache :=
  match cache !! source with
  | Some r => (r, cache)
  | None => (re_compile source, <[source := re_compile source]> (evict cache))
  end.

(** [scan_title_lines] with the cache it goes through. *)
Fixpoint scan_title_lines_run (cache : re_cache) (lines : list str)
    : option str * re_cache :=
  match lines with
  | [] => (None, cache)
  | line0 :: rest =>
      let line := strip line0 in
      if bool_decide (len line < 10) && contains (lit "(") line
         && from_option is_digit_char false (head line)
      then scan_title_lines_run cache rest
      else if contains (lit "translation from") (lower line)
              || contains (lit "legally binding") (lower line)
      then scan_title_lines_run cache rest
      else if contains (lit "ministry of") (lower line)
      then scan_title_lines_run cache rest
      else if (contains (lit "Act on") line || contains (lit "Laki") line)
              && bool_decide (20 < len line)
      then
        if contains (lit "(") line && Nat.ltb 1 (count_char "(" line)
        then let '(r, cache') := re_cached cache title_source in
             (match re_search false r line with
              | Some m => Some (strip (default [] (group line m 1)))
              | None => Some line
              end, cache')
        else (Some line, cache)
      else scan_title_lines_run cache rest
  end.

(** [extract_regulation_name] with the cache it goes through. *)
Definition extract_regulation_name_run (cache : re_cache)
    (first_paragraph source_type : str) : str * re_cache :=
  let search_text := take 800 first_paragraph in
  let lines := split_on newline search_text in
  let '(national, cache') :=
    if bool_decide (source_type = lit "national_law")
    then scan_title_lines_run cache (take 15 lines) else (None, cache) in
  (match national with
   | Some name => name
   | None =>
       match MetadataExtractor.pattern_name search_text with
       | Some name => name
       | None =>
           match MetadataExtractor.first_substantial
                   (take 5 (split_on newline first_paragraph)) with
           | Some name => name
           | None => strip (take 100 first_paragraph)
           end
       end
   end, cache').

(** [extract_year] with the cache it goes through. *)
Definition extract_year_run (cache : re_cache) (text filename : str)
    : option Z * re_cache :=
  let matches := findall1 false MetadataExtractor.YEAR_PATTERN text in
  match matches with
  | _ :: _ => (MetadataExtractor.max_year (map int_of_digits matches), cache)
  | [] =>
      match filename with
      | [] => (None, cache)
      | _ :: _ =>
          let '(r, cache') := re_cached cache filename_year_source in
          let filename_matches := findall1 false r filename in
          (match last filename_matches with
           | Some y => Some (int_of_digits y)
           | None => None
           end, cache')
      end
  end.

(** One run of the four extractions of [chunk_document] that finds the
    cache [cache] and leaves [cache']; the set of references is listed
    in an order that the run does not control. *)
Definition extraction_run_in (cache : re_cache) (doc : DocumentInfo)
    (first_text : str) (r : str * option Z * str * list str) (cache' : re_cache)
    : Prop :=
  let '(name, cache1) :=
    extract_regulation_name_run cache first_text (source_type doc) in
  let '(year, cache2) := extract_year_run cache1 first_text (filename doc) in
  r.1.1.1 = name
  ∧ r.1.1.2 = year
  ∧ r.1.2 = MetadataExtractor.extract_doc_type first_text (source_type doc)
  ∧ MetadataExtractor.extract_regulation_refs_run (full_text doc) r.2
  ∧ cache' = cache2.

(** Every entry of the cache is the compiled form of its text. *)
Definition cache_consistent (cache : re_cache) : Prop :=
  ∀ source r, cache !! source = Some r → r = re_compile source.
End pattern_cache.

(** Sum of the token counts of paragraphs, as [calculate_overlap] adds
    them up. *)
Definition tokens_sum (encode : str → option (list nat)) (ps : list str) : Z :=
  foldr (λ p acc, count_tokens encode p + acc) 0 ps.

(** The header part of a chunk's text: the first chunk of a document
    starts with the document header and an empty line, when there is a
    header. *)
Definition header_prefix (md : doc_metadata) (c : Chunk.ChunkMetadata) : str :=
  if bool_decide (Chunk.chunk_id c = 0) && bool_decide (md_doc_header md ≠ [])
  then md_doc_header md ++ nl ++ nl else [].

(** [made_from c ps]: the chunk [c] was made from the paragraphs [ps],
    either from a buffer holding [ps], or by the orphan merge of the last
    buffer into a chunk made before. *)
Inductive made_from (encode : str → option (list nat)) (doc : DocumentInfo)
    (md : doc_metadata) : Chunk.ChunkMetadata → list str → Prop :=
| made_buffer (st : state) :
    current_chunk_paras st ≠ [] →
    made_from encode doc md (buffer_chunk encode doc md st) (current_chunk_paras st)
| made_merge (prev : Chunk.ChunkMetadata) (ps : list str) (st : state) :
    made_from encode doc md prev ps →
    current_chunk_paras st ≠ [] →
    chunks st ≠ [] →
    made_from encode doc md
      (merge_into prev st (join nl (current_chunk_paras st))
         (Chunk.full_text prev ++ nl ++ join nl (current_chunk_paras st))
         (count_tokens encode
            (Chunk.full_text prev ++ nl ++ join nl (current_chunk_paras st))))
      (ps ++ current_chunk_paras st).

(** What the indices of a chunk made from [ps] satisfy; the slices stay
    the same when text is appended to the chunk, as the orphan merge
    does. *)
Definition reconstructs (md : doc_metadata) (c : Chunk.ChunkMetadata) (ps : list str)
    : Prop :=
  ps ≠ []
  ∧ (∀ post, map (λ se, slice (Chunk.full_text c ++ post) se.1 se.2)
               (Chunk.paragraph_indices c) = ps)
  ∧ Chunk.full_text c = header_prefix md c ++ join nl ps.

(** The paragraphs of all chunks of a document, in chunk order. *)
Definition all_chunk_paragraphs (cs : list Chunk.ChunkMetadata) : list str :=
  concat (map chunk_paragraphs cs).

(** The chunks of a document, when [chunk_document] returns. *)
Definition chunks_of (encode : str → option (list nat)) (cfg : Config)
    (doc : DocumentInfo) : option (list Chunk.ChunkMetadata) :=
  match chunk_document encode cfg doc with
  | Returns (cs, _) => Some cs
  | Raises => None
  end.

(** The chunks made so far and the buffer hold what has been read. *)
Definition holds_read (md : doc_metadata) (st : state) (read : list str) : Prop :=
  Forall (λ c, ∃ ps, reconstructs md c ps) (chunks st)
  ∧ all_chunk_paragraphs (chunks st) ++ current_chunk_paras st = read.

(** The size of an overlap whose first paragraph [p] was added last:
    the paragraphs added before it stayed below 80% of the target, and
    an overlap of more than one paragraph is at most 150% of it. *)
Definition overlap_bounded (encode : str → option (list nat)) (target : Z)
    (overlap : list str) : Prop :=
  match overlap with
  | [] => True
  | p :: rest =>
      5 * tokens_sum encode rest < 4 * target
      ∧ (rest ≠ [] → 2 * tokens_sum encode (p :: rest) ≤ 3 * target)
  end.

Definition sentence_closed (p : str) : Prop :=
  ends_at_sentence_boundary p = Returns true.

(** Whether the walk of [calculate_overlap] takes the paragraph for one
    that ends at a sentence boundary. *)
Definition ends_sentence (p : str) : bool :=
  match ends_at_sentence_boundary p with
  | Returns b => b
  | Raises => false
  end.

(** The overlap in the words of the specification: of the paragraphs
    that end at a sentence boundary, the last ones, without a gap; each
    was taken while the overlap was below 80% of the target and, when the
    overlap was not empty, only if the total stayed within 150% of it;
    and the walk ended because no such paragraph was left, because 80%
    was reached, or because the next one, [q], would have gone over
    150%. *)
Definition selected_overlap (encode : str → option (list nat)) (target : Z)
    (paragraphs overlap : list str) : Prop :=
  ∃ skipped,
    List.filter ends_sentence paragraphs = skipped ++ overlap
    ∧ (∀ p rest, (p :: rest) `suffix_of` overlap →
         5 * tokens_sum encode rest < 4 * target
         ∧ (rest ≠ [] → 2 * tokens_sum encode (p :: rest) ≤ 3 * target))
    ∧ (skipped = []
       ∨ 4 * target ≤ 5 * tokens_sum encode overlap
       ∨ (overlap ≠ []
          ∧ ∃ q, last skipped = Some q
                 ∧ 3 * target < 2 * (tokens_sum encode overlap + count_tokens encode q))).

(** The text of the chunk [c] lies in the document's text at the
    chunk's character offsets. *)
Definition located_at_offsets (doc : DocumentInfo) (c : Chunk.ChunkMetadata) : Prop :=
  slice (full_text doc) (Chunk.char_start c) (Chunk.char_end c) = Chunk.full_text c.

















(** A paragraph with a character other than white space. *)
Definition has_text (p : str) : Prop := rstrip p ≠ [].

(** The document offset behind the paragraphs [emitted]: behind their
    text and one separator. *)
Definition offset_after (emitted : list str) : Z :=
  match emitted with
  | [] => 0
  | _ => len (join nl emitted) + 1
  end.

(** The text of [c] lies at the offsets of [c] in every text that
    starts with [text]. *)
Definition located_in (text : str) (c : Chunk.ChunkMetadata) : Prop :=
  ∀ more, slice (text ++ more) (Chunk.char_start c) (Chunk.char_end c)
          = Chunk.full_text c.

(** The running offset and the offsets of the chunks made so far follow
    the text of the paragraphs emitted so far. *)
Definition offsets_follow (st : state) : Prop :=
  let emitted := all_chunk_paragraphs (chunks st) in
  char_offset st = offset_after emitted
  ∧ Forall (located_in (join nl emitted)) (chunks st)
  ∧ (∀ prev, last (chunks st) = Some prev →
       0 ≤ Chunk.char_start prev
       ∧ Chunk.char_end prev = Chunk.char_start prev + len (Chunk.full_text prev)
       ∧ Chunk.char_end prev = len (join nl emitted)).

(** ** The run and its history *)

(** The state of the chunker together with what an observer of the loop
    has noted: the overlap the buffer started from, and, for every buffer
    emitted so far, the overlap it started from and the buffer as it was
    when emitted. *)
Record history := {
  hs_state : state;
  hs_seed : list str;
  hs_emitted : list (list str * list str)
}.

Definition initial_history : history :=
  {| hs_state := initial_state; hs_seed := []; hs_emitted := [] |}.

(** What the observer notes when an iteration takes the chunker to
    [st']: an iteration that added a chunk emitted the buffer it found,
    and the buffer it leaves is the overlap and the sub-paragraph just
    read. *)
Definition observe (hs : history) (st' : state) : history :=
  if bool_decide (length (chunks (hs_state hs)) < length (chunks st'))%nat
  then {| hs_state := st';
          hs_seed := removelast (current_chunk_paras st');
          hs_emitted := hs_emitted hs ++ [(hs_seed hs, current_chunk_paras (hs_state hs))] |}
  else {| hs_state := st'; hs_seed := hs_seed hs; hs_emitted := hs_emitted hs |}.

Definition step_sub_logged (encode : str → option (list nat)) (cfg : Config)
    (doc : DocumentInfo) (md : doc_metadata) (kind : str * option str * list str)
    (hs : history) (sub_para : str) : outcome history :=
  st' ← step_sub encode cfg doc md kind (hs_state hs) sub_para;
  Returns (observe hs st').

Definition step_para_logged (encode : str → option (list nat)) (cfg : Config)
    (doc : DocumentInfo) (md : doc_metadata) (hs : history) (para : str)
    : outcome history :=
  for_each (step_sub_logged encode cfg doc md (detect_boundary cfg para)) hs
    (sub_paras_of encode cfg para).

(** The run of [chunk_document] over [paras], with its history. *)
Definition run_logged (encode : str → option (list nat)) (cfg : Config)
    (doc : DocumentInfo) (md : doc_metadata) (paras : list str) : outcome history :=
  for_each (step_para_logged encode cfg doc md) initial_history paras.

(** The buffers of a run, each with the overlap it started from: the
    emitted ones, then the last. *)
Definition segments (hs : history) : list (list str * list str) :=
  hs_emitted hs ++ [(hs_seed hs, current_chunk_paras (hs_state hs))].

(** What was read into a buffer behind its overlap. *)
Definition read_into (s : list str * list str) : list str := drop (length s.1) s.2.

(** The last buffer went into the chunk before it: it was not empty,
    and no chunk was added for it. *)
Definition merged_last (st : state) (cs : list Chunk.ChunkMetadata) : bool :=
  bool_decide (current_chunk_paras st ≠ [] ∧ length cs = length (chunks st)).

(** The buffer contents the chunks [cs] of a document were made of: the
    buffers at their emission, and the last buffer, which is a chunk of
    its own or, after the orphan merge, the end of the chunk before. *)
Definition chunk_buffers (hs : history) (cs : list Chunk.ChunkMetadata)
    : list (list str) :=
  let emitted := map snd (hs_emitted hs) in
  let buffer := current_chunk_paras (hs_state hs) in
  if merged_last (hs_state hs) cs
  then removelast emitted ++ [default [] (last emitted) ++ buffer]
  else match buffer with
       | [] => emitted
       | _ => emitted ++ [buffer]
       end.

(** The overlap [seed] of a buffer that follows the emitted buffer
    [previous]; the first buffer of a document follows none. *)
Definition seeded_from (encode : str → option (list nat)) (cfg : Config)
    (previous : option (list str)) (seed : list str) : Prop :=
  match previous with
  | None => seed = []
  | Some buffer =>
      if cfg_enable_overlap cfg
      then calculate_overlap encode buffer (cfg_overlap_tokens cfg) = Returns seed
      else seed = []
  end.

Fixpoint seeds_follow (encode : str → option (list nat)) (cfg : Config)
    (previous : option (list str)) (segs : list (list str * list str)) : Prop :=
  match segs with
  | [] => True
  | s :: rest =>
      seeded_from encode cfg previous s.1 ∧ seeds_follow encode cfg (Some s.2) rest
  end.

(** Every paragraph of the buffer behind the overlap and the first
    paragraph read after it passed the size test against the buffer it
    joined. *)
Definition admitted (encode : str → option (list nat)) (cfg : Config)
    (s : list str * list str) : Prop :=
  ∀ k p, (length s.1 < k)%nat → s.2 !! k = Some p →
    5 * (count_tokens encode (join nl (take k s.2)) + count_tokens encode p)
    ≤ 6 * max_chunk_tokens cfg.

(** What holds of a history after the sub-paragraphs [read]. *)
Definition well_logged (encode : str → option (list nat)) (cfg : Config)
    (md : doc_metadata) (hs : history) (read : list str) : Prop :=
  Forall2 (reconstructs md) (chunks (hs_state hs)) (map snd (hs_emitted hs))
  ∧ Forall (λ s, s.1 `prefix_of` s.2) (segments hs)
  ∧ concat (map read_into (segments hs)) = read
  ∧ seeds_follow encode cfg None (segments hs)
  ∧ (cfg_keep_related cfg = true → Forall (admitted encode cfg) (segments hs)).

(** ** Concrete inputs *)

(** A tokenizer that never raises and yields one token for each run of
    characters other than white space. *)
Fixpoint count_words (inword : bool) (s : str) : nat :=
  match s with
  | [] => O
  | c :: s' =>
      if is_space c then count_words false s'
      else if inword then count_words true s'
      else S (count_words true s')
  end.

Definition word_encode (s : str) : option (list nat) :=
  Some (seq 0 (count_words false s)).

(** A tokenizer that always raises. *)
Definition failing_encode (s : str) : option (list nat) := None.

(** A configuration with the usual structural patterns:
    [^Article\s+\d+], [^\(\d+\)] and [^SECTION\s+\d+]. *)
Definition sample_config (target min max : Z) (merge : bool) (orphan : Z)
    (overlap : option bool) : Config :=
  {| article_pattern := Seqs [Bol; Str "Article"; Plus Space; Plus Digit];
     recital_pattern := Seqs [Bol; Str "("; Plus Digit; Str ")"];
     section_pattern := Seqs [Bol; Str "SECTION"; Plus Space; Plus Digit];
     chunk_target_tokens := target;
     min_chunk_tokens := min;
     max_chunk_tokens := max;
     merge_orphans := merge;
     orphan_threshold := orphan;
     enable_overlap := overlap;
     overlap_tokens := None;
     keep_related_articles := None;
     max_paragraph_tokens := None |}.

(** A document as [load_document] builds it from its paragraphs. *)
Definition make_doc (name : string) (ps : list str) : DocumentInfo :=
  {| document_id := lit "doc-1";
     filename := lit name;
     file_path := lit name;
     paragraphs := ps;
     full_text := join nl ps;
     source_type := lit "eu_legislation";
     language := lit "en" |}.

(** Two article paragraphs; the second is four words long. *)
Definition two_articles : DocumentInfo :=
  make_doc "reg.json"
    [lit "Article 1 applies to all credit institutions in the Union.";
     lit "Article 2 is short."].

(** A configuration with another ceiling for the paragraph size. *)
Definition with_max_paragraph_tokens (n : Z) (c : Config) : Config :=
  {| article_pattern := article_pattern c;
     recital_pattern := recital_pattern c;
     section_pattern := section_pattern c;
     chunk_target_tokens := chunk_target_tokens c;
     min_chunk_tokens := min_chunk_tokens c;
     max_chunk_tokens := max_chunk_tokens c;
     merge_orphans := merge_orphans c;
     orphan_threshold := orphan_threshold c;
     enable_overlap := enable_overlap c;
     overlap_tokens := overlap_tokens c;
     keep_related_articles := keep_related_articles c;
     max_paragraph_tokens := Some n |}.

(** One paragraph of two sentences, eight words in all. *)
Definition two_sentences : DocumentInfo :=
  make_doc "reg.json" [lit "First sentence is here. Second sentence is here."].

(** A buffer whose middle paragraph does not end a sentence. *)
Definition open_middle : list str :=
  [lit "Institutions shall report quarterly.";
   lit "The report shall cover the following items,";
   lit "Annual reports are due in March."].

(** The state of a chunker about to emit the buffer [paras] as the
    first chunk. *)
Definition state_with_buffer (paras : list str) : state :=
  {| chunks := []; current_chunk_paras := paras; current_chunk_type := lit "mixed";
     current_article := None; current_paragraph_nums := 0%nat; char_offset := 0;
     store := [[]] |}.

(** An article paragraph of one sentence and 33 words. *)
Definition long_article : str :=
  lit "Article 2 requires every institution to keep records of all transactions carried out on behalf of clients for at least five years after the end of the business relationship with the client concerned.".

Definition short_then_long : DocumentInfo :=
  make_doc "reg.json"
    [lit "Article 1 applies to all credit institutions in the Union."; long_article].

(** Article 6, then the heading of Article 7 and one plain sentence. *)
Definition article_seven : DocumentInfo :=
  make_doc "reg.json"
    [lit "Article 6 applies to all credit institutions in the Union.";
     lit "Article 7";
     lit "Institutions shall report quarterly."].





(** An article paragraph of one sentence and 15 words. *)
Definition records_article : str :=
  lit "Article 2 requires every institution to keep records of all transactions for five full years.".

(** A national law whose title goes through the title pattern, whose
    year comes from the file name, and which refers to two acts. *)
Definition credit_act : DocumentInfo :=
  {| document_id := lit "doc-1";
     filename := lit "act-2017.di.json";
     file_path := lit "act-2017.di.json";
     paragraphs := [lit "Act on Credit Institutions (610) (unofficial)";
                    lit "See (EU) No 5/1234 and (EC) 4321/7."];
     full_text := join nl [lit "Act on Credit Institutions (610) (unofficial)";
                           lit "See (EU) No 5/1234 and (EC) 4321/7."];
     source_type := lit "national_law";
     language := lit "en" |}.

(** A compiler that knows the two pattern texts of the extractors. *)
Definition sample_compile (source : str) : regex :=
  if bool_decide (source = title_source) then MetadataExtractor.TITLE_PATTERN
  else if bool_decide (source = filename_year_source)
  then MetadataExtractor.FILENAME_YEAR_PATTERN
  else Eps.

(** ** Further specification-level definitions *)

(** The values a chunk takes from its document and from the metadata
    extracted once for the document. *)
Definition shares_document_metadata (doc : DocumentInfo) (first_text : str)
    (c : Chunk.ChunkMetadata) : Prop :=
  Chunk.document_id c = document_id doc
  ∧ Chunk.filename c = filename doc
  ∧ Chunk.language c = language doc
  ∧ Chunk.source_type c = source_type doc
  ∧ Chunk.regulation_name c
    = MetadataExtractor.extract_regulation_name first_text (source_type doc)
  ∧ Chunk.year c = MetadataExtractor.extract_year first_text (filename doc)
  ∧ Chunk.doc_type c = MetadataExtractor.extract_doc_type first_text (source_type doc)
  ∧ Chunk.regulation_refs c
    = MetadataExtractor.extract_regulation_refs (full_text doc).

(** The chunk types the chunker assigns. *)
Definition assigned_types : list str :=
  [lit "mixed"; lit "article"; lit "recital"; lit "section"].

(** The texts of the chunks, one separator apart. *)
Definition chunk_stream (cs : list Chunk.ChunkMetadata) : str :=
  join nl (map Chunk.full_text cs).

(** The chunk's text lies at its offsets in every text that starts
    with [text], and the offsets are as far apart as the text is long. *)
Definition spans_in (text : str) (c : Chunk.ChunkMetadata) : Prop :=
  located_in text c
  ∧ 0 ≤ Chunk.char_start c
  ∧ Chunk.char_end c = Chunk.char_start c + len (Chunk.full_text c).

(** The running offset and the offsets of the chunks made so far follow
    the stream of the chunk texts. *)
Definition offsets_follow_stream (st : state) : Prop :=
  char_offset st = offset_after (map Chunk.full_text (chunks st))
  ∧ Forall (spans_in (chunk_stream (chunks st))) (chunks st)
  ∧ (∀ prev, last (chunks st) = Some prev →
       Chunk.char_end prev = len (chunk_stream (chunks st))).

(** The chunk ids count the chunks from zero. *)
Definition ids_count (cs : list Chunk.ChunkMetadata) : Prop :=
  ∀ i c, cs !! i = Some c → Chunk.chunk_id c = Z.of_nat i.

(** After some sub-paragraph has been read the buffer is not empty;
    before that the chunker is in its initial state. *)
Definition buffer_filled (st : state) (read : list str) : Prop :=
  (read = [] → st = initial_state) ∧ (read ≠ [] → current_chunk_paras st ≠ []).

(** The regulation name is one that [_create_document_header] puts into
    the header. *)
Definition usable_name (name : str) : Prop :=
  name ≠ [] ∧ name ∉ [lit "Unknown"; lit "N/A"] ∧ startswith (lit "1(") name = false.

(** The document type is one that the header may show. *)
Definition known_doc_type (doc_type : str) : Prop :=
  doc_type ≠ [] ∧ doc_type ≠ lit "Unknown".

(** The years that [extract_year] finds in a text. *)
Definition years_in (text : str) : list Z :=
  map int_of_digits (findall1 false MetadataExtractor.YEAR_PATTERN text).

(** The references [extract_regulation_refs] finds, in the order and
    with the repetitions of the text. *)
Definition references_in (text : str) : list str :=
  map (λ m, m.1 ++ lit " No " ++ m.2) (findall2 true MetadataExtractor.REF_PATTERN text).

(** The sentences [split_at_sentences] keeps: stripped, the empty ones
    left out. *)
Definition kept_sentences (sentences : list str) : list str :=
  filter (λ s, s ≠ []) (map strip sentences).

(** A group of sentences that [split_at_sentences] joins into one piece:
    its token counts add up to at most [max_tokens], or it is a single
    sentence that alone exceeds [max_tokens]. *)
Definition sentence_group (encode : str → option (list nat)) (max_tokens : Z)
    (g : list str) : Prop :=
  g ≠ []
  ∧ (tokens_sum encode g ≤ max_tokens
     ∨ ∃ s, g = [s] ∧ max_tokens < count_tokens encode s).

(** ** LocalFileWriter *)

(** [l[a:b]] on a list, for indices that are not negative. *)
Definition list_slice {A} (l : list A) (a b : Z) : list A :=
  drop (Z.to_nat a) (take (Z.to_nat b) l).

Fixpoint range_from (fuel : nat) (start stop step : Z) : list Z :=
  match fuel with
  | O => []
  | S fuel' =>
      if bool_decide (start < stop)
      then start :: range_from fuel' (start + step) stop step
      else []
  end.

(** [range(0, stop, step)] for a [stop] that is not negative and a
    [step] other than zero: empty when the step is negative. *)
Definition range_step (stop step : Z) : list Z :=
  if bool_decide (0 < step) then range_from (Z.to_nat stop) 0 stop step else [].

(** [f"{n:06d}"] for an [n] that is not negative. *)
Definition pad6 (n : Z) : str :=
  let digits := str_of_int n in
  replicate (6 - length digits) ("0"%char) ++ digits.

(** The writer: the files of its output directory, by name, and the
    counter of the files written so far. *)
Record LocalFileWriter := {
  output_files : gmap str str;
  file_counter : Z
}.

Definition batch_filename (counter : Z) : str :=
  lit "chunks_batch_" ++ pad6 counter ++ lit ".jsonl".

Section LocalFileWriter.
(** [A] is a chunk as the writer holds it, and [dumps] is
    [json.dumps(asdict(chunk), ensure_ascii=False)], the line of a chunk. *)
Context {A : Type} (dumps : A → str).

(** One round of the loop of [write_chunks]. *)
Definition write_batch (chunks : list A) (batch_size : Z)
    (acc : list str * LocalFileWriter) (batch_idx : Z) : list str * LocalFileWriter :=
  let '(written_files, w) := acc in
  let batch := list_slice chunks batch_idx (batch_idx + batch_size) in
  let jsonl_content := join nl (map dumps batch) in
  let filename := batch_filename (file_counter w) in
  (written_files ++ [filename],
   {| output_files := <[filename := jsonl_content]> (output_files w);
      file_counter := file_counter w + 1 |}).

(** [write_chunks]: the files written and the writer afterwards.
    [range] raises on a step of zero. *)
Definition write_chunks (w : LocalFileWriter) (chunks : list A)
    (batch_size : Z) : outcome (list str * LocalFileWriter) :=
  match chunks with
  | [] => Returns ([], w)
  | _ =>
      if bool_decide (batch_size = 0) then Raises
      else Returns (fold_left (write_batch chunks batch_size)
                              (range_step (Z.of_nat (length chunks)) batch_size)
                              ([], w))
  end.
End LocalFileWriter.

(** The counters of [n] files written from [counter] on. *)
Definition counters (counter : Z) (n : nat) : list Z :=
  map (λ i, counter + Z.of_nat i) (seq 0 n).

(** The batches into which [write_chunks] cuts a list: all of
    [batch_size] chunks but the last, which holds the rest. *)
Definition full_batches {A} (batch_size : Z) (batches : list (list A)) : Prop :=
  ∀ i b, batches !! i = Some b →
    b ≠ [] ∧ Z.of_nat (length b) ≤ batch_size
    ∧ ((S i < length batches)%nat → Z.of_nat (length b) = batch_size).

(** A chunk that holds one line of text, for the examples. *)
Definition line_chunk (chunk_id : Z) (text : str) : Chunk.ChunkMetadata :=
  {| Chunk.document_id := lit "doc"; Chunk.filename := lit "doc.json";
     Chunk.regulation_name := lit "Unknown"; Chunk.year := None;
     Chunk.doc_type := lit "Unknown"; Chunk.chunk_id := chunk_id;
     Chunk.chunk_type := lit "paragraph"; Chunk.article_number := None;
     Chunk.paragraph_numbers := 0%nat; Chunk.full_text := text;
     Chunk.paragraph_indices := [(0, len text)];
     Chunk.char_start := 0; Chunk.char_end := len text;
     Chunk.token_count := 1; Chunk.regulation_refs := [];
     Chunk.language := lit "en"; Chunk.source_type := lit "unknown" |}.

Definition three_lines : list Chunk.ChunkMetadata :=
  [line_chunk 0 (lit "one"); line_chunk 1 (lit "two"); line_chunk 2 (lit "three")].

Definition empty_writer : LocalFileWriter :=
  {| output_files := ∅; file_counter := 0 |}.

(** ** Parsed files *)

(** A value that [json.load] or [yaml.safe_load] returns.  An object
    lists its items in the order of the file, each key once; numbers are
    not told apart, since the code reads none. *)
Inductive json :=
| JNull
| JBool (b : bool)
| JNum (n : Z)
| JStr (s : str)
| JArr (items : list json)
| JObj (items : list (str * json)).

Fixpoint assoc (key : str) (items : list (str * json)) : option json :=
  match items with
  | [] => None
  | (k, v) :: items' => if bool_decide (k = key) then Some v else assoc key items'
  end.

(** [value.get(key, default)]: only a dict has the method. *)
Definition json_get (value : json) (key : str) (default : json) : outcome json :=
  match value with
  | JObj items => Returns (from_option id default (assoc key items))
  | _ => Raises
  end.

(** The elements a [for] loop or [list.extend] takes from a value: the
    items of a list, the keys of a dict, the characters of a string;
    any other value is not iterable. *)
Definition json_iter (value : json) : outcome (list json) :=
  match value with
  | JArr items => Returns items
  | JObj items => Returns (map (λ kv, JStr kv.1) items)
  | JStr s => Returns (map (λ c, JStr [c]) s)
  | _ => Raises
  end.

(** ["\n".join(paragraphs)] raises on an element that is not a string;
    the strings of [paragraphs] otherwise. *)
Fixpoint as_strings (values : list json) : outcome (list str) :=
  match values with
  | [] => Returns []
  | JStr s :: values' => ss ← as_strings values'; Returns (s :: ss)
  | _ :: _ => Raises
  end.

(** ** Config *)

(** [Config.get] on the loaded configuration, for the keys and the default given. *)
Fixpoint config_get (value : json) (keys : list str) (default : json) : json :=
  match keys with
  | [] => value
  | key :: keys' =>
      match value with
      | JObj items => config_get (from_option id default (assoc key items)) keys' default
      | _ => default
      end
  end.

(** ** DocumentScanner *)

(** A [pathlib.Path], by the properties the scanner reads. *)
Module Path.
Record t := {
  parts : list str;
  name : str;
  stem : str;
  str_of : str
}.
End Path.

(** [parts.index(x)] *)
Fixpoint index_of (x : str) (l : list str) : option nat :=
  match l with
  | [] => None
  | y :: l' => if bool_decide (y = x) then Some 0%nat else S <$> index_of x l'
  end.

Definition a_umlaut : ascii := ascii_of_nat 228.
Definition o_umlaut : ascii := ascii_of_nat 246.

Definition finnish_indicators : list str :=
  [ [section_sign]; lit "luku"; lit "Laki"; lit "laki"; lit "momentti";
    lit "pyk" ++ [a_umlaut] ++ lit "l" ++ [a_umlaut];
    lit "s" ++ [a_umlaut; a_umlaut] ++ lit "d" ++ [o_umlaut] ++ lit "s";
    lit "asetus"; lit "Asetus"; lit "ministeri" ++ [o_umlaut] ].

Definition english_indicators : list str :=
  [ lit "Article"; lit "Regulation"; lit "Directive"; lit "shall"; lit "pursuant";
    lit "Commission"; lit "Council"; lit "Parliament" ].

(** [sum(1 for indicator in indicators if indicator in text_sample)] *)
Definition count_indicators (indicators : list str) (text_sample : str) : Z :=
  Z.of_nat (length (filter (λ i, contains i text_sample = true) indicators)).

Definition detect_language (text_sample : str) : str :=
  let finnish_count := count_indicators finnish_indicators text_sample in
  let english_count := count_indicators english_indicators text_sample in
  if bool_decide (3 < finnish_count)
  then if bool_decide (2 < english_count) then lit "multi" else lit "fi"
  else if bool_decide (0 < english_count) then lit "en"
  else lit "en".

Section DocumentScanner.
(** [hashlib.md5(s.encode()).hexdigest()] *)
Context (md5_hexdigest : str → str).

Definition extract_source_info (file_path : Path.t) (parts : list str) : str * str :=
  let eu :=
    match index_of (lit "output") parts with
    | Some i => parts !! S i
    | None => None
    end in
  match eu with
  | Some document_id => (lit "eu_legislation", document_id)
  | None =>
      if bool_decide (lit "other_national_laws" ∈ parts)
      then
        let filename_base := replace (lit ".di") [] (Path.stem file_path) in
        (lit "national_law", lit "nat-law-" ++ filename_base)
      else
        match index_of (lit "other_regulation_standards") parts with
        | Some i =>
            let category := default (lit "unknown") (parts !! S i) in
            let filename_base := replace (lit ".di") [] (Path.stem file_path) in
            (lit "international_standard",
             lit "std-" ++ lower category ++ lit "-" ++ filename_base)
        | None =>
            let file_hash := take 16 (md5_hexdigest (Path.str_of file_path)) in
            (lit "unknown", lit "doc-" ++ file_hash)
        end
  end.

(** The body of [load_document] under its [try]; [data] is what
    [json.load] returned. *)
Definition load_document_run (file_path : Path.t) (data : json)
    : outcome (option DocumentInfo) :=
  pages_value ← json_get data (lit "pages") (JArr []);
  pages ← json_iter pages_value;
  collected ←
    for_each (λ paragraphs page,
                value ← json_get page (lit "paragraphs") (JArr []);
                items ← json_iter value;
                Returns (paragraphs ++ items))
             [] pages;
  match collected with
  | [] => Returns None
  | _ =>
      let '(source_type, document_id) :=
        extract_source_info file_path (Path.parts file_path) in
      paragraphs ← as_strings collected;
      let full_text := join nl paragraphs in
      let language := detect_language (take 1000 full_text) in
      Returns (Some {| document_id := document_id;
                       filename := Path.name file_path;
                       file_path := Path.str_of file_path;
                       paragraphs := paragraphs;
                       full_text := full_text;
                       source_type := source_type;
                       language := language |})
  end.

(** [load_document]: [data] is [None] when the file cannot be opened or
    parsed; every exception ends in [None]. *)
Definition load_document (file_path : Path.t) (data : option json)
    : option DocumentInfo :=
  match data with
  | None => None
  | Some d =>
      match load_document_run file_path d with
      | Returns r => r
      | Raises => None
      end
  end.
End DocumentScanner.

(** The value at a path of keys in nested dicts, in the words of the
    docstring of [Config.get]: the nested value, when every key on the
    way is there. *)
Fixpoint value_at (value : json) (keys : list str) : option json :=
  match keys with
  | [] => Some value
  | key :: keys' =>
      match value with
      | JObj items =>
          match assoc key items with
          | Some v => value_at v keys'
          | None => None
          end
      | _ => None
      end
  end.

Definition is_dict (value : json) : bool :=
  match value with JObj _ => true | _ => false end.

Definition source_types : list str :=
  [lit "eu_legislation"; lit "national_law"; lit "international_standard";
   lit "unknown"].

Definition languages : list str := [lit "en"; lit "fi"; lit "multi"].

(** A file of two pages whose first paragraph is a page number, found
    under an [output] directory. *)
Definition page_numbered_file : json :=
  JObj [(lit "pages",
         JArr [JObj [(lit "number", JNum 1);
                     (lit "paragraphs",
                      JArr [JStr (lit "1(77)"); JStr (lit "First part.")])];
               JObj [(lit "paragraphs", JArr [JStr (lit "Third part.")])]])].

Definition fmx_path : Path.t :=
  {| Path.parts := [lit "data"; lit "output"; lit "abc-123"; lit "fmx4"; lit "a.json"];
     Path.name := lit "a.json";
     Path.stem := lit "a";
     Path.str_of := lit "data/output/abc-123/fmx4/a.json" |}.

Definition fixed_digest (s : str) : str := lit "0123456789abcdef0123456789abcdef".

Definition page_numbered_doc : DocumentInfo :=
  {| document_id := lit "abc-123";
     filename := lit "a.json";
     file_path := lit "data/output/abc-123/fmx4/a.json";
     paragraphs := [lit "1(77)"; lit "First part."; lit "Third part."];
     full_text := join nl [lit "1(77)"; lit "First part."; lit "Third part."];
     source_type := lit "eu_legislation";
     language := lit "en" |}.

Definition nested_config : json :=
  JObj [(lit "output", JObj [(lit "batch_size", JNum 500)]);
        (lit "logging", JObj [(lit "level", JNull)])].

(** ** PreprocessingPipeline *)

(** A chunk as the pipeline holds it: the record and the store of its
    document, in which its [paragraph_numbers] live. *)
Definition stored_chunk : Type := Chunk.ChunkMetadata * heap.

(** The local variables of [run] that outlive a round of its loop, and
    the writer. *)
Record run_state := {
  all_chunks : list stored_chunk;
  written_files : list str;
  errors : Z;
  docs_processed : Z;
  total_chunks_written : Z;
  writer : LocalFileWriter
}.

Definition initial_run (w : LocalFileWriter) : run_state :=
  {| all_chunks := []; written_files := []; errors := 0; docs_processed := 0;
     total_chunks_written := 0; writer := w |}.

(** [errors += 1] with the entry of the skipped file. *)
Definition failed (st : run_state) : run_state :=
  {| all_chunks := all_chunks st; written_files := written_files st;
     errors := errors st + 1; docs_processed := docs_processed st;
     total_chunks_written := total_chunks_written st; writer := writer st |}.

Section PreprocessingPipeline.
Context (encode : str → option (list nat)) (cfg : Config).
Context (md5_hexdigest : str → str) (dumps : stored_chunk → str).
(** The files of the run: whether the directory of a scanner holds a
    path, and what [json.load] reads from it ([None] when it fails). *)
Context (in_scanner : Path.t → bool) (read_json : Path.t → option json).
(** [use_batches], [batch_interval], and [output.batch_size] of the
    configuration. *)
Context (use_batches : bool) (write_batch_size chunk_batch_size : Z).

(** The chunks of a file, [None] when it cannot be loaded or chunked. *)
Definition chunks_of_file (file_path : Path.t) : option (list stored_chunk) :=
  let doc :=
    if in_scanner file_path
    then load_document md5_hexdigest file_path (read_json file_path)
    else None in
  match doc with
  | None => None
  | Some doc =>
      match chunk_document encode cfg doc with
      | Returns (chunks, h) => Some (map (λ c, (c, h)) chunks)
      | Raises => None
      end
  end.

(** The flush of [all_chunks] to disk. *)
Definition write_out (st : run_state) : outcome run_state :=
  r ← write_chunks dumps (writer st) (all_chunks st) chunk_batch_size;
  Returns {| all_chunks := [];
             written_files := written_files st ++ r.1;
             errors := errors st;
             docs_processed := docs_processed st;
             total_chunks_written :=
               total_chunks_written st + Z.of_nat (length (all_chunks st));
             writer := r.2 |}.

(** One round of the loop of [run]; an exception of the round is
    caught and counted. *)
Definition process_file (st : run_state) (file_path : Path.t) : run_state :=
  match chunks_of_file file_path with
  | None => failed st
  | Some chunks =>
      let st1 :=
        {| all_chunks := all_chunks st ++ chunks;
           written_files := written_files st;
           errors := errors st;
           docs_processed := docs_processed st + 1;
           total_chunks_written := total_chunks_written st;
           writer := writer st |} in
      let flushed : outcome run_state :=
        if use_batches
        then if bool_decide (write_batch_size = 0) then Raises
             else if bool_decide (docs_processed st1 `mod` write_batch_size = 0)
                  then write_out st1
                  else Returns st1
        else Returns st1 in
      match flushed with
      | Returns st2 => st2
      | Raises => failed st1
      end
  end.

(** [run] from the paths found by the scan to the last file written;
    the upload that follows is left out. *)
Definition run (w : LocalFileWriter) (all_file_paths : list Path.t)
    : outcome run_state :=
  let st := fold_left process_file all_file_paths (initial_run w) in
  match all_chunks st with
  | [] => Returns st
  | _ => write_out st
  end.
End PreprocessingPipeline.

(** The chunks of the files that could be loaded and chunked, in the
    order of the files. *)
Definition produced (chunks_of : Path.t → option (list stored_chunk))
    (paths : list Path.t) : list stored_chunk :=
  concat (omap chunks_of paths).

(** The number of files that could be loaded and chunked. *)
Definition chunked (chunks_of : Path.t → option (list stored_chunk))
    (paths : list Path.t) : Z :=
  Z.of_nat (length (omap chunks_of paths)).

(** What has been written when [batches] are on disk: the files are
    named by the counters from [counter] on, and each holds the lines of
    its batch. *)
Definition on_disk (dumps : stored_chunk → str) (counter : Z)
    (batches : list (list stored_chunk)) (st : run_state) : Prop :=
  written_files st = map batch_filename (counters counter (length batches))
  ∧ file_counter (writer st) = counter + Z.of_nat (length batches)
  ∧ total_chunks_written st = Z.of_nat (length (concat batches))
  ∧ Forall (λ b, b ≠ [] ) batches
  ∧ ∀ i b, batches !! i = Some b →
      output_files (writer st) !! batch_filename (counter + Z.of_nat i)
      = Some (join nl (map dumps b)).

(** What holds of the state of [run] when the files [done] have been
    gone through; [all_counted] tells that every file is counted as an
    error (a batch interval of zero). *)
Definition run_invariant_of (chunks_of : Path.t → option (list stored_chunk))
    (dumps : stored_chunk → str) (counter : Z) (all_counted : bool)
    (done : list Path.t) (st : run_state) : Prop :=
  (∃ batches,
     concat batches ++ all_chunks st = produced chunks_of done
     ∧ on_disk dumps counter batches st)
  ∧ docs_processed st = chunked chunks_of done
  ∧ errors st
    = if all_counted
      then Z.of_nat (length done)
      else Z.of_nat (length done) - chunked chunks_of done.

(** The files of the examples: [a.json] can be read, nothing else. *)
Definition sample_reader (p : Path.t) : option json :=
  if bool_decide (Path.name p = lit "a.json") then Some page_numbered_file else None.

Definition missing_path : Path.t :=
  {| Path.parts := [lit "data"; lit "output"; lit "abc-456"; lit "fmx4"; lit "b.json"];
     Path.name := lit "b.json";
     Path.stem := lit "b";
     Path.str_of := lit "data/output/abc-456/fmx4/b.json" |}.

Definition text_line (c : stored_chunk) : str := Chunk.full_text c.1.

(** * Properties *)

(** ** Strings and lists *)

Lemma len_app (a b : str) : len (a ++ b) = len a + len b.
Proof. unfold len. rewrite length_app. lia. Qed.

Lemma len_nonneg (a : str) : 0 ≤ len a.
Proof. unfold len. lia. Qed.

Lemma slice_middle (a p b : str) :
  slice (a ++ p ++ b) (len a) (len a + len p) = p.
Proof.
  unfold slice, len.
  rewrite <- Nat2Z.inj_add, !Nat2Z.id.
  rewrite app_assoc, take_app_length' by (rewrite length_app; lia).
  by rewrite drop_app_length.
Qed.

Lemma join_cons (sep p : str) (ps : list str) :
  ps ≠ [] → join sep (p :: ps) = p ++ sep ++ join sep ps.
Proof. by destruct ps. Qed.

Lemma join_app (sep : str) (ps qs : list str) :
  ps ≠ [] → qs ≠ [] → join sep (ps ++ qs) = join sep ps ++ sep ++ join sep qs.
Proof.
  intros Hps Hqs. induction ps as [|p ps IH]; [done|].
  destruct ps as [|p' ps].
  - simpl. by destruct qs.
  - change ((p :: p' :: ps) ++ qs) with (p :: ((p' :: ps) ++ qs)).
    rewrite !join_cons by done. rewrite IH by done. by rewrite <- !app_assoc.
Qed.

(** The indices laid out over a text cut out exactly the paragraphs
    they were computed from. *)
Lemma slices_para_indices (paras : list str) (pre post : str) :
  map (λ se, slice (pre ++ join nl paras ++ post) se.1 se.2)
      (para_indices_from (len pre) paras) = paras.
Proof.
  revert pre. induction paras as [|p ps IH]; intros pre; [done|].
  destruct ps as [|p' ps].
  - simpl. by rewrite slice_middle.
  - rewrite join_cons by done.
    change (para_indices_from (len pre) (p :: p' :: ps))
      with ((len pre, len pre + len p)
              :: para_indices_from (len pre + len p + 1) (p' :: ps)).
    rewrite map_cons. f_equal.
    + simpl. rewrite <- !app_assoc. apply slice_middle.
    + specialize (IH (pre ++ p ++ nl)).
      rewrite !len_app in IH. change (len nl) with 1 in IH.
      rewrite Z.add_assoc in IH. etrans; [|exact IH].
      apply map_ext. intros se. by rewrite <- !app_assoc.
Qed.

(** ** Exceptions and loops *)

Lemma bind_returns {A B} (m : outcome A) (f : A → outcome B) (b : B) :
  (x ← m; f x) = Returns b → ∃ a, m = Returns a ∧ f a = Returns b.
Proof. destruct m as [a|]; [|done]. intros H. by exists a. Qed.


(** A property kept by every iteration holds after the loop. *)
Lemma for_each_invariant {S A} (P : S → Prop) (body : S → A → outcome S)
    (l : list A) (st st' : S) :
  (∀ s x s', x ∈ l → P s → body s x = Returns s' → P s') →
  P st → for_each body st l = Returns st' → P st'.
Proof.
  revert st. induction l as [|x l IH]; intros st Hstep HP Hrun.
  - simpl in Hrun. by simplify_eq.
  - simpl in Hrun. apply bind_returns in Hrun as (s1 & Hb & Hrun).
    eapply IH; [|by eapply (Hstep st x); [left| |]|done].
    intros s y s'' Hy. apply Hstep. by right.
Qed.

(** An invariant that also records what the loop has consumed. *)
Lemma for_each_history {S A B} (P : S → list B → Prop) (f : A → list B)
    (body : S → A → outcome S) (l : list A) (st st' : S) (acc : list B) :
  (∀ s x s' h, x ∈ l → P s h → body s x = Returns s' → P s' (h ++ f x)) →
  P st acc → for_each body st l = Returns st' → P st' (acc ++ concat (map f l)).
Proof.
  revert st acc. induction l as [|x l IH]; intros st acc Hstep HP Hrun.
  - simpl in *. simplify_eq. by rewrite app_nil_r.
  - simpl in Hrun. apply bind_returns in Hrun as (s1 & Hb & Hrun).
    simpl. rewrite app_assoc. eapply IH; [| |done].
    + intros s y s'' h Hy. apply Hstep. by right.
    + eapply Hstep; [by left|done|done].
Qed.

(** ** The order of [sorted] *)

Lemma code_inj (x y : ascii) : code x = code y → x = y.
Proof.
  unfold code. intros H.
  rewrite <- (ascii_nat_embedding x), <- (ascii_nat_embedding y). by rewrite H.
Qed.

#[global] Instance str_le_total : Total str_le.
Proof.
  intros a. unfold str_le. induction a as [|x a IH]; intros b; [by left|].
  destruct b as [|y b]; [by right|]. simpl.
  destruct (Nat.ltb_spec (code x) (code y)); [by left|].
  destruct (Nat.ltb_spec (code y) (code x)); [by right|].
  apply IH.
Qed.

#[global] Instance str_le_antisymm : AntiSymm (=) str_le.
Proof.
  intros a. unfold str_le. induction a as [|x a IH]; intros b Hab Hba.
  - by destruct b.
  - destruct b as [|y b]; [done|]. simpl in *.
    destruct (Nat.ltb_spec (code x) (code y)), (Nat.ltb_spec (code y) (code x));
      try done; try lia.
    f_equal; [apply code_inj; lia|by apply IH].
Qed.

#[global] Instance str_le_trans : Transitive str_le.
Proof.
  intros a. unfold str_le. induction a as [|x a IH]; intros b c Hab Hbc; [done|].
  destruct b as [|y b]; [done|]. destruct c as [|z c]; [done|]. simpl in *.
  destruct (Nat.ltb_spec (code x) (code y)), (Nat.ltb_spec (code y) (code x)),
    (Nat.ltb_spec (code y) (code z)), (Nat.ltb_spec (code z) (code y)),
    (Nat.ltb_spec (code x) (code z)), (Nat.ltb_spec (code z) (code x));
    try done; try lia.
  by eapply IH.
Qed.

(** Sorting forgets the order in which a set was enumerated. *)
Lemma sorted_enumeration (l1 l2 : list str) :
  l1 ≡ₚ l2 → MetadataExtractor.sorted l1 = MetadataExtractor.sorted l2.
Proof.
  intros Hp. unfold MetadataExtractor.sorted.
  apply (Sorted_unique str_le); [apply Sorted_merge_sort, _..|].
  by rewrite !merge_sort_Permutation.
Qed.

(** ** Tokenizer adapter *)

(** C8: [count_tokens] never raises: every call returns, and it returns
    the estimate [len(text) // 4] when the text is longer than 50,000
    characters or the tokenizer raises, and the exact number of tokens
    otherwise. *)
Theorem count_tokens_never_raises (encode : str → option (list nat)) (text : str) :
  count_tokens_run encode text = Returns (count_tokens encode text)
  ∧ (50000 < len text → count_tokens encode text = len text / 4)
  ∧ (encode text = None → count_tokens encode text = len text / 4)
  ∧ (∀ tokens, len text ≤ 50000 → encode text = Some tokens →
       count_tokens encode text = Z.of_nat (length tokens)).
Proof.
  unfold count_tokens_run, count_tokens, try_except.
  split_and!.
  - case_bool_decide; [done|]. by destruct (encode text).
  - intros H. by rewrite bool_decide_true.
  - intros ->. by case_bool_decide.
  - intros tokens H ->. by rewrite bool_decide_false by lia.
Qed.

Lemma count_tokens_never_raises_witness :
  count_tokens_run word_encode (lit "two words") = Returns 2
  ∧ count_tokens failing_encode (lit "two words") = 2.
Proof.
  destruct (count_tokens_never_raises word_encode (lit "two words"))
    as (Hrun & _ & _ & Hexact).
  destruct (count_tokens_never_raises failing_encode (lit "two words"))
    as (_ & _ & Hfail & _).
  split.
  - rewrite Hrun, (Hexact (seq 0 2)); done.
  - by rewrite Hfail.
Defined.

Lemma count_tokens_nonneg (encode : str → option (list nat)) (text : str) :
  0 ≤ count_tokens encode text.
Proof.
  unfold count_tokens. pose proof (len_nonneg text).
  case_bool_decide; [apply Z.div_pos; lia|].
  destruct (encode text); [lia|apply Z.div_pos; lia].
Qed.

(** ** Metadata extraction *)

Section cache_facts.
Context (re_compile : str → regex) (evict : re_cache → re_cache).
Hypothesis compiles_title : re_compile title_source = MetadataExtractor.TITLE_PATTERN.
Hypothesis compiles_filename_year :
  re_compile filename_year_source = MetadataExtractor.FILENAME_YEAR_PATTERN.
Hypothesis evict_drops : ∀ cache, evict cache ⊆ cache.

Lemma re_cached_spec (cache : re_cache) (source : str) :
  cache_consistent re_compile cache →
  (re_cached re_compile evict cache source).1 = re_compile source
  ∧ cache_consistent re_compile (re_cached re_compile evict cache source).2.
Proof using evict_drops.
  intros Hc. unfold re_cached.
  destruct (cache !! source) as [r|] eqn:Hl; simpl.
  - split; [by apply Hc|done].
  - split; [done|]. intros s r Hs.
    apply lookup_insert_Some in Hs as [[<- <-]|[_ Hs]]; [done|].
    apply Hc. by eapply lookup_weaken; [|apply evict_drops].
Qed.

Lemma scan_title_lines_run_spec (cache : re_cache) (lines : list str) :
  cache_consistent re_compile cache →
  (scan_title_lines_run re_compile evict cache lines).1
    = MetadataExtractor.scan_title_lines lines
  ∧ cache_consistent re_compile (scan_title_lines_run re_compile evict cache lines).2.
Proof using compiles_title evict_drops.
  intros Hc. induction lines as [|line0 rest IH]; [done|].
  simpl.
  repeat (match goal with
          | |- context [if ?b then _ else _] => destruct b eqn:?
          end; simpl; try done).
  destruct (re_cached_spec cache title_source Hc) as [Hr Hc'].
  destruct (re_cached re_compile evict cache title_source) as [r cache'].
  simpl in *. by rewrite Hr, compiles_title.
Qed.

Lemma extract_regulation_name_run_spec (cache : re_cache) (first_paragraph st : str) :
  cache_consistent re_compile cache →
  (extract_regulation_name_run re_compile evict cache first_paragraph st).1
    = MetadataExtractor.extract_regulation_name first_paragraph st
  ∧ cache_consistent re_compile
      (extract_regulation_name_run re_compile evict cache first_paragraph st).2.
Proof using compiles_title evict_drops.
  intros Hc.
  unfold extract_regulation_name_run, MetadataExtractor.extract_regulation_name.
  case_bool_decide; [|done].
  destruct (scan_title_lines_run_spec cache
              (take 15 (split_on newline (take 800 first_paragraph))) Hc) as [Hn Hc'].
  destruct (scan_title_lines_run re_compile evict cache _) as [national cache'].
  simpl in *. by rewrite Hn.
Qed.

Lemma extract_year_run_spec (cache : re_cache) (text filename : str) :
  cache_consistent re_compile cache →
  (extract_year_run re_compile evict cache text filename).1
    = MetadataExtractor.extract_year text filename
  ∧ cache_consistent re_compile
      (extract_year_run re_compile evict cache text filename).2.
Proof using compiles_filename_year evict_drops.
  intros Hc. unfold extract_year_run, MetadataExtractor.extract_year.
  destruct (findall1 false MetadataExtractor.YEAR_PATTERN text); [|done].
  destruct filename as [|x filename]; [done|].
  destruct (re_cached_spec cache filename_year_source Hc) as [Hr Hc'].
  destruct (re_cached re_compile evict cache filename_year_source) as [r cache'].
  simpl in *. by rewrite Hr, compiles_filename_year.
Qed.

Lemma extraction_run_in_spec (cache cache' : re_cache) (doc : DocumentInfo)
    (first_text : str) (r : str * option Z * str * list str) :
  cache_consistent re_compile cache →
  extraction_run_in re_compile evict cache doc first_text r cache' →
  r = (MetadataExtractor.extract_regulation_name first_text (source_type doc),
       MetadataExtractor.extract_year first_text (filename doc),
       MetadataExtractor.extract_doc_type first_text (source_type doc),
       MetadataExtractor.extract_regulation_refs (full_text doc))
  ∧ cache_consistent re_compile cache'.
Proof using compiles_title compiles_filename_year evict_drops.
  intros Hc. unfold extraction_run_in.
  destruct (extract_regulation_name_run_spec cache first_text (source_type doc) Hc)
    as [Hn Hc1].
  destruct (extract_regulation_name_run re_compile evict cache first_text
              (source_type doc)) as [name cache1].
  simpl in Hn, Hc1.
  destruct (extract_year_run_spec cache1 first_text (filename doc) Hc1) as [Hy Hc2].
  destruct (extract_year_run re_compile evict cache1 first_text (filename doc))
    as [year cache2].
  simpl in Hy, Hc2.
  destruct r as [[[n y] t] refs]. simpl.
  intros (-> & -> & -> & (l & Hl & ->) & ->).
  split; [|done]. rewrite Hn, Hy. do 3 f_equal.
  by apply sorted_enumeration.
Qed.
End cache_facts.

Lemma cache_consistent_empty (re_compile : str → regex) :
  cache_consistent re_compile ∅.
Proof. intros s r Hs. by apply lookup_empty_Some in Hs. Qed.

Lemma extraction_run_in_intro (re_compile : str → regex)
    (evict : re_cache → re_cache) (cache : re_cache) (doc : DocumentInfo)
    (first_text : str) (l : list str) (name : str * re_cache)
    (year : option Z * re_cache) :
  MetadataExtractor.enumerates (MetadataExtractor.ref_set (full_text doc)) l →
  name = extract_regulation_name_run re_compile evict cache first_text
           (source_type doc) →
  year = extract_year_run re_compile evict name.2 first_text (filename doc) →
  extraction_run_in re_compile evict cache doc first_text
    (name.1, year.1, MetadataExtractor.extract_doc_type first_text (source_type doc),
     MetadataExtractor.sorted l)
    year.2.
Proof.
  intros Hl -> ->. unfold extraction_run_in.
  destruct (extract_regulation_name_run re_compile evict cache first_text
              (source_type doc)) as [name cache1]. simpl.
  destruct (extract_year_run re_compile evict cache1 first_text (filename doc))
    as [year cache2]. simpl.
  split_and!; [done..| |done]. by exists l.
Qed.

(** C9: the one piece of interpreter state that the extractions read
    and write is the pattern cache of [re], and the one choice they leave
    open is the order in which the set of references is listed. Two runs
    on the same document, each from a cache whose entries are compiled
    from their texts (the second, say, from the cache that the first
    left), return the same regulation_name, year, doc_type and
    regulation_refs, whatever the caches hold and whatever the order of
    listing: the values are those of the functions of the arguments
    alone; and a run leaves the cache consistent. *)
Theorem metadata_extraction_deterministic (re_compile : str → regex)
    (evict : re_cache → re_cache) (doc : DocumentInfo) (first_text : str)
    (cache1 cache1' cache2 cache2' : re_cache)
    (r1 r2 : str * option Z * str * list str) :
  re_compile title_source = MetadataExtractor.TITLE_PATTERN →
  re_compile filename_year_source = MetadataExtractor.FILENAME_YEAR_PATTERN →
  (∀ cache, evict cache ⊆ cache) →
  cache_consistent re_compile cache1 →
  cache_consistent re_compile cache2 →
  extraction_run_in re_compile evict cache1 doc first_text r1 cache1' →
  extraction_run_in re_compile evict cache2 doc first_text r2 cache2' →
  r1 = r2
  ∧ r1 = (MetadataExtractor.extract_regulation_name first_text (source_type doc),
          MetadataExtractor.extract_year first_text (filename doc),
          MetadataExtractor.extract_doc_type first_text (source_type doc),
          MetadataExtractor.extract_regulation_refs (full_text doc))
  ∧ cache_consistent re_compile cache1'
  ∧ cache_consistent re_compile cache2'.
Proof.
  intros Ht Hf He Hc1 Hc2 H1 H2.
  destruct (extraction_run_in_spec re_compile evict Ht Hf He _ _ _ _ _ Hc1 H1)
    as [-> Hc1'].
  destruct (extraction_run_in_spec re_compile evict Ht Hf He _ _ _ _ _ Hc2 H2)
    as [-> Hc2'].
  done.
Qed.

Lemma metadata_extraction_deterministic_witness :
  let first := join nl (paragraphs credit_act) in
  let refs1 := [lit "EU No 5/1234"; lit "EC No 4321/7"] in
  let refs2 := [lit "EC No 4321/7"; lit "EU No 5/1234"] in
  ∃ r1 r2 cache1 cache2,
    extraction_run_in sample_compile id ∅ credit_act first r1 cache1
    ∧ extraction_run_in sample_compile id cache1 credit_act first r2 cache2
    ∧ r1.2 = MetadataExtractor.sorted refs1
    ∧ r2.2 = MetadataExtractor.sorted refs2
    ∧ cache1 !! title_source = Some MetadataExtractor.TITLE_PATTERN
    ∧ cache1 !! filename_year_source = Some MetadataExtractor.FILENAME_YEAR_PATTERN
    ∧ r1 = r2
    ∧ r1 = (lit "Act on Credit Institutions (610) (unofficial)", Some 20, lit "Act",
            [lit "EC No 4321/7"; lit "EU No 5/1234"]).
Proof.
  intros first refs1 refs2.
  assert (Hel : elements (MetadataExtractor.ref_set (full_text credit_act)) = refs2)
    by (by vm_compute).
  assert (Hl1 : MetadataExtractor.enumerates
                  (MetadataExtractor.ref_set (full_text credit_act)) refs1).
  { unfold MetadataExtractor.enumerates. rewrite Hel. apply Permutation_swap. }
  assert (Hl2 : MetadataExtractor.enumerates
                  (MetadataExtractor.ref_set (full_text credit_act)) refs2).
  { unfold MetadataExtractor.enumerates. by rewrite Hel. }
  pose (n1 := extract_regulation_name_run sample_compile id ∅ first
                (source_type credit_act)).
  pose (y1 := extract_year_run sample_compile id n1.2 first (filename credit_act)).
  pose (n2 := extract_regulation_name_run sample_compile id y1.2 first
                (source_type credit_act)).
  pose (y2 := extract_year_run sample_compile id n2.2 first (filename credit_act)).
  pose (t := MetadataExtractor.extract_doc_type first (source_type credit_act)).
  pose (r1 := (n1.1, y1.1, t, MetadataExtractor.sorted refs1)).
  pose (r2 := (n2.1, y2.1, t, MetadataExtractor.sorted refs2)).
  pose proof (extraction_run_in_intro sample_compile id ∅ credit_act first refs1
                n1 y1 Hl1 eq_refl eq_refl) as H1.
  pose proof (extraction_run_in_intro sample_compile id y1.2 credit_act first refs2
                n2 y2 Hl2 eq_refl eq_refl) as H2.
  pose proof (cache_consistent_empty sample_compile) as Hc0.
  assert (Ht : sample_compile title_source = MetadataExtractor.TITLE_PATTERN)
    by (by vm_compute).
  assert (Hf : sample_compile filename_year_source
               = MetadataExtractor.FILENAME_YEAR_PATTERN) by (by vm_compute).
  assert (He : ∀ cache : re_cache, id cache ⊆ cache) by (intros cache; reflexivity).
  destruct (metadata_extraction_deterministic sample_compile id credit_act first
              ∅ y1.2 ∅ y1.2 r1 r1 Ht Hf He Hc0 Hc0 H1 H1)
    as (_ & _ & Hc1 & _).
  destruct (metadata_extraction_deterministic sample_compile id credit_act first
              ∅ y1.2 y1.2 y2.2 r1 r2 Ht Hf He Hc0 Hc1 H1 H2)
    as (Heq & Hval & _).
  exists r1, r2, y1.2, y2.2.
  split; [exact H1|]. split; [exact H2|].
  split; [reflexivity|]. split; [reflexivity|].
  split; [by vm_compute|]. split; [by vm_compute|].
  split; [exact Heq|].
  etrans; [exact Hval|]. by vm_compute.
Defined.

(** C7: on a text that holds a year, [extract_year] returns the largest
    one; the fall-back on the file name returns the century digits that
    the group of its pattern captures, not the year, and finds nothing
    in the file name of the source's own comment. *)
Theorem extract_year_filename_fallback :
  MetadataExtractor.extract_year
    (lit "Directive 95/46/EC of 1995 is repealed by Regulation (EU) 2016/679") (lit "")
    = Some 2016
  ∧ MetadataExtractor.extract_year (lit "General provisions") (lit "act-2017.di.json")
    = Some 20
  ∧ MetadataExtractor.extract_year (lit "General provisions") (lit "444_2017.di.json")
    = None.
Proof. by vm_compute. Qed.

(** ** The chunker's loop *)

Section chunker_facts.
Context (encode : str → option (list nat)) (cfg : Config).
Context (doc : DocumentInfo) (md : doc_metadata).


Lemma buffer_chunk_fields (st : state) :
  Chunk.chunk_type (buffer_chunk encode doc md st) = current_chunk_type st
  ∧ Chunk.article_number (buffer_chunk encode doc md st) = current_article st
  ∧ Chunk.chunk_id (buffer_chunk encode doc md st) = Z.of_nat (length (chunks st))
  ∧ Chunk.char_start (buffer_chunk encode doc md st) = char_offset st
  ∧ Chunk.full_text (buffer_chunk encode doc md st) = (chunk_text_of md st).1
  ∧ Chunk.paragraph_indices (buffer_chunk encode doc md st)
    = para_indices_from (chunk_text_of md st).2 (current_chunk_paras st)
  ∧ Chunk.char_end (buffer_chunk encode doc md st)
    = char_offset st + len (chunk_text_of md st).1
  ∧ Chunk.token_count (buffer_chunk encode doc md st)
    = count_tokens encode (chunk_text_of md st).1.
Proof.
  unfold buffer_chunk. by destruct (chunk_text_of md st).
Qed.

Lemma emit_spec (st st' : state) :
  emit encode cfg doc md st = Returns st' →
  chunks st' = chunks st ++ [buffer_chunk encode doc md st]
  ∧ current_chunk_type st' = current_chunk_type st
  ∧ current_article st' = current_article st
  ∧ char_offset st' = char_offset st + len (Chunk.full_text (buffer_chunk encode doc md st)) + 1
  ∧ (if cfg_enable_overlap cfg
     then calculate_overlap encode (current_chunk_paras st) (cfg_overlap_tokens cfg)
          = Returns (current_chunk_paras st')
     else current_chunk_paras st' = []).
Proof.
  unfold emit. destruct (cfg_enable_overlap cfg).
  - intros H. apply bind_returns in H as (ov & Hov & H).
    destruct ov; simpl in H; simplify_eq; simpl; by rewrite Hov.
  - simpl. intros H. by simplify_eq.
Qed.

Lemma track_fields (st : state) (t : str) (a : option str) (n : list str) (sp : str) :
  chunks (track st t a n sp) = chunks st
  ∧ current_chunk_paras (track st t a n sp) = current_chunk_paras st ++ [sp]
  ∧ char_offset (track st t a n sp) = char_offset st.
Proof. unfold track. by repeat case_match. Qed.

Lemma track_context (st : state) (t : str) (a : option str) (n : list str) (sp : str) :
  (t = lit "article" ∧ truthy a = true
   ∧ current_chunk_type (track st t a n sp) = lit "article"
   ∧ current_article (track st t a n sp) = a)
  ∨ (¬ (t = lit "article" ∧ truthy a = true)
     ∧ current_article (track st t a n sp) = current_article st
     ∧ ((t = lit "recital" ∧ current_chunk_type (track st t a n sp) = lit "recital")
        ∨ (t = lit "section" ∧ current_chunk_type (track st t a n sp) = lit "section")
        ∨ (t ≠ lit "recital" ∧ t ≠ lit "section"
           ∧ current_chunk_type (track st t a n sp) = current_chunk_type st))).
Proof using Type.
  unfold track.
  destruct (decide (t = lit "article")) as [->|Ht].
  - rewrite (bool_decide_true (lit "article" = lit "article")) by done.
    destruct (truthy a) eqn:Ha; simpl; [by left|].
    right. split; [intros [_ ?]; done|]. split; [done|]. by right; right.
  - rewrite (bool_decide_false (t = lit "article")) by done. simpl.
    right. split; [intros [? _]; done|].
    destruct (decide (t = lit "recital")) as [->|Hr].
    { rewrite (bool_decide_true (lit "recital" = lit "recital")) by done.
      simpl. split; [done|]. by left. }
    rewrite (bool_decide_false (t = lit "recital")) by done.
    destruct (decide (t = lit "section")) as [->|Hs].
    { rewrite (bool_decide_true (lit "section" = lit "section")) by done.
      simpl. split; [done|]. right. by left. }
    rewrite (bool_decide_false (t = lit "section")) by done.
    simpl. split; [done|]. by right; right.
Qed.

Lemma step_sub_spec (t : str) (a : option str) (n : list str) (st st' : state) (sp : str) :
  step_sub encode cfg doc md (t, a, n) st sp = Returns st' →
  ∃ (split : bool) (st1 : state),
    should_split encode cfg st t sp = Returns split
    ∧ (if split then emit encode cfg doc md st = Returns st1 else st1 = st)
    ∧ st' = track st1 t a n sp.
Proof.
  unfold step_sub. intros H.
  apply bind_returns in H as (split & Hs & H).
  apply bind_returns in H as (st1 & H1 & H). simplify_eq.
  exists split, st1. split_and!; [done| |done].
  destruct split; [done|]. by simplify_eq.
Qed.

(** The three ways the last buffer leaves [chunk_document]. *)
Lemma finalize_spec (st : state) (cs : list Chunk.ChunkMetadata) (h : heap) :
  finalize encode cfg doc md st = (cs, h) →
  (current_chunk_paras st = [] ∧ cs = chunks st)
  ∨ (current_chunk_paras st ≠ [] ∧ cs = chunks st ++ [buffer_chunk encode doc md st])
  ∨ (current_chunk_paras st ≠ []
     ∧ ∃ prev,
         last (chunks st) = Some prev
         ∧ merge_orphans cfg = true
         ∧ let chunk_text := Chunk.full_text (buffer_chunk encode doc md st) in
           let merged_text := Chunk.full_text prev ++ nl ++ chunk_text in
           5 * count_tokens encode merged_text ≤ 6 * max_chunk_tokens cfg
           ∧ cs = removelast (chunks st)
                    ++ [merge_into prev st chunk_text merged_text
                          (count_tokens encode merged_text)]).
Proof.
  unfold finalize. intros H.
  destruct (current_chunk_paras st) as [|p ps] eqn:Hp.
  { left. by simplify_eq. }
  right. destruct (last (chunks st)) as [prev|] eqn:Hl; [|left; by simplify_eq].
  destruct (merge_orphans cfg) eqn:Hm; simpl in H; [|left; by simplify_eq].
  case_bool_decide; simpl in H; [|left; by simplify_eq].
  case_bool_decide; [|left; by simplify_eq].
  right. split; [done|]. exists prev. simpl. split_and!; [done..|].
  by simplify_eq.
Qed.

Lemma removelast_last {A} (l : list A) (x : A) :
  last l = Some x → l = removelast l ++ [x].
Proof.
  intros H. destruct (decide (l = [])) as [->|Hne]; [done|].
  rewrite (app_removelast_last x Hne) at 1. f_equal. f_equal.
  rewrite last_lookup in H.
  destruct l as [|y l] using rev_ind; [done|].
  rewrite List.last_last. rewrite length_app in H. simpl in H.
  replace (Nat.pred (length l + 1)) with (length l) in H by lia.
  rewrite lookup_app_r, Nat.sub_diag in H by lia. simpl in H. by simplify_eq.
Qed.

Lemma should_split_nonempty (st : state) (t sp : str) :
  should_split encode cfg st t sp = Returns true → current_chunk_paras st ≠ [].
Proof. unfold should_split. by destruct (current_chunk_paras st). Qed.

Lemma buffer_chunk_text_later (st : state) :
  chunks st ≠ [] →
  Chunk.full_text (buffer_chunk encode doc md st) = join nl (current_chunk_paras st).
Proof.
  intros Hne. destruct (buffer_chunk_fields st) as (_ & _ & _ & _ & -> & _).
  unfold chunk_text_of. by rewrite (bool_decide_false (chunks st = [])).
Qed.

(** A property of chunks that emission establishes and the orphan
    merge keeps holds of every chunk of the document. *)
Lemma chunks_invariant (P : Chunk.ChunkMetadata → Prop) (Q : state → Prop)
    (paras : list str) (cs : list Chunk.ChunkMetadata) (h : heap) (st : state) :
  Q initial_state →
  (∀ s, Q s → current_chunk_paras s ≠ [] → P (buffer_chunk encode doc md s)) →
  (∀ s s', Q s → emit encode cfg doc md s = Returns s' → Q s') →
  (∀ p s t a n sp, p ∈ paras → detect_boundary cfg p = (t, a, n) →
     Q s → Q (track s t a n sp)) →
  (∀ prev s, P prev → Q s → current_chunk_paras s ≠ [] → chunks s ≠ [] →
     let t := join nl (current_chunk_paras s) in
     let mt := Chunk.full_text prev ++ nl ++ t in
     5 * count_tokens encode mt ≤ 6 * max_chunk_tokens cfg →
     P (merge_into prev s t mt (count_tokens encode mt))) →
  for_each (step_para encode cfg doc md) initial_state paras = Returns st →
  finalize encode cfg doc md st = (cs, h) →
  Forall P cs ∧ Q st.
Proof.
  intros Hinit Hbuf Hemit Htrack Hmerge Hrun Hfin.
  assert (Hst : Forall P (chunks st) ∧ Q st).
  { apply (for_each_invariant (λ s, Forall P (chunks s) ∧ Q s)
             (step_para encode cfg doc md) paras initial_state st);
      [|split; [constructor|exact Hinit]|exact Hrun].
    intros s p s' Hp HPs. unfold step_para.
    destruct (detect_boundary cfg p) as [[t a] n] eqn:Hd.
    apply (for_each_invariant (λ s, Forall P (chunks s) ∧ Q s)); [|exact HPs].
    intros s1 sp s2 _ [HF HQ] Hstep.
    apply step_sub_spec in Hstep as (split & s3 & Hsplit & Hs3 & ->).
    destruct (track_fields s3 t a n sp) as (-> & _).
    destruct split; [|subst s3; split; [done|by eapply Htrack]].
    pose proof (Hemit _ _ HQ Hs3) as HQ3.
    apply emit_spec in Hs3 as (-> & _).
    split; [|by eapply Htrack].
    apply Forall_app. split; [done|]. apply Forall_singleton.
    apply Hbuf; [done|]. by eapply should_split_nonempty. }
  destruct Hst as [HF HQ]. split; [|done].
  apply finalize_spec in Hfin
    as [[_ ->]|[[Hne ->]|[Hne (prev & Hl & _ & Hle & ->)]]]; [done| |].
  - apply Forall_app. split; [done|]. apply Forall_singleton. by apply Hbuf.
  - assert (Hcs : chunks st ≠ []) by (by destruct (chunks st)).
    rewrite (buffer_chunk_text_later st Hcs) in *.
    apply removelast_last in Hl. rewrite Hl in HF.
    apply Forall_app in HF as [HF1 HF2]. apply Forall_inv in HF2.
    apply Forall_app. split; [done|]. apply Forall_singleton. by apply Hmerge.
Qed.
End chunker_facts.


Lemma chunk_document_returns (encode : str → option (list nat)) (cfg : Config)
    (doc : DocumentInfo) (cs : list Chunk.ChunkMetadata) (h : heap) :
  chunk_document encode cfg doc = Returns (cs, h) →
  ∃ first_text st,
    first_text_of doc = Returns first_text
    ∧ run_paragraphs encode cfg doc (document_metadata doc first_text) (paragraphs doc)
      = Returns st
    ∧ finalize encode cfg doc (document_metadata doc first_text) st = (cs, h).
Proof.
  unfold chunk_document. intros H.
  apply bind_returns in H as (ft & Hft & H).
  apply bind_returns in H as (st & Hst & H).
  exists ft, st. split_and!; [done..|]. by simplify_eq.
Qed.

(** ** Structural context *)

(** C10: a Finnish section paragraph is classified with its number in
    the article-number slot, yet in a document without a paragraph
    classified as article every chunk has no article number. *)
Theorem section_numbers_never_reach_chunks (encode : str → option (list nat))
    (cfg : Config) (doc : DocumentInfo) (cs : list Chunk.ChunkMetadata) (h : heap) :
  (∀ p, p ∈ paragraphs doc → (detect_boundary cfg p).1.1 ≠ lit "article") →
  chunk_document encode cfg doc = Returns (cs, h) →
  detect_boundary cfg (lit "1 " ++ [section_sign] ++ lit " Scope of application")
    = (lit "section", Some (lit "1 " ++ [section_sign]), [])
  ∧ Forall (λ c, Chunk.article_number c = None) cs.
Proof.
  intros Hno Hrun. split; [by vm_compute|].
  apply chunk_document_returns in Hrun as (ft & st & _ & Hst & Hfin).
  eapply (chunks_invariant encode cfg doc _
            (λ c, Chunk.article_number c = None) (λ s, current_article s = None));
    [done| | | | |exact Hst|exact Hfin].
  - intros s Hs _. by destruct (buffer_chunk_fields encode doc
      (document_metadata doc ft) s) as (_ & -> & _).
  - intros s s' Hs He. apply emit_spec in He as (_ & _ & -> & _). done.
  - intros p s t a n sp Hp Hd Hs. specialize (Hno p Hp). rewrite Hd in Hno.
    destruct (track_context s t a n sp) as [(-> & _)|(_ & -> & _)]; done.
  - intros prev s Hprev _ _ _ t mt _. done.
Qed.

Lemma section_numbers_never_reach_chunks_witness :
  let cfg := sample_config 10 0 20 false 0 None in
  let doc := make_doc "act.json"
    [lit "1 " ++ [section_sign] ++ lit " Scope of application.";
     lit "2 " ++ [section_sign] ++ lit " Definitions."] in
  ∃ c1 c2 h,
    chunk_document word_encode cfg doc = Returns ([c1; c2], h)
    ∧ Chunk.chunk_type c2 = lit "section"
    ∧ Forall (λ c, Chunk.article_number c = None) [c1; c2].
Proof.
  intros cfg doc.
  destruct (chunk_document word_encode cfg doc) as [[cs h]|] eqn:Hrun;
    [|by vm_compute in Hrun].
  assert (Hno : ∀ p, p ∈ paragraphs doc → (detect_boundary cfg p).1.1 ≠ lit "article").
  { intros p Hp. simpl in Hp.
    repeat (apply elem_of_cons in Hp as [->|Hp]); [by vm_compute..|].
    by apply elem_of_nil in Hp. }
  pose proof (section_numbers_never_reach_chunks word_encode cfg doc cs h Hno Hrun)
    as [_ Hall].
  vm_compute in Hrun. injection Hrun as <- <-.
  eexists _, _, _. split_and!; [reflexivity|by vm_compute|exact Hall].
Defined.

(** ** Reconstruction of the paragraphs *)

Section reconstruction.
Context (encode : str → option (list nat)) (cfg : Config).
Context (doc : DocumentInfo) (md : doc_metadata).

Lemma reconstructs_paragraphs (c : Chunk.ChunkMetadata) (ps : list str) :
  reconstructs md c ps → chunk_paragraphs c = ps.
Proof.
  intros (_ & Hsl & _). specialize (Hsl []). unfold chunk_paragraphs.
  by rewrite app_nil_r in Hsl.
Qed.

Lemma buffer_chunk_reconstructs (st : state) :
  current_chunk_paras st ≠ [] →
  reconstructs md (buffer_chunk encode doc md st) (current_chunk_paras st).
Proof using Type.
  intros Hne. split; [done|].
  destruct (buffer_chunk_fields encode doc md st)
    as (_ & _ & Hid & _ & Htext & Hidx & _).
  unfold header_prefix. rewrite Htext, Hidx, Hid. unfold chunk_text_of.
  destruct (decide (chunks st = [])) as [He|He].
  - rewrite (bool_decide_true (chunks st = [])) by done.
    rewrite He. simpl length. rewrite (bool_decide_true (Z.of_nat 0 = 0)) by done.
    case_bool_decide; simpl.
    + split; [|by rewrite <- !app_assoc].
      intros post.
      pose proof (slices_para_indices (current_chunk_paras st)
                    (md_doc_header md ++ nl ++ nl) post) as Hsl.
      rewrite !len_app in Hsl. change (len nl) with 1 in Hsl.
      replace (len (md_doc_header md) + (1 + 1)) with (len (md_doc_header md) + 2)
        in Hsl by lia.
      etrans; [|exact Hsl]. apply map_ext. intros se. by rewrite <- !app_assoc.
    + split; [|done]. intros post.
      apply (slices_para_indices (current_chunk_paras st) [] post).
  - rewrite (bool_decide_false (chunks st = [])) by done.
    rewrite (bool_decide_false (Z.of_nat (length (chunks st)) = 0))
      by (destruct (chunks st); simpl; [done|lia]).
    simpl. split; [|done]. intros post.
    apply (slices_para_indices (current_chunk_paras st) [] post).
Qed.

Lemma merge_reconstructs (prev : Chunk.ChunkMetadata) (ps : list str) (st : state)
    (n : Z) :
  reconstructs md prev ps →
  current_chunk_paras st ≠ [] →
  reconstructs md
    (merge_into prev st (join nl (current_chunk_paras st))
       (Chunk.full_text prev ++ nl ++ join nl (current_chunk_paras st)) n)
    (ps ++ current_chunk_paras st).
Proof using Type.
  intros (Hps & Hidx & Htext) Hne. split; [by destruct ps|]. simpl. split.
  - intros post. rewrite map_app. f_equal.
    + etrans; [|exact (Hidx (nl ++ join nl (current_chunk_paras st) ++ post))].
      apply map_ext. intros se. by rewrite <- !app_assoc.
    + pose proof (slices_para_indices (current_chunk_paras st)
                    (Chunk.full_text prev ++ nl) post) as Hsl.
      rewrite len_app in Hsl. change (len nl) with 1 in Hsl.
      etrans; [|exact Hsl]. apply map_ext. intros se. by rewrite <- !app_assoc.
  - unfold header_prefix in *. simpl. rewrite Htext at 1.
    rewrite join_app by done. by rewrite <- !app_assoc.
Qed.

Lemma chunks_reconstruct (paras : list str) (st : state)
    (cs : list Chunk.ChunkMetadata) (h : heap) :
  for_each (step_para encode cfg doc md) initial_state paras = Returns st →
  finalize encode cfg doc md st = (cs, h) →
  Forall (λ c, ∃ ps, made_from encode doc md c ps ∧ reconstructs md c ps) cs.
Proof.
  intros Hrun Hfin.
  eapply (chunks_invariant encode cfg doc md _ (λ _, True));
    [done| | | | |exact Hrun|exact Hfin]; try done.
  - intros s _ Hne. exists (current_chunk_paras s).
    split; [by constructor|by apply buffer_chunk_reconstructs].
  - intros prev s (ps & Hm & Hr) _ Hne Hcs t mt _.
    exists (ps ++ current_chunk_paras s).
    split; [by constructor|by apply merge_reconstructs].
Qed.
End reconstruction.

(** ** No paragraph is lost *)

Section no_loss.
Context (encode : str → option (list nat)) (cfg : Config).
Context (doc : DocumentInfo) (md : doc_metadata).
Hypothesis no_overlap : cfg_enable_overlap cfg = false.

Lemma all_chunk_paragraphs_snoc (cs : list Chunk.ChunkMetadata) (c : Chunk.ChunkMetadata) :
  all_chunk_paragraphs (cs ++ [c]) = all_chunk_paragraphs cs ++ chunk_paragraphs c.
Proof using Type.
  unfold all_chunk_paragraphs. rewrite map_app, concat_app. simpl.
  by rewrite app_nil_r.
Qed.

Lemma step_sub_holds_read (kind : str * option str * list str) (st st' : state)
    (sp : str) (read : list str) :
  holds_read md st read →
  step_sub encode cfg doc md kind st sp = Returns st' →
  holds_read md st' (read ++ [sp]).
Proof using no_overlap.
  destruct kind as [[t a] n]. intros [HF Hread] Hstep.
  apply step_sub_spec in Hstep as (split & s1 & Hsplit & Hs1 & ->).
  destruct (track_fields s1 t a n sp) as (Hc & Hp & _).
  unfold holds_read. rewrite Hc, Hp.
  destruct split.
  - apply should_split_nonempty in Hsplit.
    apply emit_spec in Hs1 as (Hcs & _ & _ & _ & Hov).
    rewrite no_overlap in Hov. rewrite Hcs, Hov.
    pose proof (buffer_chunk_reconstructs encode doc md st Hsplit) as Hr.
    split.
    + apply Forall_app. split; [done|]. apply Forall_singleton. by eexists.
    + rewrite all_chunk_paragraphs_snoc.
      rewrite (reconstructs_paragraphs md _ _ Hr). simpl.
      by rewrite <- Hread, <- app_assoc.
  - subst s1. split; [done|]. by rewrite <- Hread, <- app_assoc.
Qed.

Lemma concat_singletons {A} (l : list A) : concat (map (λ x, [x]) l) = l.
Proof. induction l as [|x l IH]; [done|]. simpl. by rewrite IH. Qed.

Lemma run_holds_read (paras : list str) (st : state) :
  for_each (step_para encode cfg doc md) initial_state paras = Returns st →
  holds_read md st (concat (map (sub_paras_of encode cfg) paras)).
Proof using no_overlap.
  intros Hrun.
  apply (for_each_history (holds_read md) (sub_paras_of encode cfg)
           (step_para encode cfg doc md) paras initial_state st []);
    [|by split; [constructor|]|done].
  intros s p s' read _ Hs Hp. unfold step_para in Hp.
  pose proof (for_each_history (holds_read md) (λ sp, [sp])
                (step_sub encode cfg doc md (detect_boundary cfg p))
                (sub_paras_of encode cfg p) s s' read) as Hinner.
  rewrite concat_singletons in Hinner. apply Hinner; [|done..].
  intros s1 sp s2 r _. apply step_sub_holds_read.
Qed.

Lemma finalize_holds_read (st : state) (read : list str)
    (cs : list Chunk.ChunkMetadata) (h : heap) :
  holds_read md st read →
  finalize encode cfg doc md st = (cs, h) →
  all_chunk_paragraphs cs = read.
Proof using Type.
  intros [HF Hread] Hfin.
  apply finalize_spec in Hfin
    as [[Hnil ->]|[[Hne ->]|[Hne (prev & Hl & _ & _ & ->)]]].
  - by rewrite Hnil, app_nil_r in Hread.
  - rewrite all_chunk_paragraphs_snoc.
    pose proof (buffer_chunk_reconstructs encode doc md st Hne) as Hr.
    by rewrite (reconstructs_paragraphs md _ _ Hr).
  - assert (Hcs : chunks st ≠ []) by (by destruct (chunks st)).
    rewrite (buffer_chunk_text_later encode doc md st Hcs).
    apply removelast_last in Hl. rewrite Hl in HF, Hread.
    apply Forall_app in HF as [_ HF]. apply Forall_inv in HF as (ps & Hr).
    rewrite !all_chunk_paragraphs_snoc in *.
    pose proof (merge_reconstructs md prev ps st
                  (count_tokens encode
                     (Chunk.full_text prev ++ nl ++ join nl (current_chunk_paras st)))
                  Hr Hne) as Hm.
    rewrite (reconstructs_paragraphs md _ _ Hm).
    rewrite (reconstructs_paragraphs md _ _ Hr) in Hread.
    by rewrite app_assoc.
Qed.
End no_loss.

Lemma sub_paras_whole (encode : str → option (list nat)) (cfg : Config)
    (paras : list str) :
  (∀ p, p ∈ paras → count_tokens encode p ≤ cfg_max_para_tokens cfg) →
  concat (map (sub_paras_of encode cfg) paras) = paras.
Proof.
  induction paras as [|p paras IH]; intros Hsmall; [done|].
  simpl. rewrite IH by (intros q Hq; apply Hsmall; by right).
  unfold sub_paras_of. rewrite bool_decide_false; [done|].
  specialize (Hsmall p). ospecialize (Hsmall _); [by left|]. lia.
Qed.

(** ** The history of a run *)

Lemma for_each_observed {S H A} (state_of : H → S) (body : S → A → outcome S)
    (body' : H → A → outcome H) (l : list A) (hs : H) (st : S) :
  (∀ h x s', body (state_of h) x = Returns s' →
     ∃ h', body' h x = Returns h' ∧ state_of h' = s') →
  for_each body (state_of hs) l = Returns st →
  ∃ hs', for_each body' hs l = Returns hs' ∧ state_of hs' = st.
Proof.
  intros Hbody. revert hs. induction l as [|x l IH]; intros hs Hrun.
  - simpl in *. simplify_eq. by exists hs.
  - simpl in Hrun. apply bind_returns in Hrun as (s1 & Hb & Hrun).
    destruct (Hbody _ _ _ Hb) as (h1 & Hh1 & <-).
    destruct (IH _ Hrun) as (hs' & Hhs' & <-).
    exists hs'. split; [|done]. simpl. by rewrite Hh1.
Qed.

Lemma seeds_follow_snoc (encode : str → option (list nat)) (cfg : Config)
    (previous : option (list str)) (segs : list (list str * list str))
    (s : list str * list str) :
  seeds_follow encode cfg previous (segs ++ [s])
  ↔ seeds_follow encode cfg previous segs
    ∧ seeded_from encode cfg (from_option (λ t, Some t.2) previous (last segs)) s.1.
Proof.
  revert previous. induction segs as [|t segs IH]; intros previous.
  - simpl. tauto.
  - cbn [seeds_follow app]. rewrite IH.
    assert (Hl : from_option (λ t0 : list str * list str, Some t0.2) (Some t.2)
                   (last segs)
                 = from_option (λ t0 : list str * list str, Some t0.2) previous
                     (last (t :: segs))).
    { destruct segs as [|u segs]; [done|]. rewrite last_cons_cons.
      by destruct (last (u :: segs)) eqn:Hl; [|apply last_None in Hl]. }
    rewrite Hl. tauto.
Qed.

Lemma seeds_empty (encode : str → option (list nat)) (cfg : Config)
    (previous : option (list str)) (segs : list (list str * list str)) :
  cfg_enable_overlap cfg = false →
  seeds_follow encode cfg previous segs →
  Forall (λ s, s.1 = []) segs.
Proof.
  intros Hno. revert previous. induction segs as [|s segs IH]; intros previous Hs.
  - constructor.
  - destruct Hs as [Hs1 Hs2]. constructor; [|by eapply IH].
    unfold seeded_from in Hs1. destruct previous; [by rewrite Hno in Hs1|done].
Qed.

Section history_facts.
Context (encode : str → option (list nat)) (cfg : Config).
Context (doc : DocumentInfo) (md : doc_metadata).

(** One logged iteration either appends the sub-paragraph to the
    buffer or emits the buffer and starts the next from the overlap. *)
Lemma step_sub_logged_spec (kind : str * option str * list str) (hs hs' : history)
    (sp : str) :
  step_sub_logged encode cfg doc md kind hs sp = Returns hs' →
  step_sub encode cfg doc md kind (hs_state hs) sp = Returns (hs_state hs')
  ∧ ((should_split encode cfg (hs_state hs) kind.1.1 sp = Returns false
      ∧ chunks (hs_state hs') = chunks (hs_state hs)
      ∧ current_chunk_paras (hs_state hs') = current_chunk_paras (hs_state hs) ++ [sp]
      ∧ hs_seed hs' = hs_seed hs
      ∧ hs_emitted hs' = hs_emitted hs)
     ∨ (should_split encode cfg (hs_state hs) kind.1.1 sp = Returns true
        ∧ current_chunk_paras (hs_state hs) ≠ []
        ∧ chunks (hs_state hs')
          = chunks (hs_state hs) ++ [buffer_chunk encode doc md (hs_state hs)]
        ∧ current_chunk_paras (hs_state hs') = hs_seed hs' ++ [sp]
        ∧ seeded_from encode cfg (Some (current_chunk_paras (hs_state hs))) (hs_seed hs')
        ∧ hs_emitted hs'
          = hs_emitted hs ++ [(hs_seed hs, current_chunk_paras (hs_state hs))])).
Proof.
  unfold step_sub_logged. intros Hrun.
  apply bind_returns in Hrun as (st' & Hstep & Hobs).
  destruct kind as [[t a] ns]. simpl.
  pose proof Hstep as Hstep'.
  apply step_sub_spec in Hstep' as (split & s1 & Hsplit & Hs1 & ->).
  destruct (track_fields s1 t a ns sp) as (Hch & Hpa & _).
  unfold observe in Hobs. rewrite Hch, Hpa in Hobs.
  destruct split.
  - pose proof (should_split_nonempty _ _ _ _ _ Hsplit) as Hne.
    apply emit_spec in Hs1 as (Hcs & _ & _ & _ & Hov).
    rewrite Hcs, length_app in Hobs. simpl in Hobs.
    rewrite bool_decide_true in Hobs by lia.
    rewrite List.removelast_last in Hobs. simplify_eq. simpl.
    split; [done|]. right. rewrite Hch, Hpa. split_and!; done.
  - subst s1. rewrite bool_decide_false in Hobs by lia. simplify_eq. simpl.
    split; [done|]. left. rewrite Hch, Hpa. split_and!; done.
Qed.

Lemma run_logged_state (paras : list str) (st : state) :
  run_paragraphs encode cfg doc md paras = Returns st →
  ∃ hs, run_logged encode cfg doc md paras = Returns hs ∧ hs_state hs = st.
Proof.
  unfold run_paragraphs, run_logged. intros Hrun.
  apply (for_each_observed hs_state (step_para encode cfg doc md)); [|done].
  intros h p s' Hp. unfold step_para in Hp. unfold step_para_logged.
  apply (for_each_observed hs_state
           (step_sub encode cfg doc md (detect_boundary cfg p))); [|done].
  intros h1 sp s1 Hsp. unfold step_sub_logged. rewrite Hsp. simpl.
  eexists. split; [done|]. unfold observe. by case_bool_decide.
Qed.

Lemma run_logged_invariant (P : history → list str → Prop) (paras : list str)
    (hs : history) :
  P initial_history [] →
  (∀ kind h sp h' read,
     P h read → step_sub_logged encode cfg doc md kind h sp = Returns h' →
     P h' (read ++ [sp])) →
  run_logged encode cfg doc md paras = Returns hs →
  P hs (concat (map (sub_paras_of encode cfg) paras)).
Proof.
  intros Hinit Hstep Hrun.
  apply (for_each_history P (sub_paras_of encode cfg)
           (step_para_logged encode cfg doc md) paras initial_history hs []);
    [|done|done].
  intros s p s' read _ Hs Hp. unfold step_para_logged in Hp.
  pose proof (for_each_history P (λ sp, [sp])
                (step_sub_logged encode cfg doc md (detect_boundary cfg p))
                (sub_paras_of encode cfg p) s s' read) as Hinner.
  rewrite concat_singletons in Hinner. apply Hinner; [|done..].
  intros s1 sp s2 r _. apply Hstep.
Qed.
End history_facts.

Lemma should_keep_together_false (paras : list str) (sp : str) (art : option str) :
  paras ≠ [] →
  should_keep_together paras sp art = Returns false →
  ends_at_sentence_boundary (default [] (last paras)) = Returns true.
Proof.
  intros Hne. unfold should_keep_together.
  destruct (last paras) as [lp|] eqn:Hl.
  - simpl. destruct (ends_at_sentence_boundary lp) as [[]|]; simpl; done.
  - apply last_None in Hl. done.
Qed.

Section logged_run.
Context (encode : str → option (list nat)) (cfg : Config).
Context (doc : DocumentInfo) (md : doc_metadata).

(** With the cohesion rule on, a sub-paragraph joins a buffer that is
    not empty only within the limit. *)
Lemma no_split_within_limit (st : state) (t sp : str) :
  cfg_keep_related cfg = true →
  current_chunk_paras st ≠ [] →
  should_split encode cfg st t sp = Returns false →
  let total := count_tokens encode (join nl (current_chunk_paras st))
               + count_tokens encode sp in
  total ≤ max_chunk_tokens cfg
  ∨ (should_keep_together (current_chunk_paras st) sp (current_article st)
       = Returns true
     ∧ 5 * total ≤ 6 * max_chunk_tokens cfg).
Proof.
  intros Hkeep Hne Hsplit total. subst total.
  unfold should_split in Hsplit. rewrite Hkeep in Hsplit.
  destruct (current_chunk_paras st) as [|p0 ps0] eqn:Hp; [done|].
  rewrite <- Hp in *.
  apply bind_returns in Hsplit as (keep & Hk & Hsplit).
  destruct keep.
  { right. split; [done|]. simplify_eq.
    by apply negb_false_iff, bool_decide_eq_true in Hsplit. }
  left. apply should_keep_together_false in Hk; [|done].
  rewrite Hk in Hsplit.
  repeat (case_bool_decide || case_match); simplify_eq; lia.
Qed.

Lemma no_split_tested (st : state) (t sp : str) :
  cfg_keep_related cfg = true →
  current_chunk_paras st ≠ [] →
  should_split encode cfg st t sp = Returns false →
  5 * (count_tokens encode (join nl (current_chunk_paras st)) + count_tokens encode sp)
  ≤ 6 * max_chunk_tokens cfg.
Proof.
  intros Hkeep Hne Hsplit.
  pose proof (count_tokens_nonneg encode (join nl (current_chunk_paras st))).
  pose proof (count_tokens_nonneg encode sp).
  destruct (no_split_within_limit st t sp Hkeep Hne Hsplit) as [?|[_ ?]]; lia.
Qed.

Lemma admitted_snoc (seed buffer : list str) (sp : str) :
  seed `prefix_of` buffer →
  admitted encode cfg (seed, buffer) →
  (buffer ≠ [] →
   5 * (count_tokens encode (join nl buffer) + count_tokens encode sp)
   ≤ 6 * max_chunk_tokens cfg) →
  admitted encode cfg (seed, buffer ++ [sp]).
Proof.
  intros Hpre Hadm Htest k p Hk Hp. simpl in *.
  apply lookup_app_Some in Hp as [Hp|[Hlen Hp]].
  - rewrite take_app_le by (apply lookup_lt_Some in Hp; lia). by apply Hadm.
  - apply list_lookup_singleton_Some in Hp as [Hz <-].
    assert (k = length buffer) as -> by lia.
    rewrite take_app_length. apply Htest. intros ->. simpl in *. lia.
Qed.

Lemma step_sub_logged_well (kind : str * option str * list str) (hs hs' : history)
    (sp : str) (read : list str) :
  well_logged encode cfg md hs read →
  step_sub_logged encode cfg doc md kind hs sp = Returns hs' →
  well_logged encode cfg md hs' (read ++ [sp]).
Proof.
  intros (Hrec & Hpre & Hread & Hseeds & Hadm) Hstep.
  apply step_sub_logged_spec in Hstep
    as [_ [(Hsplit & Hch & Hpa & Hsd & Hem)|(Hsplit & Hne & Hch & Hpa & Hsd & Hem)]].
  - unfold well_logged, segments in *. rewrite Hch, Hpa, Hsd, Hem.
    apply Forall_app in Hpre as [Hpre1 Hpre2]. apply Forall_inv in Hpre2.
    simpl in Hpre2.
    rewrite map_app, concat_app in Hread. simpl in Hread. rewrite app_nil_r in Hread.
    split_and!.
    + done.
    + apply Forall_app. split; [done|]. apply Forall_singleton. simpl.
      by apply prefix_app_r.
    + rewrite map_app, concat_app. simpl. rewrite app_nil_r.
      unfold read_into in *. simpl in *.
      rewrite drop_app_le by (by apply prefix_length).
      by rewrite app_assoc, Hread.
    + apply seeds_follow_snoc. by apply seeds_follow_snoc in Hseeds.
    + intros Hkeep. specialize (Hadm Hkeep).
      apply Forall_app in Hadm as [Hadm1 Hadm2]. apply Forall_inv in Hadm2.
      apply Forall_app. split; [done|]. apply Forall_singleton.
      apply admitted_snoc; [done..|].
      intros Hne. by apply (no_split_tested _ kind.1.1).
  - unfold well_logged, segments in *. rewrite Hch, Hpa, Hem.
    rewrite map_app, concat_app in Hread. simpl in Hread. rewrite app_nil_r in Hread.
    split_and!.
    + rewrite map_app. apply Forall2_app; [done|]. simpl.
      constructor; [|constructor].
      by apply buffer_chunk_reconstructs.
    + apply Forall_app. split; [done|]. apply Forall_singleton. simpl.
      by apply prefix_app_r.
    + rewrite !map_app, !concat_app. simpl. rewrite !app_nil_r.
      unfold read_into in *. simpl in *.
      rewrite drop_app_length. by rewrite <- Hread.
    + apply seeds_follow_snoc. split; [done|].
      rewrite last_snoc. simpl. done.
    + intros Hkeep. specialize (Hadm Hkeep).
      apply Forall_app. split; [done|]. apply Forall_singleton.
      intros k p Hk Hp. simpl in *. apply lookup_lt_Some in Hp.
      rewrite length_app in Hp. simpl in Hp. lia.
Qed.

Lemma run_well_logged (paras : list str) (hs : history) :
  run_logged encode cfg doc md paras = Returns hs →
  well_logged encode cfg md hs (concat (map (sub_paras_of encode cfg) paras)).
Proof.
  intros Hrun.
  apply (run_logged_invariant encode cfg doc md (well_logged encode cfg md) paras hs);
    [| |done].
  - unfold well_logged, segments. simpl.
    split_and!; try done; try (by apply Forall2_nil_2); try (by apply Forall_singleton).
    intros _. apply Forall_singleton. by intros k p _ Hp.
  - intros kind h sp h' read. apply step_sub_logged_well.
Qed.

(** The chunks of the document against the buffers they were made of. *)
Lemma finalize_chunk_buffers (hs : history) (cs : list Chunk.ChunkMetadata) (h : heap) :
  Forall2 (reconstructs md) (chunks (hs_state hs)) (map snd (hs_emitted hs)) →
  finalize encode cfg doc md (hs_state hs) = (cs, h) →
  Forall2 (reconstructs md) cs (chunk_buffers hs cs).
Proof.
  intros Hrec Hfin. unfold chunk_buffers, merged_last.
  apply finalize_spec in Hfin
    as [[Hnil ->]|[[Hne ->]|[Hne (prev & Hl & _ & _ & ->)]]].
  - rewrite bool_decide_false by (intros [? _]; done). by rewrite Hnil.
  - rewrite bool_decide_false
      by (rewrite length_app; simpl; intros [_ ?]; lia).
    destruct (current_chunk_paras (hs_state hs)) as [|b bs] eqn:Hb; [done|].
    rewrite <- Hb. apply Forall2_app; [done|].
    constructor; [|constructor].
    apply buffer_chunk_reconstructs. by rewrite Hb.
  - assert (Hcs : chunks (hs_state hs) ≠ []) by (by destruct (chunks (hs_state hs))).
    rewrite (buffer_chunk_text_later encode doc md _ Hcs).
    apply removelast_last in Hl.
    set (l := removelast (chunks (hs_state hs))) in *.
    rewrite bool_decide_true
      by (split; [done|]; apply (f_equal length) in Hl;
          rewrite length_app in Hl; rewrite length_app; simpl in *; lia).
    rewrite Hl in Hrec.
    apply Forall2_app_inv_l in Hrec as (bl & bp & Hbl & Hbp & Hbufs).
    apply Forall2_cons_inv_l in Hbp as (b & bn & Hb & Hbn & ->).
    apply Forall2_nil_inv_l in Hbn as ->.
    rewrite Hbufs. rewrite List.removelast_last, last_snoc. simpl.
    apply Forall2_app; [done|]. constructor; [|constructor].
    by apply merge_reconstructs.
Qed.

Lemma reconstructed_paragraphs (cs : list Chunk.ChunkMetadata) (bufs : list (list str)) :
  Forall2 (reconstructs md) cs bufs → map chunk_paragraphs cs = bufs.
Proof.
  induction 1 as [|c b cs bufs Hr _ IH]; [done|].
  simpl. by rewrite (reconstructs_paragraphs md _ _ Hr), IH.
Qed.

Lemma chunk_buffers_concat (hs : history) (cs : list Chunk.ChunkMetadata) :
  (merged_last (hs_state hs) cs = true → hs_emitted hs ≠ []) →
  concat (chunk_buffers hs cs) = concat (map snd (segments hs)).
Proof.
  intros Hm. unfold chunk_buffers, segments.
  rewrite map_app, concat_app. simpl. rewrite app_nil_r.
  destruct (merged_last (hs_state hs) cs).
  - specialize (Hm eq_refl).
    destruct (hs_emitted hs) as [|e es] using rev_ind; [done|].
    rewrite map_app. simpl. rewrite List.removelast_last, last_snoc. simpl.
    rewrite !concat_app. simpl. by rewrite !app_nil_r, app_assoc.
  - destruct (current_chunk_paras (hs_state hs)) as [|b bs]; [by rewrite app_nil_r|].
    rewrite concat_app. simpl. by rewrite app_nil_r.
Qed.

Lemma read_is_kept (segs : list (list str * list str)) :
  concat (map read_into segs) `sublist_of` concat (map snd segs).
Proof.
  induction segs as [|s segs IH]; [done|].
  simpl. apply sublist_app; [|done]. unfold read_into. apply sublist_drop.
Qed.

Lemma read_without_seeds (segs : list (list str * list str)) :
  Forall (λ s, s.1 = []) segs →
  concat (map read_into segs) = concat (map snd segs).
Proof.
  induction 1 as [|s segs Hs _ IH]; [done|].
  simpl. rewrite IH. unfold read_into. by rewrite Hs.
Qed.

(** The run of [chunk_document] with its history, and what the chunks
    are made of. *)
Lemma chunk_document_logged (cs : list Chunk.ChunkMetadata) (h : heap)
    (paras : list str) (st : state) :
  run_paragraphs encode cfg doc md paras = Returns st →
  finalize encode cfg doc md st = (cs, h) →
  ∃ hs,
    run_logged encode cfg doc md paras = Returns hs
    ∧ hs_state hs = st
    ∧ well_logged encode cfg md hs (concat (map (sub_paras_of encode cfg) paras))
    ∧ Forall2 (reconstructs md) cs (chunk_buffers hs cs)
    ∧ all_chunk_paragraphs cs = concat (map snd (segments hs)).
Proof.
  intros Hrun Hfin.
  destruct (run_logged_state encode cfg doc md _ _ Hrun) as (hs & Hlog & <-).
  pose proof (run_well_logged _ _ Hlog) as Hwell.
  pose proof Hwell as (Hrec & _).
  pose proof (finalize_chunk_buffers hs cs h Hrec Hfin) as Hbufs.
  exists hs. split_and!; [done..|].
  unfold all_chunk_paragraphs. rewrite (reconstructed_paragraphs _ _ Hbufs).
  apply chunk_buffers_concat. intros Hm.
  unfold merged_last in Hm. apply bool_decide_eq_true in Hm as [Hne Hlen].
  apply finalize_spec in Hfin
    as [[Hnil ->]|[[_ ->]|[_ (prev & Hl & _)]]]; [done| |].
  - rewrite length_app in Hlen. simpl in Hlen. lia.
  - intros He. rewrite He in Hrec. simpl in Hrec.
    apply Forall2_nil_inv_r in Hrec. by rewrite Hrec in Hl.
Qed.
End logged_run.

(** C1: the chunks of a document stand against the buffers of the run:
    one chunk for every buffer as it was when the loop emitted it, and
    for the last buffer a chunk of its own or, after the orphan merge,
    the end of the chunk before it. The slices of a chunk's text at its
    [paragraph_indices] are exactly the paragraphs of its buffer, of both
    buffers after the merge, so that joining them with a newline gives
    the joined buffer; in the first chunk the indices lie behind the
    document header. *)
Theorem paragraph_indices_reconstruct (encode : str → option (list nat))
    (cfg : Config) (doc : DocumentInfo) (cs : list Chunk.ChunkMetadata) (h : heap) :
  chunk_document encode cfg doc = Returns (cs, h) →
  ∃ first_text hs,
    first_text_of doc = Returns first_text
    ∧ run_logged encode cfg doc (document_metadata doc first_text) (paragraphs doc)
      = Returns hs
    ∧ run_paragraphs encode cfg doc (document_metadata doc first_text) (paragraphs doc)
      = Returns (hs_state hs)
    ∧ Forall2 (λ c ps,
                 ps ≠ []
                 ∧ chunk_paragraphs c = ps
                 ∧ join nl (chunk_paragraphs c) = join nl ps
                 ∧ Chunk.full_text c
                   = header_prefix (document_metadata doc first_text) c ++ join nl ps)
        cs (chunk_buffers hs cs).
Proof.
  intros Hrun.
  apply chunk_document_returns in Hrun as (ft & st & Hft & Hst & Hfin).
  destruct (chunk_document_logged encode cfg doc _ cs h _ st Hst Hfin)
    as (hs & Hlog & <- & _ & Hbufs & _).
  exists ft, hs. split_and!; [done..|].
  eapply Forall2_impl; [exact Hbufs|].
  intros c ps Hr. pose proof (reconstructs_paragraphs _ _ _ Hr) as Hp.
  destruct Hr as (Hne & _ & Ht). by rewrite Hp.
Qed.

Lemma paragraph_indices_reconstruct_witness :
  let cfg := sample_config 10 0 20 true 5 None in
  let a1 := lit "Article 1 applies to all credit institutions in the Union." in
  let a2 := lit "Article 2 is short." in
  ∃ c h hs,
    chunk_document word_encode cfg two_articles = Returns ([c], h)
    ∧ run_logged word_encode cfg two_articles (document_metadata two_articles a1)
        (paragraphs two_articles) = Returns hs
    ∧ hs_emitted hs = [([], [a1])]
    ∧ current_chunk_paras (hs_state hs) = [a2]
    ∧ chunk_buffers hs [c] = [[a1; a2]]
    ∧ Forall2 (λ c ps,
                 ps ≠ []
                 ∧ chunk_paragraphs c = ps
                 ∧ join nl (chunk_paragraphs c) = join nl ps
                 ∧ Chunk.full_text c
                   = header_prefix (document_metadata two_articles a1) c ++ join nl ps)
        [c] [[a1; a2]].
Proof.
  intros cfg a1 a2.
  destruct (chunk_document word_encode cfg two_articles) as [[cs h]|] eqn:Hrun;
    [|by vm_compute in Hrun].
  destruct (paragraph_indices_reconstruct word_encode cfg two_articles cs h Hrun)
    as (ft & hs & Hft & Hlog & _ & Hall).
  injection Hft as <-.
  vm_compute in Hrun. injection Hrun as <- <-.
  assert (Hhs : run_logged word_encode cfg two_articles
                  (document_metadata two_articles a1) (paragraphs two_articles)
                = Returns hs) by exact Hlog.
  vm_compute in Hlog. injection Hlog as <-.
  eexists _, _, _. split_and!; [reflexivity|exact Hhs|reflexivity..|exact Hall].
Defined.

(** C3: the paragraphs of the chunks, in order, are the buffers of the
    run one after the other; every buffer starts with the overlap that
    [calculate_overlap] chose from the buffer emitted before it, with
    nothing for the first buffer and without overlap, and what follows
    the overlaps is, in order, exactly the sub-paragraphs read. So every
    sub-paragraph read is kept, in order, whatever the configuration;
    without overlap the paragraphs of the chunks are exactly the
    sub-paragraphs read, and the document's paragraphs themselves when
    none of them is over the ceiling that makes the chunker split it at
    sentences. *)
Theorem no_paragraph_lost (encode : str → option (list nat)) (cfg : Config)
    (doc : DocumentInfo) (cs : list Chunk.ChunkMetadata) (h : heap) :
  chunk_document encode cfg doc = Returns (cs, h) →
  let read := concat (map (sub_paras_of encode cfg) (paragraphs doc)) in
  ∃ first_text hs,
    first_text_of doc = Returns first_text
    ∧ run_logged encode cfg doc (document_metadata doc first_text) (paragraphs doc)
      = Returns hs
    ∧ all_chunk_paragraphs cs = concat (map snd (segments hs))
    ∧ Forall (λ s, s.1 `prefix_of` s.2) (segments hs)
    ∧ seeds_follow encode cfg None (segments hs)
    ∧ concat (map read_into (segments hs)) = read
    ∧ read `sublist_of` all_chunk_paragraphs cs
    ∧ (cfg_enable_overlap cfg = false → all_chunk_paragraphs cs = read)
    ∧ (cfg_enable_overlap cfg = false →
       (∀ p, p ∈ paragraphs doc → count_tokens encode p ≤ cfg_max_para_tokens cfg) →
       all_chunk_paragraphs cs = paragraphs doc).
Proof.
  intros Hrun read.
  apply chunk_document_returns in Hrun as (ft & st & Hft & Hst & Hfin).
  destruct (chunk_document_logged encode cfg doc _ cs h _ st Hst Hfin)
    as (hs & Hlog & <- & (_ & Hpre & Hread & Hseeds & _) & _ & Hall).
  subst read.
  assert (Hoff : cfg_enable_overlap cfg = false →
                 all_chunk_paragraphs cs
                 = concat (map (sub_paras_of encode cfg) (paragraphs doc))).
  { intros Hno. rewrite Hall, <- Hread. symmetry. apply read_without_seeds.
    by apply (seeds_empty encode cfg None). }
  exists ft, hs. split_and!; [done..| | |].
  - rewrite Hall, <- Hread. apply read_is_kept.
  - done.
  - intros Hno Hsmall. rewrite (Hoff Hno). by apply sub_paras_whole.
Qed.

Lemma no_paragraph_lost_witness :
  let cfg := sample_config 10 0 20 false 5 (Some true) in
  let a1 := lit "Article 1 applies to all credit institutions in the Union." in
  let a2 := lit "Article 2 is short." in
  ∃ cs h hs,
    chunk_document word_encode cfg two_articles = Returns (cs, h)
    ∧ run_logged word_encode cfg two_articles (document_metadata two_articles a1)
        (paragraphs two_articles) = Returns hs
    ∧ segments hs = [([], [a1]); ([a1], [a1; a2])]
    ∧ all_chunk_paragraphs cs = [a1; a1; a2]
    ∧ concat (map read_into (segments hs)) = [a1; a2]
    ∧ [a1; a2] `sublist_of` all_chunk_paragraphs cs
    ∧ seeds_follow word_encode cfg None (segments hs).
Proof.
  intros cfg a1 a2.
  destruct (chunk_document word_encode cfg two_articles) as [[cs h]|] eqn:Hrun;
    [|by vm_compute in Hrun].
  destruct (no_paragraph_lost word_encode cfg two_articles cs h Hrun)
    as (ft & hs & Hft & Hlog & Hall & _ & Hseeds & Hread & Hsub & _).
  injection Hft as <-.
  assert (Hhs : run_logged word_encode cfg two_articles
                  (document_metadata two_articles a1) (paragraphs two_articles)
                = Returns hs) by exact Hlog.
  vm_compute in Hlog. injection Hlog as <-.
  exists cs, h. eexists.
  split_and!; [reflexivity|exact Hhs|reflexivity|exact Hall|exact Hread|exact Hsub
              |exact Hseeds].
Defined.

(** C3 as stated fails: with overlap the first paragraph of
    [two_articles] comes twice, and a paragraph over the ceiling comes as
    the sentences it was split into. *)
Lemma paragraphs_repeated_or_split :
  (all_chunk_paragraphs <$>
     chunks_of word_encode (sample_config 10 0 20 false 5 (Some true)) two_articles)
    = Some [lit "Article 1 applies to all credit institutions in the Union.";
            lit "Article 1 applies to all credit institutions in the Union.";
            lit "Article 2 is short."]
  ∧ (all_chunk_paragraphs <$>
       chunks_of word_encode (sample_config 10 0 20 false 5 (Some true)) two_articles)
    ≠ Some (paragraphs two_articles)
  ∧ (all_chunk_paragraphs <$>
       chunks_of word_encode
         (with_max_paragraph_tokens 5 (sample_config 10 0 20 false 5 None))
         two_sentences)
    = Some [lit "First sentence is here."; lit "Second sentence is here."]
  ∧ (all_chunk_paragraphs <$>
       chunks_of word_encode
         (with_max_paragraph_tokens 5 (sample_config 10 0 20 false 5 None))
         two_sentences)
    ≠ Some (paragraphs two_sentences).
Proof. split_and!; by vm_compute. Qed.

(** ** Overlap *)

Section overlap.
Context (encode : str → option (list nat)).

Lemma overlap_loop_spec (target : Z) (rev_paras overlap out : list str) (tokens : Z) :
  overlap_loop encode target rev_paras overlap tokens = Returns out →
  tokens = tokens_sum encode overlap →
  5 * tokens < 4 * target →
  Forall sentence_closed overlap →
  overlap_bounded encode target overlap →
  (∃ added, out = added ++ overlap ∧ added `sublist_of` reverse rev_paras)
  ∧ Forall sentence_closed out
  ∧ overlap_bounded encode target out.
Proof.
  revert overlap tokens.
  induction rev_paras as [|para rest IH]; intros overlap tokens Hrun Htok Hlow Hcl Hb.
  { simpl in Hrun. simplify_eq. split; [|done]. exists []. split; [done|constructor]. }
  simpl in Hrun. apply bind_returns in Hrun as (ends & Hends & Hrun).
  rewrite reverse_cons.
  destruct ends; simpl in Hrun.
  - destruct (decide (3 * target < 2 * (tokens + count_tokens encode para)
                      ∧ overlap ≠ [])) as [[Hover Hne]|Hadd].
    + rewrite !bool_decide_true in Hrun by done. simpl in Hrun. simplify_eq.
      split; [|done]. exists []. split; [done|apply sublist_nil_l].
    + assert (Hb' : overlap_bounded encode target (para :: overlap)).
      { simpl. split; [lia|]. intros Hne. simpl.
        destruct (decide (3 * target < 2 * (tokens + count_tokens encode para)));
          [exfalso; apply Hadd; by split|]. subst tokens. lia. }
      assert (Hcl' : Forall sentence_closed (para :: overlap)) by (by constructor).
      assert (Hstep : (if bool_decide (4 * target
                                       ≤ 5 * (tokens + count_tokens encode para))
                       then Returns (para :: overlap)
                       else overlap_loop encode target rest (para :: overlap)
                              (tokens + count_tokens encode para)) = Returns out).
      { assert (Hf : bool_decide (3 * target < 2 * (tokens + count_tokens encode para))
                     && bool_decide (overlap ≠ []) = false).
        { apply andb_false_iff.
          destruct (decide (3 * target < 2 * (tokens + count_tokens encode para)));
            [right|left]; apply bool_decide_eq_false; [|done].
          intros Hne. apply Hadd. by split. }
        by rewrite Hf in Hrun. }
      clear Hrun. case_bool_decide.
      * simplify_eq. split; [|done]. exists [para]. split; [done|].
        apply sublist_inserts_l. done.
      * apply IH in Hstep as ((added & -> & Hsub) & Hcl2 & Hb2);
          [|simpl; lia|lia|done|done].
        split; [|done]. exists (added ++ [para]).
        split; [by rewrite <- app_assoc|]. by apply sublist_app.
  - apply IH in Hrun as ((added & -> & Hsub) & Hcl2 & Hb2); [|done..].
    split; [|done]. exists added. split; [done|]. by apply sublist_inserts_r.
Qed.

Lemma calculate_overlap_spec (paragraphs out : list str) (target : Z) :
  calculate_overlap encode paragraphs target = Returns out →
  out `sublist_of` paragraphs
  ∧ Forall sentence_closed out
  ∧ overlap_bounded encode target out.
Proof.
  unfold calculate_overlap. intros Hrun.
  destruct paragraphs as [|p ps]; [by simplify_eq|].
  case_bool_decide; [simplify_eq; split; [apply sublist_nil_l|done]|].
  apply overlap_loop_spec in Hrun as ((added & -> & Hsub) & Hcl & Hb);
    [|done|lia|constructor|done].
  rewrite reverse_involutive in Hsub. by rewrite app_nil_r in *.
Qed.
End overlap.

Section overlap_exact.
Context (encode : str → option (list nat)).

Lemma overlap_loop_exact (target : Z) (rev_paras overlap : list str) (tokens : Z)
    (out : list str) :
  overlap_loop encode target rev_paras overlap tokens = Returns out →
  tokens = tokens_sum encode overlap →
  5 * tokens < 4 * target →
  (∀ p rest, (p :: rest) `suffix_of` overlap →
     5 * tokens_sum encode rest < 4 * target
     ∧ (rest ≠ [] → 2 * tokens_sum encode (p :: rest) ≤ 3 * target)) →
  ∃ skipped added,
    List.filter ends_sentence (reverse rev_paras) = skipped ++ added
    ∧ out = added ++ overlap
    ∧ (∀ p rest, (p :: rest) `suffix_of` out →
         5 * tokens_sum encode rest < 4 * target
         ∧ (rest ≠ [] → 2 * tokens_sum encode (p :: rest) ≤ 3 * target))
    ∧ (skipped = []
       ∨ 4 * target ≤ 5 * tokens_sum encode out
       ∨ (out ≠ []
          ∧ ∃ q, last skipped = Some q
                 ∧ 3 * target < 2 * (tokens_sum encode out + count_tokens encode q))).
Proof.
  revert overlap tokens.
  induction rev_paras as [|para rest IH]; intros overlap tokens Hrun -> Hlow Hsuf.
  { simpl in Hrun. simplify_eq. exists [], []. split_and!; [done|done|done|by left]. }
  simpl in Hrun. rewrite reverse_cons, List.filter_app.
  apply bind_returns in Hrun as (ends & Hends & Hrun).
  assert (Hcl : ends_sentence para = ends) by (unfold ends_sentence; by rewrite Hends).
  simpl. rewrite Hcl.
  destruct ends; simpl in Hrun.
  - destruct (bool_decide (3 * target
                < 2 * (tokens_sum encode overlap + count_tokens encode para))
              && bool_decide (overlap ≠ [])) eqn:Hover.
    + apply andb_true_iff in Hover as [Hov Hne].
      apply bool_decide_eq_true in Hov, Hne. simplify_eq.
      exists (List.filter ends_sentence (reverse rest) ++ [para]), [].
      split_and!; [by rewrite app_nil_r|done|done|].
      right; right. split; [done|]. exists para. split; [apply last_snoc|done].
    + assert (Hsuf' : ∀ p r, (p :: r) `suffix_of` (para :: overlap) →
                 5 * tokens_sum encode r < 4 * target
                 ∧ (r ≠ [] → 2 * tokens_sum encode (p :: r) ≤ 3 * target)).
      { intros p r Hp. apply suffix_cons_inv in Hp as [Hp|Hp]; [|by apply Hsuf].
        simplify_eq. split; [done|]. intros Hne.
        apply andb_false_iff in Hover as [Hov|Hov]; apply bool_decide_eq_false in Hov.
        - simpl. lia.
        - done. }
      case_bool_decide as H80.
      * simplify_eq.
        exists (List.filter ends_sentence (reverse rest)), [para].
        split_and!; [done|done|done|]. right; left. simpl. lia.
      * apply IH in Hrun as (skipped & added & Hf & -> & Hs & Hstop);
          [|simpl; lia|lia|done].
        exists skipped, (added ++ [para]).
        split_and!; [by rewrite Hf, app_assoc|by rewrite <- app_assoc|done|done].
  - apply IH in Hrun as (skipped & added & Hf & -> & Hs & Hstop); [|done..].
    exists skipped, added. split_and!; [by rewrite Hf, app_nil_r|done..].
Qed.

Lemma calculate_overlap_exact (paragraphs out : list str) (target : Z) :
  calculate_overlap encode paragraphs target = Returns out →
  if bool_decide (target ≤ 0) then out = []
  else selected_overlap encode target paragraphs out.
Proof.
  unfold calculate_overlap. intros Hrun.
  destruct paragraphs as [|p ps].
  { simplify_eq. case_bool_decide; [done|]. exists []. split_and!; [done| |by left].
    intros q r Hq. by apply suffix_nil_inv in Hq. }
  case_bool_decide; [by simplify_eq|].
  apply overlap_loop_exact in Hrun as (skipped & added & Hf & -> & Hs & Hstop);
    [|done|simpl; lia|].
  - rewrite reverse_involutive in Hf. rewrite app_nil_r in *. by exists skipped.
  - intros q r Hq. by apply suffix_nil_inv in Hq.
Qed.

Lemma selected_overlap_shorter (target : Z) (paragraphs o1 o2 : list str) :
  selected_overlap encode target paragraphs o1 →
  selected_overlap encode target paragraphs o2 →
  (length o1 ≤ length o2)%nat →
  o1 = o2.
Proof.
  intros (s1 & Hf1 & Ha1 & Hstop1) (s2 & Hf2 & Ha2 & Hstop2) Hlen.
  assert (Hk : ∃ k, o2 = k ++ o1 ∧ s1 = s2 ++ k).
  { rewrite Hf1 in Hf2.
    exists (take (length o2 - length o1) o2).
    assert (Hl : length s1 = (length s2 + (length o2 - length o1))%nat).
    { apply (f_equal length) in Hf2. rewrite !length_app in Hf2. lia. }
    assert (H1 : s1 ++ o1 = (s2 ++ take (length o2 - length o1) o2)
                            ++ drop (length o2 - length o1) o2).
    { etrans; [exact Hf2|]. rewrite <- (app_assoc s2). f_equal.
      symmetry. apply take_drop. }
    apply app_inj_1 in H1 as [H1 H2].
    - split; [|done].
      etrans; [symmetry; apply (take_drop (length o2 - length o1))|]. by f_equal.
    - rewrite length_app, length_take. lia. }
  destruct Hk as (k & -> & ->).
  destruct (decide (k = [])) as [->|Hk]; [done|].
  exfalso.
  destruct (exists_last Hk) as (k' & p & ->).
  destruct (Ha2 p o1) as [Hlow Hup].
  { exists k'. by rewrite <- app_assoc. }
  destruct Hstop1 as [Hs|[Hs|(Hne & q & Hq & Hs)]].
  - apply (f_equal length) in Hs. rewrite !length_app in Hs. simpl in Hs. lia.
  - lia.
  - rewrite app_assoc, last_snoc in Hq. simplify_eq.
    specialize (Hup Hne). simpl in Hup. lia.
Qed.

(** The last paragraph that ends at a sentence boundary is always
    taken. *)
Lemma selected_overlap_takes_last (target : Z) (paragraphs overlap : list str)
    (p : str) :
  0 < target →
  selected_overlap encode target paragraphs overlap →
  last (List.filter ends_sentence paragraphs) = Some p →
  last overlap = Some p.
Proof.
  intros Hpos (skipped & Hf & _ & Hstop) Hlast. rewrite Hf in Hlast.
  destruct (decide (overlap = [])) as [->|Hne].
  - exfalso. rewrite app_nil_r in Hlast.
    destruct Hstop as [->|[Hs|[Hs _]]]; [done|simpl in Hs; lia|done].
  - destruct (exists_last Hne) as (o & x & ->).
    rewrite app_assoc, last_snoc in Hlast. by rewrite last_snoc.
Qed.

Lemma selected_overlap_unique (target : Z) (paragraphs o1 o2 : list str) :
  selected_overlap encode target paragraphs o1 →
  selected_overlap encode target paragraphs o2 →
  o1 = o2.
Proof.
  intros H1 H2. destruct (decide (length o1 ≤ length o2)%nat).
  - by apply (selected_overlap_shorter target paragraphs).
  - symmetry. apply (selected_overlap_shorter target paragraphs); [done..|lia].
Qed.
End overlap_exact.

(** C5: after a split with overlap the new buffer starts from the
    overlap that the walk of [calculate_overlap] selects, and that is: of
    the paragraphs of the emitted buffer that end at a sentence boundary,
    the last ones, taken from the end backward without a gap among them;
    a paragraph was taken only while the overlap was below 80% of the
    target, and added to an overlap that was not empty only if the total
    stayed within 150% of it; and the walk ended only when no such
    paragraph was left, when 80% of the target was reached, or when the
    next one would have taken the overlap over 150%. These conditions
    determine the overlap, and the last paragraph that ends at a sentence
    boundary is always in it. Without overlap, or with a target that is
    not positive, the buffer starts empty. *)
Theorem overlap_seed_is_sentence_closed (encode : str → option (list nat))
    (cfg : Config) (doc : DocumentInfo) (md : doc_metadata) (st st' : state) :
  emit encode cfg doc md st = Returns st' →
  if cfg_enable_overlap cfg && bool_decide (0 < cfg_overlap_tokens cfg)
  then selected_overlap encode (cfg_overlap_tokens cfg)
         (current_chunk_paras st) (current_chunk_paras st')
       ∧ (∀ other, selected_overlap encode (cfg_overlap_tokens cfg)
                     (current_chunk_paras st) other →
                   other = current_chunk_paras st')
       ∧ (∀ p, last (List.filter ends_sentence (current_chunk_paras st)) = Some p →
               last (current_chunk_paras st') = Some p)
       ∧ current_chunk_paras st' `sublist_of` current_chunk_paras st
       ∧ Forall sentence_closed (current_chunk_paras st')
  else current_chunk_paras st' = [].
Proof.
  intros He. apply emit_spec in He as (_ & _ & _ & _ & Hov).
  destruct (cfg_enable_overlap cfg); [|done]. simpl.
  pose proof (calculate_overlap_exact encode _ _ _ Hov) as Hex.
  apply calculate_overlap_spec in Hov as (Hsub & Hcl & _).
  case_bool_decide as Hpos.
  - by rewrite bool_decide_eq_false_2 by lia.
  - rewrite bool_decide_eq_true_2 by lia.
    split_and!; [done| | |done..].
    + intros other Ho. by apply (selected_overlap_unique encode _ _ _ _ Ho Hex).
    + intros p.
      apply (selected_overlap_takes_last encode (cfg_overlap_tokens cfg)); [lia|done].
Qed.

Lemma overlap_seed_is_sentence_closed_witness :
  let cfg := sample_config 10 0 20 false 5 (Some true) in
  let md := document_metadata two_articles (lit "Article 1") in
  ∃ st',
    emit word_encode cfg two_articles md (state_with_buffer open_middle) = Returns st'
    ∧ current_chunk_paras st'
      = [lit "Institutions shall report quarterly.";
         lit "Annual reports are due in March."]
    ∧ selected_overlap word_encode 200 open_middle (current_chunk_paras st')
    ∧ (∀ other, selected_overlap word_encode 200 open_middle other →
                other = current_chunk_paras st')
    ∧ (∀ p, last (List.filter ends_sentence open_middle) = Some p →
            last (current_chunk_paras st') = Some p)
    ∧ current_chunk_paras st' `sublist_of` open_middle
    ∧ Forall sentence_closed (current_chunk_paras st').
Proof.
  intros cfg md.
  destruct (emit word_encode cfg two_articles md (state_with_buffer open_middle))
    as [st'|] eqn:He; [|by vm_compute in He].
  pose proof (overlap_seed_is_sentence_closed word_encode cfg two_articles md _ _ He)
    as Hthm.
  exists st'. split; [reflexivity|].
  vm_compute in He. injection He as <-.
  split; [reflexivity|exact Hthm].
Defined.

(** C5 as stated fails: the overlap skips a paragraph that does not end
    a sentence and goes on to the one before it, so it is not a suffix;
    and a first paragraph is taken whatever its size, here four tokens
    against a target of two. *)
Lemma overlap_not_a_suffix :
  calculate_overlap word_encode open_middle 200
    = Returns [lit "Institutions shall report quarterly.";
               lit "Annual reports are due in March."]
  ∧ ¬ [lit "Institutions shall report quarterly.";
       lit "Annual reports are due in March."] `suffix_of` open_middle
  ∧ calculate_overlap word_encode [lit "Institutions shall report quarterly."] 2
    = Returns [lit "Institutions shall report quarterly."]
  ∧ count_tokens word_encode (lit "Institutions shall report quarterly.") = 4.
Proof.
  split_and!; [by vm_compute| |by vm_compute..].
  intros [k Hk]. unfold open_middle in Hk.
  destruct k as [|x [|y k]]; vm_compute in Hk; try discriminate.
  apply (f_equal length) in Hk. simpl in Hk. rewrite length_app in Hk. simpl in Hk. lia.
Qed.

(** ** Token bounds *)

(** C2: the limits are enforced where the chunker decides and merges.
    With [keep_related_articles] on, an iteration that finds a buffer
    that is not empty either appends the sub-paragraph, and then the
    tokens of the buffer's text and of the sub-paragraph together are at
    most [max_chunk_tokens], or, kept together by the cohesion rule, at
    most 1.2 times that; or it emits the buffer and starts the next from
    the overlap and the sub-paragraph, which joins the overlap without a
    test. The chunk that the final orphan merge leaves has a
    [token_count] of at most 1.2 times [max_chunk_tokens]. For the
    chunks of a document: their paragraphs are the buffers of the run,
    and in every buffer each paragraph behind the overlap and the first
    paragraph read after it passed the test against the paragraphs
    before it. *)
Theorem token_limits_enforced (encode : str → option (list nat)) (cfg : Config)
    (doc : DocumentInfo) :
  (∀ md st kind sp st',
     cfg_keep_related cfg = true →
     current_chunk_paras st ≠ [] →
     step_sub encode cfg doc md kind st sp = Returns st' →
     let total := count_tokens encode (join nl (current_chunk_paras st))
                  + count_tokens encode sp in
     (chunks st' = chunks st
      ∧ current_chunk_paras st' = current_chunk_paras st ++ [sp]
      ∧ (total ≤ max_chunk_tokens cfg
         ∨ (should_keep_together (current_chunk_paras st) sp (current_article st)
              = Returns true
            ∧ 5 * total ≤ 6 * max_chunk_tokens cfg)))
     ∨ (chunks st' = chunks st ++ [buffer_chunk encode doc md st]
        ∧ ∃ seed,
            current_chunk_paras st' = seed ++ [sp]
            ∧ seeded_from encode cfg (Some (current_chunk_paras st)) seed))
  ∧ (∀ md st cs h c,
       finalize encode cfg doc md st = (cs, h) →
       current_chunk_paras st ≠ [] →
       length cs = length (chunks st) →
       last cs = Some c →
       5 * Chunk.token_count c ≤ 6 * max_chunk_tokens cfg)
  ∧ (∀ cs h,
       chunk_document encode cfg doc = Returns (cs, h) →
       ∃ first_text hs,
         first_text_of doc = Returns first_text
         ∧ run_logged encode cfg doc (document_metadata doc first_text) (paragraphs doc)
           = Returns hs
         ∧ map chunk_paragraphs cs = chunk_buffers hs cs
         ∧ Forall (λ s, s.1 `prefix_of` s.2) (segments hs)
         ∧ seeds_follow encode cfg None (segments hs)
         ∧ (cfg_keep_related cfg = true → Forall (admitted encode cfg) (segments hs))
         ∧ (merged_last (hs_state hs) cs = true →
            ∃ c, last cs = Some c
                 ∧ 5 * Chunk.token_count c ≤ 6 * max_chunk_tokens cfg)).
Proof.
  assert (Hmerge : ∀ md st cs h c,
            finalize encode cfg doc md st = (cs, h) →
            current_chunk_paras st ≠ [] →
            length cs = length (chunks st) →
            last cs = Some c →
            5 * Chunk.token_count c ≤ 6 * max_chunk_tokens cfg).
  { intros md st cs h c Hfin Hne Hlen Hlast.
    apply finalize_spec in Hfin
      as [[Hnil ->]|[[_ ->]|[_ (prev & Hl & _ & Hle & ->)]]]; [done| |].
    + rewrite length_app in Hlen. simpl in Hlen. lia.
    + rewrite last_snoc in Hlast. by simplify_eq. }
  split_and!.
  - intros md st [[t a] ns] sp st' Hkeep Hne Hstep total.
    apply step_sub_spec in Hstep as (split & s1 & Hsplit & Hs1 & ->).
    destruct (track_fields s1 t a ns sp) as (Hch & Hpa & _).
    rewrite Hch, Hpa. destruct split.
    + right. apply emit_spec in Hs1 as (-> & _ & _ & _ & Hov).
      split; [done|]. by exists (current_chunk_paras s1).
    + left. subst s1. split_and!; [done..|].
      by apply (no_split_within_limit encode cfg st t sp).
  - exact Hmerge.
  - intros cs h Hrun.
    apply chunk_document_returns in Hrun as (ft & st & Hft & Hst & Hfin).
    destruct (chunk_document_logged encode cfg doc _ cs h _ st Hst Hfin)
      as (hs & Hlog & <- & (_ & Hpre & _ & Hseeds & Hadm) & Hbufs & _).
    exists ft, hs. split_and!; [done|done| |done..|].
    + by apply (reconstructed_paragraphs (document_metadata doc ft)).
    + intros Hm. unfold merged_last in Hm.
      apply bool_decide_eq_true in Hm as [Hne Hlen].
      destruct (last cs) as [c|] eqn:Hlast.
      * exists c. split; [done|]. by eapply Hmerge.
      * apply last_None in Hlast. subst cs.
        apply finalize_spec in Hfin
          as [[Hnil _]|[[_ Hcs]|[_ (prev & _ & _ & _ & Hcs)]]]; [done|..];
          apply (f_equal length) in Hcs; rewrite length_app in Hcs;
          simpl in Hcs; lia.
Qed.

Lemma token_limits_enforced_witness :
  let cfg := sample_config 10 0 20 false 5 (Some true) in
  let a1 := lit "Article 1 applies to all credit institutions in the Union." in
  let quarterly := lit "Institutions shall report quarterly." in
  let md := document_metadata two_articles a1 in
  let st := state_with_buffer [a1] in
  (∃ st1,
     step_sub word_encode cfg two_articles md (lit "paragraph", None, []) st quarterly
       = Returns st1
     ∧ chunks st1 = []
     ∧ current_chunk_paras st1 = [a1; quarterly]
     ∧ count_tokens word_encode (join nl [a1]) + count_tokens word_encode quarterly
       ≤ 20)
  ∧ (∃ st2,
       step_sub word_encode cfg two_articles md (lit "article", Some (lit "2"), []) st
         records_article = Returns st2
       ∧ chunks st2 = [buffer_chunk word_encode two_articles md st]
       ∧ (∃ seed, current_chunk_paras st2 = seed ++ [records_article]
                  ∧ seeded_from word_encode cfg (Some [a1]) seed)
       ∧ current_chunk_paras st2 = [a1; records_article]
       ∧ count_tokens word_encode (join nl [a1; records_article]) = 25
       ∧ ¬ (5 * 25 ≤ 6 * max_chunk_tokens cfg)).
Proof.
  intros cfg a1 quarterly md st.
  destruct (token_limits_enforced word_encode cfg two_articles) as (Hstep & _ & _).
  split.
  - destruct (step_sub word_encode cfg two_articles md (lit "paragraph", None, []) st
                quarterly) as [st1|] eqn:Hst1; [|by vm_compute in Hst1].
    destruct (Hstep md st _ quarterly st1 eq_refl ltac:(discriminate) Hst1)
      as [(Hch & Hpa & Hle)|(Hch & _)].
    + exists st1. split; [reflexivity|]. split; [exact Hch|]. split; [exact Hpa|].
      destruct Hle as [Hle|[Hk _]]; [exact Hle|].
      vm_compute in Hk. discriminate Hk.
    + vm_compute in Hst1. injection Hst1 as <-. discriminate Hch.
  - destruct (step_sub word_encode cfg two_articles md
                (lit "article", Some (lit "2"), []) st records_article)
      as [st2|] eqn:Hst2; [|by vm_compute in Hst2].
    destruct (Hstep md st _ records_article st2 eq_refl ltac:(discriminate) Hst2)
      as [(Hch & _)|(Hch & Hseed)].
    + vm_compute in Hst2. injection Hst2 as <-. discriminate Hch.
    + exists st2. split; [reflexivity|]. split; [exact Hch|]. split; [exact Hseed|].
      vm_compute in Hst2. injection Hst2 as <-.
      split; [reflexivity|]. split; [by vm_compute|]. simpl. lia.
Defined.

(** C2 as stated fails: the second chunk of [short_then_long] comes from
    a split at an article boundary, not from the cohesion rule, and is
    not merged; it holds one sentence of 33 tokens against a limit of 20,
    which is more than 1.2 times the limit as well. *)
Lemma chunk_over_token_limit :
  (map Chunk.token_count <$>
     chunks_of word_encode (sample_config 10 0 20 false 5 None) short_then_long)
    = Some [20; 33]
  ∧ should_keep_together
      [lit "Article 1 applies to all credit institutions in the Union."]
      long_article (Some (lit "1")) = Returns false
  ∧ ¬ (33 ≤ max_chunk_tokens (sample_config 10 0 20 false 5 None))
  ∧ ¬ (5 * 33 ≤ 6 * max_chunk_tokens (sample_config 10 0 20 false 5 None)).
Proof. split_and!; [by vm_compute..| |]; simpl; lia. Qed.

(** ** Character offsets *)

(** C4: the offsets of the chunks after the first are moved on by the
    length of the document header, which is counted into the running
    offset: in [two_articles], whose text is 78 characters long, the
    second chunk is placed at 119 to 138 and its text is not found
    there. *)
Theorem char_offsets_count_the_header :
  len (full_text two_articles) = 78
  ∧ (map (λ c, (Chunk.char_start c, Chunk.char_end c)) <$>
       chunks_of word_encode (sample_config 10 0 20 false 5 None) two_articles)
    = Some [(0, 118); (119, 138)]
  ∧ (map Chunk.full_text <$>
       chunks_of word_encode (sample_config 10 0 20 false 5 None) two_articles)
    = Some [lit "Article 1 applies to all credit institutions in the Union."
              ++ nl ++ nl
              ++ lit "Article 1 applies to all credit institutions in the Union.";
            lit "Article 2 is short."]
  ∧ slice (full_text two_articles) 59 78 = lit "Article 2 is short."
  ∧ slice (full_text two_articles) 119 138 = []
  ∧ ¬ (∀ cs, chunks_of word_encode (sample_config 10 0 20 false 5 None) two_articles
             = Some cs → Forall (located_at_offsets two_articles) cs).
Proof.
  split_and!; [by vm_compute..|].
  intros Hall.
  destruct (chunks_of word_encode (sample_config 10 0 20 false 5 None) two_articles)
    as [cs|] eqn:Hcs; [|by vm_compute in Hcs].
  specialize (Hall cs eq_refl). vm_compute in Hcs. injection Hcs as <-.
  apply Forall_cons in Hall as [_ Hall]. apply Forall_inv in Hall.
  vm_compute in Hall. discriminate Hall.
Qed.

(** ** Boundary classification *)


Section article_context.
Context (encode : str → option (list nat)) (cfg : Config).
Context (doc : DocumentInfo) (md : doc_metadata).
Context (n : str) (k : nat).





End article_context.

Section article_range.
Context (encode : str → option (list nat)) (cfg : Config).
Context (doc : DocumentInfo) (md : doc_metadata).







End article_range.




(** ** The chunker returns *)

Lemma for_each_returns {S A} (I : S → Prop) (body : S → A → outcome S)
    (l : list A) (st : S) :
  (∀ s x, x ∈ l → I s → ∃ s', body s x = Returns s' ∧ I s') →
  I st → ∃ st', for_each body st l = Returns st' ∧ I st'.
Proof.
  revert st. induction l as [|x l IH]; intros st Hbody Hst; [by exists st|].
  destruct (Hbody st x) as (s1 & Hs1 & HI1); [by left|done|].
  destruct (IH s1) as (st' & Hrun & HI'); [|done|].
  { intros s y Hy. apply Hbody. by right. }
  exists st'. split; [|done]. simpl. by rewrite Hs1.
Qed.

Lemma ends_at_sentence_boundary_returns (p : str) :
  has_text p → ∃ b, ends_at_sentence_boundary p = Returns b.
Proof.
  unfold has_text, ends_at_sentence_boundary. intros Hp.
  destruct p as [|c p]; [by eexists|].
  destruct (last (rstrip (c :: p))) as [x|] eqn:Hl.
  - repeat case_match; by eexists.
  - by apply last_None in Hl.
Qed.

Lemma should_keep_together_returns (paras : list str) (sp : str) (art : option str) :
  Forall has_text paras → ∃ b, should_keep_together paras sp art = Returns b.
Proof.
  intros Hall. unfold should_keep_together.
  destruct (last paras) as [lp|] eqn:Hl; [|by eexists].
  apply last_Some_elem_of in Hl.
  rewrite Forall_forall in Hall.
  destruct (ends_at_sentence_boundary_returns lp (Hall lp Hl)) as (b & ->). simpl.
  repeat case_match; by eexists.
Qed.

Section returns.
Context (encode : str → option (list nat)) (cfg : Config).
Context (doc : DocumentInfo) (md : doc_metadata).

Lemma overlap_loop_returns (target : Z) (rev_paras overlap : list str) (tokens : Z) :
  Forall has_text rev_paras →
  ∃ out, overlap_loop encode target rev_paras overlap tokens = Returns out.
Proof using Type.
  revert overlap tokens. induction rev_paras as [|p ps IH]; intros overlap tokens Hall.
  { by eexists. }
  apply Forall_cons in Hall as [Hp Hps]. simpl.
  destruct (ends_at_sentence_boundary_returns p Hp) as (b & ->). simpl.
  destruct b; simpl; [|by apply IH].
  repeat case_match; try (by eexists); by apply IH.
Qed.

Lemma should_split_returns (st : state) (t sp : str) :
  Forall has_text (current_chunk_paras st) →
  ∃ b, should_split encode cfg st t sp = Returns b.
Proof using Type.
  intros Hall. unfold should_split.
  destruct (current_chunk_paras st) as [|p0 ps0] eqn:Hp; [by eexists|].
  rewrite <- Hp in *.
  assert (Hlast : ∃ b, ends_at_sentence_boundary
                         (default [] (last (current_chunk_paras st))) = Returns b).
  { destruct (last (current_chunk_paras st)) as [lp|] eqn:Hl.
    - apply last_Some_elem_of in Hl. rewrite Forall_forall in Hall.
      by apply ends_at_sentence_boundary_returns, Hall.
    - by eexists. }
  destruct Hlast as (bl & Hbl). rewrite Hbl.
  destruct (cfg_keep_related cfg).
  - destruct (should_keep_together_returns (current_chunk_paras st) sp
                (current_article st) Hall) as (b & ->). simpl.
    repeat case_match; by eexists.
  - simpl. repeat case_match; by eexists.
Qed.

Lemma emit_returns (st : state) :
  Forall has_text (current_chunk_paras st) →
  ∃ st', emit encode cfg doc md st = Returns st'
         ∧ Forall has_text (current_chunk_paras st').
Proof using Type.
  intros Hall. unfold emit. destruct (cfg_enable_overlap cfg) eqn:Hov.
  - assert (Hret : ∃ ov, calculate_overlap encode (current_chunk_paras st)
                           (cfg_overlap_tokens cfg) = Returns ov).
    { unfold calculate_overlap.
      destruct (current_chunk_paras st) as [|p0 ps0] eqn:Hp; [by eexists|].
      case_bool_decide; [by eexists|].
      apply overlap_loop_returns. by apply Forall_reverse. }
    destruct Hret as (ov & Hcalc). rewrite Hcalc. simpl.
    apply calculate_overlap_spec in Hcalc as (Hsub & _).
    destruct ov as [|o ov]; simpl.
    + eexists. split; [done|]. constructor.
    + eexists. split; [done|]. simpl.
      eapply Forall_forall. intros x Hx. rewrite Forall_forall in Hall.
      apply Hall. by eapply sublist_subseteq.
  - simpl. eexists. split; [done|]. constructor.
Qed.

Lemma step_sub_returns (kind : str * option str * list str) (st : state) (sp : str) :
  has_text sp →
  Forall has_text (current_chunk_paras st) →
  ∃ st', step_sub encode cfg doc md kind st sp = Returns st'
         ∧ Forall has_text (current_chunk_paras st').
Proof using Type.
  intros Hsp Hall. destruct kind as [[t a] ns]. unfold step_sub.
  destruct (should_split_returns st t sp Hall) as (b & ->). simpl.
  destruct b.
  - destruct (emit_returns st Hall) as (s1 & -> & Hall1). simpl.
    eexists. split; [done|].
    destruct (track_fields s1 t a ns sp) as (_ & -> & _).
    apply Forall_app. split; [done|]. by apply Forall_singleton.
  - simpl. eexists. split; [done|].
    destruct (track_fields st t a ns sp) as (_ & -> & _).
    apply Forall_app. split; [done|]. by apply Forall_singleton.
Qed.
End returns.

(** On a document that has paragraphs, each with some text in every
    part the chunker reads, [chunk_document] returns its chunks. *)
Lemma chunk_document_returns_chunks (encode : str → option (list nat)) (cfg : Config)
    (doc : DocumentInfo) :
  paragraphs doc ≠ [] →
  (∀ p sp, p ∈ paragraphs doc → sp ∈ sub_paras_of encode cfg p → has_text sp) →
  ∃ cs h, chunk_document encode cfg doc = Returns (cs, h).
Proof.
  intros Hne Htext. unfold chunk_document.
  assert (Hft : ∃ ft, first_text_of doc = Returns ft).
  { unfold first_text_of. case_bool_decide; [by eexists|].
    destruct (paragraphs doc); [done|by eexists]. }
  destruct Hft as (ft & ->). simpl. unfold run_paragraphs.
  destruct (for_each_returns (λ s, Forall has_text (current_chunk_paras s))
              (step_para encode cfg doc (document_metadata doc ft))
              (paragraphs doc) initial_state) as (st & -> & _).
  - intros s p Hp Hs. unfold step_para.
    apply for_each_returns; [|done].
    intros s1 sp Hsp Hs1. apply step_sub_returns; [|done]. by eapply Htext.
  - constructor.
  - simpl. destruct (finalize encode cfg doc (document_metadata doc ft) st) as [cs h].
    by exists cs, h.
Qed.

(** ** Character offsets without a header *)

Section offsets.
Context (encode : str → option (list nat)) (cfg : Config).
Context (doc : DocumentInfo) (md : doc_metadata).
Hypothesis no_overlap : cfg_enable_overlap cfg = false.
Hypothesis no_header : md_doc_header md = [].

Lemma located_in_app (text more : str) (c : Chunk.ChunkMetadata) :
  located_in text c → located_in (text ++ more) c.
Proof using Type.
  intros Hc rest. rewrite <- app_assoc. apply Hc.
Qed.

Lemma join_after (emitted buffer : list str) :
  buffer ≠ [] →
  ∃ pre, join nl (emitted ++ buffer) = pre ++ join nl buffer
         ∧ len pre = offset_after emitted.
Proof using Type.
  intros Hb. destruct emitted as [|e es].
  - by exists [].
  - exists (join nl (e :: es) ++ nl). rewrite join_app by done.
    split; [by rewrite <- app_assoc|].
    rewrite len_app. done.
Qed.

Lemma offset_after_nonempty (emitted : list str) :
  emitted ≠ [] → offset_after emitted = len (join nl emitted) + 1.
Proof using Type. by destruct emitted. Qed.

Lemma buffer_chunk_plain (st : state) :
  Chunk.full_text (buffer_chunk encode doc md st) = join nl (current_chunk_paras st)
  ∧ Chunk.char_start (buffer_chunk encode doc md st) = char_offset st
  ∧ Chunk.char_end (buffer_chunk encode doc md st)
    = char_offset st + len (join nl (current_chunk_paras st)).
Proof using no_header.
  destruct (buffer_chunk_fields encode doc md st)
    as (_ & _ & _ & -> & -> & _ & -> & _).
  unfold chunk_text_of. rewrite no_header.
  rewrite (bool_decide_false (@nil ascii ≠ [])) by (intros Hn; by apply Hn).
  by rewrite andb_false_r.
Qed.

Lemma all_chunk_paragraphs_nonempty (cs : list Chunk.ChunkMetadata) :
  Forall (λ c, ∃ ps, reconstructs md c ps) cs →
  cs ≠ [] → all_chunk_paragraphs cs ≠ [].
Proof using Type.
  intros Hall Hne. destruct cs as [|c cs]; [done|].
  apply Forall_cons in Hall as [(ps & Hr) _].
  unfold all_chunk_paragraphs. simpl.
  rewrite (reconstructs_paragraphs md c ps Hr).
  destruct Hr as (Hps & _). by destruct ps.
Qed.

(** Emitting the buffer keeps the offsets in step with the text. *)
Lemma emit_offsets_follow (st : state) (read : list str) (c : Chunk.ChunkMetadata)
    (offset' : Z) :
  holds_read md st read →
  offsets_follow st →
  current_chunk_paras st ≠ [] →
  c = buffer_chunk encode doc md st →
  offset' = char_offset st + len (Chunk.full_text c) + 1 →
  let emitted := all_chunk_paragraphs (chunks st ++ [c]) in
  emitted = read
  ∧ offset' = offset_after emitted
  ∧ Forall (located_in (join nl emitted)) (chunks st ++ [c])
  ∧ 0 ≤ Chunk.char_start c
  ∧ Chunk.char_end c = Chunk.char_start c + len (Chunk.full_text c)
  ∧ Chunk.char_end c = len (join nl emitted).
Proof using no_header.
  intros [HF Hread] (Hoff & Hloc & Hlast) Hne -> ->. simpl.
  destruct (buffer_chunk_plain st) as (Htext & Hstart & Hend).
  pose proof (buffer_chunk_reconstructs encode doc md st Hne) as Hr.
  rewrite all_chunk_paragraphs_snoc, (reconstructs_paragraphs md _ _ Hr).
  rewrite Htext, Hstart, Hend, Hoff.
  destruct (join_after (all_chunk_paragraphs (chunks st)) (current_chunk_paras st) Hne)
    as (pre & Hjoin & Hpre).
  assert (Hnn : 0 ≤ offset_after (all_chunk_paragraphs (chunks st))).
  { rewrite <- Hpre. apply len_nonneg. }
  assert (Hboth : all_chunk_paragraphs (chunks st) ++ current_chunk_paras st ≠ []).
  { intros He. apply app_eq_nil in He as [_ He]. done. }
  split_and!; [done| | |done|done|].
  - rewrite (offset_after_nonempty _ Hboth), Hjoin, len_app, Hpre. lia.
  - apply Forall_app. split.
    + destruct (decide (chunks st = [])) as [->|Hcs]; [constructor|].
      pose proof (all_chunk_paragraphs_nonempty _ HF Hcs) as HE.
      rewrite join_app by done.
      eapply Forall_impl; [exact Hloc|]. intros c Hc. by apply located_in_app.
    + apply Forall_singleton. intros more. rewrite Htext, Hstart, Hend, Hoff.
      rewrite Hjoin, <- Hpre, <- app_assoc. apply slice_middle.
  - rewrite Hjoin, len_app, Hpre. lia.
Qed.

Lemma step_sub_offsets_follow (kind : str * option str * list str) (st st' : state)
    (sp : str) (read : list str) :
  holds_read md st read ∧ offsets_follow st →
  step_sub encode cfg doc md kind st sp = Returns st' →
  holds_read md st' (read ++ [sp]) ∧ offsets_follow st'.
Proof using no_overlap no_header.
  intros [Hread Hfollow] Hstep.
  split; [by eapply step_sub_holds_read|].
  destruct kind as [[t a] n].
  apply step_sub_spec in Hstep as (split & s1 & Hsplit & Hs1 & ->).
  destruct (track_fields s1 t a n sp) as (Hc & _ & Ho).
  unfold offsets_follow. rewrite Hc, Ho.
  destruct split; [|by subst s1].
  apply should_split_nonempty in Hsplit.
  apply emit_spec in Hs1 as (Hcs & _ & _ & Hoff & _).
  destruct (emit_offsets_follow st read _ _ Hread Hfollow Hsplit eq_refl Hoff)
    as (_ & Hoff' & Hloc' & Hs & He & Hl).
  rewrite Hcs. split_and!; [done..|].
  intros prev Hprev. rewrite last_snoc in Hprev. by simplify_eq.
Qed.

Lemma run_offsets_follow (paras : list str) (st : state) :
  for_each (step_para encode cfg doc md) initial_state paras = Returns st →
  holds_read md st (concat (map (sub_paras_of encode cfg) paras)) ∧ offsets_follow st.
Proof using no_overlap no_header.
  intros Hrun.
  apply (for_each_history (λ s r, holds_read md s r ∧ offsets_follow s)
           (sub_paras_of encode cfg) (step_para encode cfg doc md)
           paras initial_state st []); [| |done].
  - intros s p s' read _ Hs Hp. unfold step_para in Hp.
    pose proof (for_each_history (λ s r, holds_read md s r ∧ offsets_follow s)
                  (λ sp, [sp]) (step_sub encode cfg doc md (detect_boundary cfg p))
                  (sub_paras_of encode cfg p) s s' read) as Hinner.
    rewrite concat_singletons in Hinner. apply Hinner; [|done..].
    intros s1 sp s2 r _. apply step_sub_offsets_follow.
  - split; [by split; [constructor|]|].
    split_and!; [done|constructor|]. intros prev Hprev. done.
Qed.

Lemma finalize_located (st : state) (read : list str)
    (cs : list Chunk.ChunkMetadata) (h : heap) :
  holds_read md st read →
  offsets_follow st →
  finalize encode cfg doc md st = (cs, h) →
  Forall (located_in (join nl read)) cs.
Proof using no_header.
  intros Hread Hfollow Hfin.
  pose proof Hread as [HF Hr]. pose proof Hfollow as (Hoff & Hloc & Hlast).
  apply finalize_spec in Hfin
    as [[Hnil ->]|[[Hne ->]|[Hne (prev & Hl & _ & _ & ->)]]].
  - rewrite Hnil, app_nil_r in Hr. by rewrite <- Hr.
  - destruct (emit_offsets_follow st read _ _ Hread Hfollow Hne eq_refl eq_refl)
      as (He & _ & Hloc' & _). by rewrite <- He.
  - assert (Hcs : chunks st ≠ []) by (by destruct (chunks st)).
    pose proof (all_chunk_paragraphs_nonempty _ HF Hcs) as HE.
    destruct (Hlast prev Hl) as (Hs & He & Hend).
    pose proof (removelast_last _ _ Hl) as Hsplit.
    rewrite <- Hr, join_app by done.
    destruct (buffer_chunk_plain st) as (Htext & _). rewrite Htext.
    rewrite (offset_after_nonempty _ HE) in Hoff.
    set (text := join nl (all_chunk_paragraphs (chunks st))) in *.
    set (l := removelast (chunks st)) in *.
    rewrite Hsplit in Hloc. apply Forall_app in Hloc as [Hold Hprev].
    apply Forall_inv in Hprev.
    apply Forall_app. split.
    + eapply Forall_impl; [exact Hold|]. intros c Hc. by apply located_in_app.
    + apply Forall_singleton. intros more.
      cbn [merge_into Chunk.char_start Chunk.char_end Chunk.full_text].
      specialize (Hprev []). rewrite app_nil_r in Hprev.
      assert (Hcut : text = take (Z.to_nat (Chunk.char_start prev)) text
                            ++ Chunk.full_text prev).
      { etrans; [symmetry; apply (take_drop (Z.to_nat (Chunk.char_start prev)))|].
        f_equal. rewrite <- Hprev. unfold slice.
        by rewrite take_ge by (unfold len in Hend; lia). }
      assert (Hlen : len (take (Z.to_nat (Chunk.char_start prev)) text)
                     = Chunk.char_start prev).
      { unfold len in *. rewrite length_take. lia. }
      set (before := take (Z.to_nat (Chunk.char_start prev)) text) in *.
      set (merged := Chunk.full_text prev ++ nl ++ join nl (current_chunk_paras st)).
      replace ((text ++ nl ++ join nl (current_chunk_paras st)) ++ more)
        with (before ++ merged ++ more).
      2:{ unfold merged. rewrite <- !app_assoc.
          rewrite (app_assoc before (Chunk.full_text prev)). by rewrite <- Hcut. }
      replace (char_offset st + len (join nl (current_chunk_paras st)))
        with (len before + len merged).
      2:{ unfold merged. rewrite !len_app, Hoff, Hlen. change (len nl) with 1. lia. }
      rewrite <- Hlen. apply slice_middle.
Qed.
End offsets.

(** Where the offsets do locate the chunks: in a document without a
    header, chunked without overlap and without a paragraph over the
    ceiling, the text of every chunk lies at its offsets in the text of
    the document. *)
Lemma char_offsets_locate_without_header (encode : str → option (list nat))
    (cfg : Config) (doc : DocumentInfo) (ft : str)
    (cs : list Chunk.ChunkMetadata) (h : heap) :
  cfg_enable_overlap cfg = false →
  first_text_of doc = Returns ft →
  md_doc_header (document_metadata doc ft) = [] →
  full_text doc = join nl (paragraphs doc) →
  (∀ p, p ∈ paragraphs doc → count_tokens encode p ≤ cfg_max_para_tokens cfg) →
  chunk_document encode cfg doc = Returns (cs, h) →
  Forall (located_at_offsets doc) cs.
Proof.
  intros Hno Hft Hhdr Htext Hsmall Hrun.
  apply chunk_document_returns in Hrun as (ft' & st & Hft' & Hst & Hfin).
  rewrite Hft in Hft'. injection Hft' as <-.
  destruct (run_offsets_follow encode cfg doc _ Hno Hhdr _ _ Hst) as [Hread Hfollow].
  rewrite (sub_paras_whole encode cfg _ Hsmall) in Hread.
  pose proof (finalize_located encode cfg doc _ Hhdr _ _ _ _ Hread Hfollow Hfin) as Hall.
  eapply Forall_impl; [exact Hall|].
  intros c Hc. unfold located_at_offsets. rewrite Htext.
  specialize (Hc []). by rewrite app_nil_r in Hc.
Qed.

(** * Further properties of the chunker *)

Section run_facts.
Context (encode : str → option (list nat)) (cfg : Config).
Context (doc : DocumentInfo) (md : doc_metadata).

(** A property of the state that emission and the reading of a
    sub-paragraph keep holds when the paragraphs have been read. *)
Lemma run_invariant (I : state → Prop) (paras : list str) (st : state) :
  I initial_state →
  (∀ s s', I s → current_chunk_paras s ≠ [] →
     emit encode cfg doc md s = Returns s' → I s') →
  (∀ s t a n sp, I s → I (track s t a n sp)) →
  for_each (step_para encode cfg doc md) initial_state paras = Returns st →
  I st.
Proof using Type.
  intros Hinit Hemit Htrack Hrun.
  apply (for_each_invariant I (step_para encode cfg doc md) paras initial_state st);
    [|done..].
  intros s p s' _ Hs. unfold step_para.
  destruct (detect_boundary cfg p) as [[t a] n].
  apply (for_each_invariant I); [|done].
  intros s1 sp s2 _ Hs1 Hstep.
  apply step_sub_spec in Hstep as (split & s3 & Hsplit & Hs3 & ->).
  apply Htrack. destruct split; [|by subst s3].
  eapply Hemit; [exact Hs1| |exact Hs3]. by eapply should_split_nonempty.
Qed.

Lemma run_ids_count (paras : list str) (st : state) :
  for_each (step_para encode cfg doc md) initial_state paras = Returns st →
  ids_count (chunks st).
Proof using Type.
  apply (run_invariant (λ s, ids_count (chunks s))).
  - intros i c Hc. done.
  - intros s s' Hs _ He. apply emit_spec in He as (-> & _).
    intros i c Hc. apply lookup_app_Some in Hc as [Hc|[Hi Hc]]; [by apply Hs|].
    apply list_lookup_singleton_Some in Hc as [Hz <-].
    destruct (buffer_chunk_fields encode doc md s) as (_ & _ & -> & _).
    f_equal. lia.
  - intros s t a n sp Hs. by destruct (track_fields s t a n sp) as (-> & _).
Qed.

Lemma finalize_ids_count (st : state) (cs : list Chunk.ChunkMetadata) (h : heap) :
  ids_count (chunks st) →
  finalize encode cfg doc md st = (cs, h) →
  ids_count cs.
Proof using Type.
  intros Hids Hfin.
  apply finalize_spec in Hfin
    as [[_ ->]|[[_ ->]|[_ (prev & Hl & _ & _ & ->)]]]; [done| |].
  - intros i c Hc. apply lookup_app_Some in Hc as [Hc|[Hi Hc]]; [by apply Hids|].
    apply list_lookup_singleton_Some in Hc as [Hz <-].
    destruct (buffer_chunk_fields encode doc md st) as (_ & _ & -> & _).
    f_equal. lia.
  - pose proof (removelast_last _ _ Hl) as Hsplit.
    set (l := removelast (chunks st)) in *.
    intros i c Hc. apply lookup_app_Some in Hc as [Hc|[Hi Hc]].
    + apply Hids. rewrite Hsplit. by apply lookup_app_l_Some.
    + apply list_lookup_singleton_Some in Hc as [Hz <-]. simpl.
      replace i with (length l) by lia.
      apply Hids. rewrite Hsplit, lookup_app_r by lia. by rewrite Nat.sub_diag.
Qed.
End run_facts.

(** X1: the chunks of a document are numbered 0, 1, 2, ... in the
    order in which they are returned; the orphan merge keeps the number
    of the chunk it extends. *)
Theorem chunk_ids_sequential (encode : str → option (list nat)) (cfg : Config)
    (doc : DocumentInfo) (cs : list Chunk.ChunkMetadata) (h : heap) :
  chunk_document encode cfg doc = Returns (cs, h) →
  map Chunk.chunk_id cs = map Z.of_nat (seq 0 (length cs)).
Proof.
  intros Hrun.
  apply chunk_document_returns in Hrun as (ft & st & _ & Hst & Hfin).
  pose proof (finalize_ids_count encode cfg doc _ st cs h
                (run_ids_count encode cfg doc _ _ _ Hst) Hfin) as Hids.
  apply list_eq. intros i. rewrite !list_lookup_fmap.
  destruct (cs !! i) as [c|] eqn:Hc; simpl.
  - rewrite (Hids i c Hc). apply lookup_lt_Some in Hc.
    by rewrite lookup_seq_lt.
  - apply lookup_ge_None in Hc. by rewrite lookup_seq_ge.
Qed.

Lemma chunk_ids_sequential_witness :
  ∃ cs h,
    chunk_document word_encode (sample_config 10 0 20 false 5 None) short_then_long
      = Returns (cs, h)
    ∧ map Chunk.chunk_id cs = [0; 1].
Proof.
  destruct (chunk_document word_encode (sample_config 10 0 20 false 5 None)
              short_then_long) as [[cs h]|] eqn:Hrun; [|by vm_compute in Hrun].
  pose proof (chunk_ids_sequential _ _ _ _ _ Hrun) as Hids.
  exists cs, h. split; [reflexivity|].
  rewrite Hids. vm_compute in Hrun. by injection Hrun as <- <-.
Defined.

(** X2: every chunk of a document carries the identifiers, language and
    source type of the document and the regulation name, year, document
    type and references extracted once from it. *)
Theorem chunks_share_document_metadata (encode : str → option (list nat))
    (cfg : Config) (doc : DocumentInfo) (cs : list Chunk.ChunkMetadata) (h : heap) :
  chunk_document encode cfg doc = Returns (cs, h) →
  ∃ first_text,
    first_text_of doc = Returns first_text
    ∧ Forall (shares_document_metadata doc first_text) cs.
Proof.
  intros Hrun.
  apply chunk_document_returns in Hrun as (ft & st & Hft & Hst & Hfin).
  exists ft. split; [done|].
  eapply (chunks_invariant encode cfg doc _ _ (λ _, True));
    [done| |done|done| |exact Hst|exact Hfin].
  - intros s _ _. unfold shares_document_metadata, buffer_chunk.
    by destruct (chunk_text_of (document_metadata doc ft) s).
  - intros prev s Hprev _ _ _ t mt _. exact Hprev.
Qed.

Lemma chunks_share_document_metadata_witness :
  ∃ cs h,
    chunk_document word_encode (sample_config 10 0 20 false 5 None) short_then_long
      = Returns (cs, h)
    ∧ Forall (λ c, Chunk.regulation_name c
                   = lit "Article 1 applies to all credit institutions in the Union.")
             cs.
Proof.
  destruct (chunk_document word_encode (sample_config 10 0 20 false 5 None)
              short_then_long) as [[cs h]|] eqn:Hrun; [|by vm_compute in Hrun].
  destruct (chunks_share_document_metadata _ _ _ _ _ Hrun) as (ft & Hft & Hall).
  exists cs, h. split; [reflexivity|].
  vm_compute in Hft. injection Hft as <-.
  eapply Forall_impl; [exact Hall|].
  intros c (_ & _ & _ & _ & Hname & _). rewrite Hname. by vm_compute.
Defined.

(** X3: the chunk type of every chunk is "mixed", "article", "recital"
    or "section"; a chapter heading or a plain paragraph never sets the
    type. *)
Theorem chunk_types_assigned (encode : str → option (list nat)) (cfg : Config)
    (doc : DocumentInfo) (cs : list Chunk.ChunkMetadata) (h : heap) :
  chunk_document encode cfg doc = Returns (cs, h) →
  Forall (λ c, Chunk.chunk_type c ∈ assigned_types) cs.
Proof.
  intros Hrun.
  apply chunk_document_returns in Hrun as (ft & st & _ & Hst & Hfin).
  eapply (chunks_invariant encode cfg doc _ _ (λ s, current_chunk_type s ∈ assigned_types));
    [| | | | |exact Hst|exact Hfin].
  - apply elem_of_cons. by left.
  - intros s Hs _.
    by destruct (buffer_chunk_fields encode doc (document_metadata doc ft) s)
      as (-> & _).
  - intros s s' Hs He. by apply emit_spec in He as (_ & -> & _).
  - intros p s t a n sp _ _ Hs. unfold assigned_types.
    destruct (track_context s t a n sp)
      as [(_ & _ & -> & _)|(_ & _ & [[_ ->]|[[_ ->]|(_ & _ & ->)]])]; [| | |done].
    + apply elem_of_cons. right. apply elem_of_cons. by left.
    + do 2 (apply elem_of_cons; right). apply elem_of_cons. by left.
    + do 3 (apply elem_of_cons; right). apply elem_of_cons. by left.
  - intros prev s Hprev _ _ _ t mt _. exact Hprev.
Qed.

Lemma chunk_types_assigned_witness :
  ∃ cs h,
    chunk_document word_encode (sample_config 10 0 20 false 5 None)
      (make_doc "act.json" [lit "Chapter 1"; lit "General provisions apply."])
      = Returns (cs, h)
    ∧ map Chunk.chunk_type cs = [lit "mixed"]
    ∧ Forall (λ c, Chunk.chunk_type c ∈ assigned_types) cs.
Proof.
  destruct (chunk_document word_encode (sample_config 10 0 20 false 5 None)
              (make_doc "act.json" [lit "Chapter 1"; lit "General provisions apply."]))
    as [[cs h]|] eqn:Hrun; [|by vm_compute in Hrun].
  pose proof (chunk_types_assigned _ _ _ _ _ Hrun) as Hall.
  exists cs, h. split; [reflexivity|]. split; [|exact Hall].
  vm_compute in Hrun. by injection Hrun as <- <-.
Defined.

(** ** What the character offsets measure *)

Section stream_offsets.
Context (encode : str → option (list nat)) (cfg : Config).
Context (doc : DocumentInfo) (md : doc_metadata).

Lemma buffer_chunk_span (st : state) :
  Chunk.char_start (buffer_chunk encode doc md st) = char_offset st
  ∧ Chunk.char_end (buffer_chunk encode doc md st)
    = char_offset st + len (Chunk.full_text (buffer_chunk encode doc md st)).
Proof using Type.
  by destruct (buffer_chunk_fields encode doc md st)
    as (_ & _ & _ & -> & -> & _ & -> & _).
Qed.

Lemma offset_after_nonneg (texts : list str) : 0 ≤ offset_after texts.
Proof using Type.
  destruct texts as [|t texts]; [done|].
  rewrite offset_after_nonempty by done.
  pose proof (len_nonneg (join nl (t :: texts))). lia.
Qed.

Lemma spans_in_app (text more : str) (c : Chunk.ChunkMetadata) :
  spans_in text c → spans_in (text ++ more) c.
Proof using Type.
  intros (Hloc & Hs & He). split_and!; [|done..]. by apply located_in_app.
Qed.

(** Appending the chunk made from the buffer keeps the offsets in step
    with the stream. *)
Lemma snoc_follows_stream (cs : list Chunk.ChunkMetadata) (c : Chunk.ChunkMetadata)
    (offset : Z) :
  offset = offset_after (map Chunk.full_text cs) →
  Forall (spans_in (chunk_stream cs)) cs →
  Chunk.char_start c = offset →
  Chunk.char_end c = offset + len (Chunk.full_text c) →
  offset + len (Chunk.full_text c) + 1 = offset_after (map Chunk.full_text (cs ++ [c]))
  ∧ Forall (spans_in (chunk_stream (cs ++ [c]))) (cs ++ [c])
  ∧ Chunk.char_end c = len (chunk_stream (cs ++ [c])).
Proof using Type.
  intros Hoff Hloc Hstart Hend.
  unfold chunk_stream in *. rewrite map_app. simpl map.
  destruct (join_after (map Chunk.full_text cs) [Chunk.full_text c])
    as (pre & Hjoin & Hpre); [done|]. simpl join in Hjoin.
  assert (Hne : map Chunk.full_text cs ++ [Chunk.full_text c] ≠ []).
  { intros He. by apply app_eq_nil in He as [_ He]. }
  rewrite (offset_after_nonempty _ Hne), Hjoin, len_app, Hpre, <- Hoff.
  split_and!; [lia| |lia].
  apply Forall_app. split.
  - destruct cs as [|c0 cs0]; [constructor|].
    rewrite <- Hjoin, join_app by done.
    eapply Forall_impl; [exact Hloc|]. intros x Hx. by apply spans_in_app.
  - apply Forall_singleton. split_and!.
    + intros more.
      rewrite Hstart, Hend, Hoff, <- Hpre, <- app_assoc. apply slice_middle.
    + rewrite Hstart, Hoff. apply offset_after_nonneg.
    + by rewrite Hstart, Hend.
Qed.

Lemma run_follows_stream (paras : list str) (st : state) :
  for_each (step_para encode cfg doc md) initial_state paras = Returns st →
  offsets_follow_stream st.
Proof using Type.
  apply (run_invariant encode cfg doc md offsets_follow_stream).
  - split_and!; [done|constructor|]. intros prev Hprev. done.
  - intros s s' (Hoff & Hloc & Hlast) _ He.
    apply emit_spec in He as (Hcs & _ & _ & Hoff' & _).
    destruct (buffer_chunk_span s) as [Hstart Hend].
    destruct (snoc_follows_stream (chunks s) (buffer_chunk encode doc md s)
                (char_offset s) Hoff Hloc Hstart Hend) as (Ho & Hl & He).
    unfold offsets_follow_stream. rewrite Hcs, Hoff'.
    split_and!; [done..|].
    intros prev Hprev. rewrite last_snoc in Hprev. by simplify_eq.
  - intros s t a n sp Hs. unfold offsets_follow_stream.
    by destruct (track_fields s t a n sp) as (-> & _ & ->).
Qed.

Lemma join_snoc_extend (texts : list str) (t more : str) :
  join nl (texts ++ [t ++ nl ++ more]) = join nl (texts ++ [t]) ++ nl ++ more.
Proof using Type.
  destruct texts as [|t0 texts]; [done|].
  rewrite !join_app by done. simpl join. by rewrite <- !app_assoc.
Qed.

Lemma finalize_follows_stream (st : state) (cs : list Chunk.ChunkMetadata) (h : heap) :
  offsets_follow_stream st →
  finalize encode cfg doc md st = (cs, h) →
  Forall (spans_in (chunk_stream cs)) cs.
Proof using Type.
  intros (Hoff & Hloc & Hlast) Hfin.
  apply finalize_spec in Hfin
    as [[_ ->]|[[_ ->]|[Hne (prev & Hl & _ & _ & ->)]]]; [done| |].
  - destruct (buffer_chunk_span st) as [Hstart Hend].
    by destruct (snoc_follows_stream (chunks st) (buffer_chunk encode doc md st)
                   (char_offset st) Hoff Hloc Hstart Hend) as (_ & Hall & _).
  - assert (Hcs : chunks st ≠ []) by (by destruct (chunks st)).
    rewrite (buffer_chunk_text_later encode doc md st Hcs).
    specialize (Hlast prev Hl).
    pose proof (removelast_last _ _ Hl) as Hsplit.
    set (l := removelast (chunks st)) in *.
    set (t := join nl (current_chunk_paras st)).
    set (merged := merge_into prev st t (Chunk.full_text prev ++ nl ++ t)
                     (count_tokens encode (Chunk.full_text prev ++ nl ++ t))).
    assert (Hstream : chunk_stream (l ++ [merged])
                      = chunk_stream (chunks st) ++ nl ++ t).
    { unfold chunk_stream. rewrite Hsplit, !map_app. simpl map.
      apply join_snoc_extend. }
    assert (Hoff1 : char_offset st = len (chunk_stream (chunks st)) + 1).
    { rewrite Hoff. apply offset_after_nonempty. by destruct (chunks st). }
    rewrite Hstream.
    rewrite Hsplit in Hloc at 2. apply Forall_app in Hloc as [Hold Hprev].
    apply Forall_inv in Hprev. destruct Hprev as (Hpl & Hps & Hpe).
    apply Forall_app. split.
    + eapply Forall_impl; [exact Hold|]. intros c Hc. by apply spans_in_app.
    + apply Forall_singleton.
      set (stream := chunk_stream (chunks st)) in *.
      specialize (Hpl []). rewrite app_nil_r in Hpl.
      assert (Hcut : stream = take (Z.to_nat (Chunk.char_start prev)) stream
                              ++ Chunk.full_text prev).
      { etrans; [symmetry; apply (take_drop (Z.to_nat (Chunk.char_start prev)))|].
        f_equal. rewrite <- Hpl. unfold slice.
        by rewrite take_ge by (unfold len in Hlast; lia). }
      assert (Hlen : len (take (Z.to_nat (Chunk.char_start prev)) stream)
                     = Chunk.char_start prev).
      { unfold len in *. rewrite length_take. lia. }
      set (before := take (Z.to_nat (Chunk.char_start prev)) stream) in *.
      unfold merged, spans_in, located_in.
      cbn [merge_into Chunk.char_start Chunk.char_end Chunk.full_text].
      split_and!; [|done|rewrite !len_app in *; change (len nl) with 1; lia].
      intros more.
      replace ((stream ++ nl ++ t) ++ more)
        with (before ++ (Chunk.full_text prev ++ nl ++ t) ++ more).
      2:{ rewrite <- !app_assoc.
          rewrite (app_assoc before (Chunk.full_text prev)). by rewrite <- Hcut. }
      replace (char_offset st + len t)
        with (len before + len (Chunk.full_text prev ++ nl ++ t)).
      2:{ rewrite !len_app, Hoff1, Hlen. change (len nl) with 1. lia. }
      rewrite <- Hlen. apply slice_middle.
Qed.
End stream_offsets.

(** X4: the character offsets of the chunks are offsets into the texts
    of the chunks laid end to end with one newline between them: every
    chunk's text is found there between its [char_start] and [char_end],
    which lie as far apart as the text is long, whether or not a header
    was added, paragraphs were repeated by overlap or the last buffer was
    merged. *)
Theorem char_offsets_locate_in_chunk_stream (encode : str → option (list nat))
    (cfg : Config) (doc : DocumentInfo) (cs : list Chunk.ChunkMetadata) (h : heap) :
  chunk_document encode cfg doc = Returns (cs, h) →
  Forall (λ c, slice (chunk_stream cs) (Chunk.char_start c) (Chunk.char_end c)
               = Chunk.full_text c
               ∧ 0 ≤ Chunk.char_start c
               ∧ Chunk.char_end c = Chunk.char_start c + len (Chunk.full_text c))
         cs.
Proof.
  intros Hrun.
  apply chunk_document_returns in Hrun as (ft & st & _ & Hst & Hfin).
  pose proof (finalize_follows_stream encode cfg doc _ st cs h
                (run_follows_stream encode cfg doc _ _ _ Hst) Hfin) as Hall.
  eapply Forall_impl; [exact Hall|].
  intros c (Hloc & Hs & He). split_and!; [|done..].
  specialize (Hloc []). by rewrite app_nil_r in Hloc.
Qed.

Lemma char_offsets_locate_in_chunk_stream_witness :
  ∃ cs h,
    chunk_document word_encode (sample_config 10 0 20 false 5 None) two_articles
      = Returns (cs, h)
    ∧ map (λ c, (Chunk.char_start c, Chunk.char_end c)) cs = [(0, 118); (119, 138)]
    ∧ Forall (λ c, slice (chunk_stream cs) (Chunk.char_start c) (Chunk.char_end c)
                   = Chunk.full_text c) cs.
Proof.
  destruct (chunk_document word_encode (sample_config 10 0 20 false 5 None)
              two_articles) as [[cs h]|] eqn:Hrun; [|by vm_compute in Hrun].
  pose proof (char_offsets_locate_in_chunk_stream _ _ _ _ _ Hrun) as Hall.
  exists cs, h. split; [reflexivity|]. split.
  - vm_compute in Hrun. by injection Hrun as <- <-.
  - eapply Forall_impl; [exact Hall|]. by intros c (Hc & _).
Defined.

(** ** Empty and blank input *)

(** X5: [ends_at_sentence_boundary] raises exactly on a text that is not
    empty and consists of white space only (the index [-1] of the empty
    string that [rstrip] leaves); on every other text it returns. *)
Theorem ends_at_sentence_boundary_raises (text : str) :
  ends_at_sentence_boundary text = Raises ↔ text ≠ [] ∧ rstrip text = [].
Proof.
  unfold ends_at_sentence_boundary. destruct text as [|c text].
  { split; [done|]. by intros [? _]. }
  destruct (last (rstrip (c :: text))) as [x|] eqn:Hl.
  - split.
    + repeat case_match; done.
    + intros [_ Hr]. rewrite Hr in Hl. done.
  - apply last_None in Hl. done.
Qed.

(** X6: a document without paragraphs makes [chunk_document] raise (the
    index 0 of the empty list), except for a national law, where the
    text is joined from a slice and the call returns no chunks. *)
Theorem chunk_document_without_paragraphs (encode : str → option (list nat))
    (cfg : Config) (doc : DocumentInfo) :
  paragraphs doc = [] →
  chunk_document encode cfg doc
  = if bool_decide (source_type doc = lit "national_law")
    then Returns ([], [[]]) else Raises.
Proof.
  intros Hnil. unfold chunk_document, first_text_of, run_paragraphs.
  rewrite Hnil. by case_bool_decide.
Qed.

Lemma chunk_document_without_paragraphs_witness :
  chunk_document word_encode (sample_config 10 0 20 false 5 None)
    (make_doc "empty.json" []) = Raises.
Proof.
  by rewrite (chunk_document_without_paragraphs word_encode
                (sample_config 10 0 20 false 5 None) (make_doc "empty.json" []) eq_refl).
Defined.

(** X7: with [keep_related_articles] on, a first paragraph of white
    space only, followed by a paragraph that is read, makes
    [chunk_document] raise: the cohesion check looks at the last
    character of the stripped buffer paragraph. *)
Theorem blank_first_paragraph_raises (encode : str → option (list nat)) (cfg : Config)
    (doc : DocumentInfo) (blank next : str) (rest : list str) :
  paragraphs doc = blank :: next :: rest →
  blank ≠ [] →
  rstrip blank = [] →
  cfg_keep_related cfg = true →
  count_tokens encode blank ≤ cfg_max_para_tokens cfg →
  sub_paras_of encode cfg next ≠ [] →
  chunk_document encode cfg doc = Raises.
Proof.
  intros Hdoc Hne Hblank Hkeep Hsmall Hsub.
  assert (Hends : ends_at_sentence_boundary blank = Raises)
    by (by apply ends_at_sentence_boundary_raises).
  unfold chunk_document.
  destruct (first_text_of doc) as [ft|]; [|done]. simpl.
  set (md := document_metadata doc ft).
  unfold run_paragraphs. rewrite Hdoc.
  destruct (detect_boundary cfg blank) as [[t a] n] eqn:Hd1.
  assert (Hfirst : step_para encode cfg doc md initial_state blank
                   = Returns (track initial_state t a n blank)).
  { unfold step_para, sub_paras_of. rewrite Hd1.
    by rewrite bool_decide_false by lia. }
  assert (Hbuf : current_chunk_paras (track initial_state t a n blank) = [blank]).
  { by destruct (track_fields initial_state t a n blank) as (_ & -> & _). }
  assert (Hsecond : step_para encode cfg doc md (track initial_state t a n blank) next
                    = Raises).
  { unfold step_para.
    destruct (sub_paras_of encode cfg next) as [|sp sps]; [done|].
    destruct (detect_boundary cfg next) as [[t2 a2] n2].
    cbn [for_each]. unfold step_sub, should_split.
    rewrite Hbuf, Hkeep. unfold should_keep_together.
    cbn [last]. by rewrite Hends. }
  cbn [for_each]. rewrite Hfirst. cbn [mbind outcome_bind].
  by rewrite Hsecond.
Qed.

Lemma blank_first_paragraph_raises_witness :
  chunk_document word_encode (sample_config 10 0 20 false 5 None)
    (make_doc "scan.json" [lit "  "; lit "Article 1 applies."]) = Raises.
Proof.
  apply (blank_first_paragraph_raises _ _ _ (lit "  ") (lit "Article 1 applies.") []);
    [reflexivity|discriminate|by vm_compute|reflexivity|by vm_compute|by vm_compute].
Defined.

(** X8: on a document that has paragraphs, every part of which that the
    chunker reads holds a character other than white space,
    [chunk_document] returns. *)
Theorem chunk_document_returns_on_text (encode : str → option (list nat))
    (cfg : Config) (doc : DocumentInfo) :
  paragraphs doc ≠ [] →
  (∀ p sp, p ∈ paragraphs doc → sp ∈ sub_paras_of encode cfg p → has_text sp) →
  ∃ cs h, chunk_document encode cfg doc = Returns (cs, h).
Proof. apply chunk_document_returns_chunks. Qed.

Lemma chunk_document_returns_on_text_witness :
  ∃ cs h,
    chunk_document word_encode (sample_config 10 0 20 false 5 None) two_articles
    = Returns (cs, h).
Proof.
  apply chunk_document_returns_on_text; [discriminate|].
  intros p sp Hp Hsp. simpl in Hp.
  repeat (apply elem_of_cons in Hp as [->|Hp]);
    [| |destruct (proj1 (elem_of_nil _) Hp)].
  - replace (sub_paras_of word_encode (sample_config 10 0 20 false 5 None)
               (lit "Article 1 applies to all credit institutions in the Union."))
      with [lit "Article 1 applies to all credit institutions in the Union."] in Hsp
      by (by vm_compute).
    apply list_elem_of_singleton in Hsp as ->. unfold has_text. by vm_compute.
  - replace (sub_paras_of word_encode (sample_config 10 0 20 false 5 None)
               (lit "Article 2 is short."))
      with [lit "Article 2 is short."] in Hsp by (by vm_compute).
    apply list_elem_of_singleton in Hsp as ->. unfold has_text. by vm_compute.
Defined.

(** ** Chunks are not empty *)

Lemma run_buffer_filled (encode : str → option (list nat)) (cfg : Config)
    (doc : DocumentInfo) (md : doc_metadata) (paras : list str) (st : state) :
  for_each (step_para encode cfg doc md) initial_state paras = Returns st →
  buffer_filled st (concat (map (sub_paras_of encode cfg) paras)).
Proof.
  intros Hrun.
  apply (for_each_history buffer_filled (sub_paras_of encode cfg)
           (step_para encode cfg doc md) paras initial_state st []);
    [|by split|done].
  intros s p s' read _ Hs Hp. unfold step_para in Hp.
  pose proof (for_each_history buffer_filled (λ sp, [sp])
                (step_sub encode cfg doc md (detect_boundary cfg p))
                (sub_paras_of encode cfg p) s s' read) as Hinner.
  rewrite concat_singletons in Hinner. apply Hinner; [|done..].
  intros s1 sp s2 r _ _ Hstep.
  destruct (detect_boundary cfg p) as [[t a] n].
  apply step_sub_spec in Hstep as (split & s3 & _ & _ & ->).
  split.
  - intros He. by apply app_eq_nil in He as [_ He].
  - intros _. destruct (track_fields s3 t a n sp) as (_ & -> & _).
    intros He. by apply app_eq_nil in He as [_ He].
Qed.

(** X9: every chunk holds at least one paragraph, and a document yields
    no chunk at all only if the chunker read no sub-paragraph from it. *)
Theorem chunks_not_empty (encode : str → option (list nat)) (cfg : Config)
    (doc : DocumentInfo) (cs : list Chunk.ChunkMetadata) (h : heap) :
  chunk_document encode cfg doc = Returns (cs, h) →
  Forall (λ c, chunk_paragraphs c ≠ [] ∧ Chunk.paragraph_indices c ≠ []) cs
  ∧ (cs = [] ↔ concat (map (sub_paras_of encode cfg) (paragraphs doc)) = []).
Proof.
  intros Hrun.
  apply chunk_document_returns in Hrun as (ft & st & _ & Hst & Hfin).
  split.
  - pose proof (chunks_reconstruct encode cfg doc _ _ _ _ _ Hst Hfin) as Hall.
    eapply Forall_impl; [exact Hall|].
    intros c (ps & _ & Hr).
    pose proof (reconstructs_paragraphs _ _ _ Hr) as Hps.
    destruct Hr as (Hne & _).
    assert (Hcp : chunk_paragraphs c ≠ []) by (by rewrite Hps).
    split; [done|]. intros Hidx. apply Hcp. unfold chunk_paragraphs. by rewrite Hidx.
  - destruct (run_buffer_filled encode cfg doc _ _ _ Hst) as [Hinit Hfilled].
    split.
    + intros ->.
      destruct (decide (concat (map (sub_paras_of encode cfg) (paragraphs doc)) = []))
        as [|Hread]; [done|].
      specialize (Hfilled Hread).
      apply finalize_spec in Hfin
        as [[Hnil _]|[[_ Hcs]|[_ (prev & _ & _ & _ & Hcs)]]]; [done| |].
      * symmetry in Hcs. by apply app_eq_nil in Hcs as [_ Hcs].
      * symmetry in Hcs. by apply app_eq_nil in Hcs as [_ Hcs].
    + intros Hread. rewrite (Hinit Hread) in Hfin.
      unfold finalize in Hfin. simpl in Hfin. by simplify_eq.
Qed.

Lemma chunks_not_empty_witness :
  ∃ cs h,
    chunk_document word_encode (sample_config 10 0 20 false 5 None) two_articles
      = Returns (cs, h)
    ∧ Forall (λ c, chunk_paragraphs c ≠ [] ∧ Chunk.paragraph_indices c ≠ []) cs
    ∧ cs ≠ [].
Proof.
  destruct (chunk_document word_encode (sample_config 10 0 20 false 5 None)
              two_articles) as [[cs h]|] eqn:Hrun; [|by vm_compute in Hrun].
  destruct (chunks_not_empty _ _ _ _ _ Hrun) as [Hall Hiff].
  exists cs, h. split; [reflexivity|]. split; [exact Hall|].
  intros Hnil. apply Hiff in Hnil. vm_compute in Hnil. discriminate Hnil.
Defined.

(** * Properties of the metadata extraction *)

(** X10: the references of a text come back sorted, without
    repetitions, and are exactly the references found in the text. *)
Theorem regulation_refs_sorted_unique (text : str) :
  Sorted str_le (MetadataExtractor.extract_regulation_refs text)
  ∧ NoDup (MetadataExtractor.extract_regulation_refs text)
  ∧ ∀ r, r ∈ MetadataExtractor.extract_regulation_refs text ↔ r ∈ references_in text.
Proof.
  unfold MetadataExtractor.extract_regulation_refs, MetadataExtractor.sorted.
  split_and!.
  - apply Sorted_merge_sort, _.
  - rewrite merge_sort_Permutation. apply NoDup_elements.
  - intros r. rewrite merge_sort_Permutation, elem_of_elements.
    unfold MetadataExtractor.ref_set, references_in.
    by rewrite elem_of_list_to_set.
Qed.

Lemma fold_max_largest (ys : list Z) (y0 : Z) :
  fold_left Z.max ys y0 ∈ y0 :: ys
  ∧ ∀ z, z ∈ y0 :: ys → z ≤ fold_left Z.max ys y0.
Proof.
  revert y0. induction ys as [|y ys IH]; intros y0; simpl.
  - split; [by left|]. intros z Hz. apply list_elem_of_singleton in Hz. lia.
  - destruct (IH (Z.max y0 y)) as [Hin Hle]. split.
    + apply elem_of_cons in Hin as [Hin|Hin]; [|by do 2 right].
      rewrite Hin. destruct (Z.max_spec y0 y) as [[_ ->]|[_ ->]];
        [right; by left|by left].
    + intros z Hz.
      assert (Hm : Z.max y0 y ≤ fold_left Z.max ys (Z.max y0 y))
        by (apply Hle; by left).
      apply elem_of_cons in Hz as [->|Hz]; [lia|].
      apply elem_of_cons in Hz as [->|Hz]; [lia|].
      apply Hle. by right.
Qed.

(** X11: when the text holds a year, [extract_year] returns one of the
    years found that no other year found exceeds, whatever the file name
    is. *)
Theorem extract_year_largest (text filename : str) :
  years_in text ≠ [] →
  ∃ y, MetadataExtractor.extract_year text filename = Some y
       ∧ y ∈ years_in text
       ∧ ∀ z, z ∈ years_in text → z ≤ y.
Proof.
  unfold years_in, MetadataExtractor.extract_year. intros Hne.
  destruct (findall1 false MetadataExtractor.YEAR_PATTERN text) as [|m ms] eqn:Hf;
    [done|].
  simpl. eexists. split; [done|].
  apply (fold_max_largest (map int_of_digits ms) (int_of_digits m)).
Qed.

Lemma extract_year_largest_witness :
  MetadataExtractor.extract_year
    (lit "Directive 95/46/EC of 1995 is repealed by Regulation (EU) 2016/679")
    (lit "a-1990.json") = Some 2016.
Proof.
  destruct (extract_year_largest
              (lit "Directive 95/46/EC of 1995 is repealed by Regulation (EU) 2016/679")
              (lit "a-1990.json")) as (y & Hy & Hin & Hmax).
  { by vm_compute. }
  rewrite Hy. f_equal.
  assert (H2016 : 2016 ≤ y).
  { apply Hmax. vm_compute. right. by left. }
  vm_compute in Hin.
  apply elem_of_cons in Hin as [->|Hin]; [lia|].
  apply elem_of_cons in Hin as [->|Hin]; [done|].
  destruct (proj1 (elem_of_nil _) Hin).
Defined.

Lemma join_nonempty (sep p : str) (ps : list str) : p ≠ [] → join sep (p :: ps) ≠ [].
Proof.
  intros Hp. destruct ps as [|q ps]; [done|].
  rewrite join_cons by done. by destruct p.
Qed.

Lemma digits_of_nat_nonempty (fuel n : nat) (acc : str) :
  fuel ≠ 0%nat ∨ acc ≠ [] → digits_of_nat fuel n acc ≠ [].
Proof.
  revert n acc. induction fuel as [|fuel IH]; intros n acc Hor.
  - simpl. by destruct Hor.
  - simpl. destruct (Nat.ltb n 10); [done|]. apply IH. by right.
Qed.

Lemma source_tag_empty (doc : DocumentInfo) :
  source_tag doc = []
  ↔ source_type doc ≠ lit "national_law"
    ∧ source_type doc ≠ lit "international_standard".
Proof.
  unfold source_tag. repeat case_bool_decide; naive_solver.
Qed.

Lemma join_source_tag_empty (doc : DocumentInfo) :
  join (lit " ") (source_tag doc) = [] ↔ source_tag doc = [].
Proof.
  unfold source_tag. repeat case_bool_decide; by vm_compute.
Qed.

Lemma usable_name_test (name : str) :
  bool_decide (name ≠ [])
  && negb (bool_decide (name ∈ [lit "Unknown"; lit "N/A"]))
  && negb (startswith (lit "1(") name) = true
  ↔ usable_name name.
Proof.
  unfold usable_name.
  rewrite !andb_true_iff, !negb_true_iff, bool_decide_eq_true, bool_decide_eq_false.
  naive_solver.
Qed.

Lemma known_doc_type_test (doc_type : str) :
  bool_decide (doc_type ≠ []) && bool_decide (doc_type ≠ lit "Unknown") = true
  ↔ known_doc_type doc_type.
Proof.
  unfold known_doc_type. by rewrite andb_true_iff, !bool_decide_eq_true.
Qed.

(** X12: the document header is empty exactly when there is nothing to
    put into it: no usable regulation name, no known document type, no
    year, and a source type other than national law and international
    standard.  In every other case the first chunk of the document
    starts with a header. *)
Theorem document_header_empty (doc : DocumentInfo) (name : str) (year : option Z)
    (doc_type : str) :
  create_document_header doc name year doc_type = []
  ↔ ¬ usable_name name
    ∧ ¬ known_doc_type doc_type
    ∧ year_truthy year = false
    ∧ source_type doc ≠ lit "national_law"
    ∧ source_type doc ≠ lit "international_standard".
Proof.
  assert (Hyt : year_text year ≠ []).
  { unfold year_text, str_of_int. apply digits_of_nat_nonempty. by left. }
  unfold create_document_header.
  rewrite <- source_tag_empty, <- usable_name_test, <- known_doc_type_test.
  destruct (bool_decide (name ≠ []) && _ && _) eqn:Hb.
  - assert (Hn : name ≠ []).
    { apply usable_name_test in Hb. by destruct Hb. }
    split; [|naive_solver]. intros He. exfalso. revert He.
    destruct (_ && year_truthy year).
    + by destruct name.
    + destruct (year_truthy year && _); simpl app; by apply join_nonempty.
  - destruct (bool_decide (doc_type ≠ []) && _) eqn:Hk.
    + assert (Ht : doc_type ≠ []).
      { apply known_doc_type_test in Hk. by destruct Hk. }
      split; [|naive_solver]. intros He. exfalso. revert He.
      destruct (year_truthy year && _); simpl app; by apply join_nonempty.
    + destruct (year_truthy year) eqn:Hy.
      * split; [|naive_solver]. intros He. exfalso. revert He.
        cbn [andb existsb negb app]. by apply join_nonempty.
      * cbn [andb app]. rewrite join_source_tag_empty. naive_solver.
Qed.

(** ** Matches of the year patterns *)

Lemma search_from_here (ic : bool) (r : regex) (bef aft : str) (m : re_match) :
  search_from ic r bef aft = Some m →
  ∃ bef' aft', reverse bef' ++ aft' = reverse bef ++ aft
               ∧ match_here ic r bef' aft' = Some m.
Proof.
  revert bef. induction aft as [|c aft IH]; intros bef; simpl.
  - destruct (match_here ic r bef []) eqn:Hm; [|done].
    intros [= <-]. by exists bef, [].
  - destruct (match_here ic r bef (c :: aft)) eqn:Hm.
    + intros [= <-]. by exists bef, (c :: aft).
    + intros Hs. destruct (IH _ Hs) as (bef' & aft' & Heq & Hm').
      exists bef', aft'. split; [|done].
      rewrite Heq, reverse_cons, <- app_assoc. done.
Qed.

Lemma matches_from_here (fuel : nat) (ic : bool) (r : regex) (s : str) (pos : nat)
    (m : re_match) :
  m ∈ matches_from fuel ic r s pos →
  ∃ bef aft, reverse bef ++ aft = s ∧ match_here ic r bef aft = Some m.
Proof.
  revert pos. induction fuel as [|fuel IH]; intros pos; simpl.
  - intros Hm. destruct (proj1 (elem_of_nil _) Hm).
  - destruct (Nat.ltb (length s) pos).
    { intros Hm. destruct (proj1 (elem_of_nil _) Hm). }
    destruct (search_from ic r (reverse (take pos s)) (drop pos s)) as [m0|] eqn:Hs.
    2:{ intros Hm. destruct (proj1 (elem_of_nil _) Hm). }
    intros Hm. apply elem_of_cons in Hm as [->|Hm]; [|by eapply IH].
    destruct (search_from_here _ _ _ _ _ Hs) as (bef & aft & Heq & Hh).
    exists bef, aft. split; [|done].
    by rewrite Heq, reverse_involutive, take_drop.
Qed.


Lemma rep_done {R} (ic g : bool) (a : atom) (bef aft : str) (k : str → str → option R) :
  rep ic g a 0 (Some 0%nat) bef aft k = k bef aft.
Proof. destruct aft; simpl; [done|]. by rewrite andb_false_r. Qed.

Lemma rep_post {R} (ic g : bool) (a : atom) (lo : nat) (hi : option nat)
    (bef aft : str) (k : str → str → option R) (P : R → Prop) :
  (∀ b a' r, k b a' = Some r → P r) →
  ∀ r, rep ic g a lo hi bef aft k = Some r → P r.
Proof.
  intros Hk. revert lo hi bef.
  induction aft as [|c aft IH]; intros lo hi bef r; simpl.
  - destruct (Nat.eqb lo 0); [apply Hk|done].
  - destruct (atom_match ic a c && hi_open hi).
    + destruct g.
      * destruct (rep ic true a (Nat.pred lo) (hi_pred hi) (c :: bef) aft k) eqn:Hr.
        -- intros [= <-]. by eapply IH.
        -- destruct (Nat.eqb lo 0); [apply Hk|done].
      * destruct (Nat.eqb lo 0).
        -- destruct (k bef (c :: aft)) eqn:Hs.
           ++ intros [= <-]. by eapply Hk.
           ++ apply IH.
        -- apply IH.
    + destruct (Nat.eqb lo 0); [apply Hk|done].
Qed.

Lemma is_digit_code (c : ascii) :
  is_digit c = true → (48 ≤ code c ≤ 57)%nat.
Proof.
  unfold is_digit, between. rewrite andb_true_iff, !Nat.leb_le. lia.
Qed.

Lemma span_middle (pre mid post : str) :
  span (pre ++ mid ++ post) (length pre) (length mid + length pre) = mid.
Proof.
  unfold span. rewrite app_assoc, take_app_length' by (rewrite length_app; lia).
  by rewrite drop_app_length.
Qed.

Ltac year_cases :=
  repeat match goal with
  | |- context [if ?b then _ else _] => destruct b eqn:?; try done
  | |- context [match ?x with Some _ => _ | None => _ end] =>
      destruct x eqn:?; try done
  end.

(** What a match of [YEAR_PATTERN] looks like: four characters, 19 or
    20 and two digits, captured as group 1. *)
Lemma year_match_here (bef aft : str) (m : re_match) :
  match_here false MetadataExtractor.YEAR_PATTERN bef aft = Some m →
  ∃ a b c d rest,
    aft = a :: b :: c :: d :: rest
    ∧ ((a = "1"%char ∧ b = "9"%char) ∨ (a = "2"%char ∧ b = "0"%char))
    ∧ is_digit c = true ∧ is_digit d = true
    ∧ m_caps m = [(1%nat, (length bef, (4 + length bef)%nat))].
Proof.
  unfold match_here.
  let r := eval vm_compute in MetadataExtractor.YEAR_PATTERN in
  change MetadataExtractor.YEAR_PATTERN with r.
  cbn [rmatch].
  destruct (at_word_boundary bef aft); [|done].
  destruct aft as [|a [|b [|c [|d rest]]]];
    cbn [rmatch rep atom_match Nat.eqb Nat.pred hi_pred hi_open andb existsb
         citem_match xorb orb];
    rewrite ?rep_done, ?orb_false_r, ?andb_true_r;
    unfold char_eqb.
  - done.
  - by destruct (Ascii.eqb "1" a), (Ascii.eqb "2" a).
  - by destruct (Ascii.eqb "1" a), (Ascii.eqb "9" b), (Ascii.eqb "2" a),
         (Ascii.eqb "0" b).
  - by destruct (Ascii.eqb "1" a), (Ascii.eqb "9" b), (Ascii.eqb "2" a),
         (Ascii.eqb "0" b), (is_digit c).
  - intros Hm. exists a, b, c, d, rest.
    destruct (is_digit c) eqn:Hc.
    2:{ by destruct (Ascii.eqb "1" a), (Ascii.eqb "9" b), (Ascii.eqb "2" a),
              (Ascii.eqb "0" b). }
    destruct (is_digit d) eqn:Hd.
    2:{ by destruct (Ascii.eqb "1" a), (Ascii.eqb "9" b), (Ascii.eqb "2" a),
              (Ascii.eqb "0" b). }
    destruct (at_word_boundary (d :: c :: b :: a :: bef) rest).
    2:{ by destruct (Ascii.eqb "1" a), (Ascii.eqb "9" b), (Ascii.eqb "2" a),
              (Ascii.eqb "0" b). }
    assert (Hab : (a = "1"%char ∧ b = "9"%char) ∨ (a = "2"%char ∧ b = "0"%char)).
    { destruct (Ascii.eqb "1" a) eqn:H1, (Ascii.eqb "9" b) eqn:H9,
               (Ascii.eqb "2" a) eqn:H2, (Ascii.eqb "0" b) eqn:H0; try done;
        repeat match goal with
               | H : Ascii.eqb _ _ = true |- _ => apply Ascii.eqb_eq in H
               end; subst; auto. }
    split_and!; try done.
    assert (Hcaps : m = ReMatch (length bef) (length (d :: c :: b :: a :: bef))
                          [(1%nat, (length bef, length (d :: c :: b :: a :: bef)))]).
    { destruct (Ascii.eqb "1" a), (Ascii.eqb "9" b), (Ascii.eqb "2" a),
               (Ascii.eqb "0" b); simplify_eq; done. }
    by rewrite Hcaps.
Qed.

(** What a match of [FILENAME_YEAR_PATTERN] captures: only the 19 or
    20 that its two digits follow. *)
Lemma filename_year_match_here (bef aft : str) (m : re_match) :
  match_here false MetadataExtractor.FILENAME_YEAR_PATTERN bef aft = Some m →
  ∃ a b rest,
    aft = a :: b :: rest
    ∧ ((a = "1"%char ∧ b = "9"%char) ∨ (a = "2"%char ∧ b = "0"%char))
    ∧ m_caps m = [(1%nat, (length bef, (2 + length bef)%nat))].
Proof.
  unfold match_here.
  let r := eval vm_compute in MetadataExtractor.FILENAME_YEAR_PATTERN in
  change MetadataExtractor.FILENAME_YEAR_PATTERN with r.
  cbn [rmatch].
  destruct (at_word_boundary bef aft); [|done].
  destruct aft as [|a [|b rest]];
    cbn [rmatch rep atom_match Nat.eqb Nat.pred hi_pred hi_open andb existsb
         citem_match xorb orb]; unfold char_eqb.
  - done.
  - by destruct (Ascii.eqb "1" a), (Ascii.eqb "2" a).
  - intros Hm. exists a, b, rest.
    assert (Hab : (a = "1"%char ∧ b = "9"%char) ∨ (a = "2"%char ∧ b = "0"%char)).
    { destruct (Ascii.eqb "1" a) eqn:H1, (Ascii.eqb "9" b) eqn:H9,
               (Ascii.eqb "2" a) eqn:H2, (Ascii.eqb "0" b) eqn:H0; try done;
        repeat match goal with
               | H : Ascii.eqb _ _ = true |- _ => apply Ascii.eqb_eq in H
               end; subst; auto. }
    split_and!; try done.
    destruct (Ascii.eqb "1" a), (Ascii.eqb "9" b), (Ascii.eqb "2" a),
             (Ascii.eqb "0" b); try done;
      match type of Hm with
      | context [rep ?ic ?g ?x ?lo ?hi ?bf ?af ?k] =>
          destruct (rep ic g x lo hi bf af k) as [m'|] eqn:Hr; simplify_eq;
            try (revert Hr; apply (rep_post ic g x lo hi bf af k
                   (λ m, m_caps m = [(1%nat, (length bef, (2 + length bef)%nat))]));
                 intros b0 a' r0; by destruct (at_word_boundary b0 a'); [intros [= <-]|])
      end.
Qed.

Lemma year_digits (a b c d : ascii) :
  (a = "1"%char ∧ b = "9"%char) ∨ (a = "2"%char ∧ b = "0"%char) →
  is_digit c = true → is_digit d = true →
  1900 ≤ int_of_digits [a; b; c; d] ≤ 2099.
Proof.
  intros Hab Hc%is_digit_code Hd%is_digit_code.
  unfold int_of_digits. simpl fold_left.
  destruct Hab as [[-> ->]|[-> ->]]; change (code "1") with 49%nat;
    change (code "9") with 57%nat; change (code "2") with 50%nat;
    change (code "0") with 48%nat; simpl Nat.sub; lia.
Qed.

Lemma year_matches_in_range (text x : str) :
  x ∈ findall1 false MetadataExtractor.YEAR_PATTERN text →
  1900 ≤ int_of_digits x ≤ 2099.
Proof.
  unfold findall1, all_matches. intros Hx.
  apply list_elem_of_fmap in Hx as (m & -> & Hm).
  apply matches_from_here in Hm as (bef & aft & <- & Hh).
  apply year_match_here in Hh as (a & b & c & d & rest & -> & Hab & Hc & Hd & Hcaps).
  unfold group. rewrite Hcaps. cbn [cap_lookup Nat.eqb default].
  rewrite <- (length_reverse bef).
  change (4 + length (reverse bef))%nat
    with (length [a; b; c; d] + length (reverse bef))%nat.
  change (reverse bef ++ a :: b :: c :: d :: rest)
    with (reverse bef ++ [a; b; c; d] ++ rest).
  rewrite span_middle.
  by apply year_digits.
Qed.

Lemma filename_year_matches (filename x : str) :
  x ∈ findall1 false MetadataExtractor.FILENAME_YEAR_PATTERN filename →
  int_of_digits x = 19 ∨ int_of_digits x = 20.
Proof.
  unfold findall1, all_matches. intros Hx.
  apply list_elem_of_fmap in Hx as (m & -> & Hm).
  apply matches_from_here in Hm as (bef & aft & <- & Hh).
  apply filename_year_match_here in Hh as (a & b & rest & -> & Hab & Hcaps).
  unfold group. rewrite Hcaps. cbn [cap_lookup Nat.eqb default].
  rewrite <- (length_reverse bef).
  change (2 + length (reverse bef))%nat
    with (length [a; b] + length (reverse bef))%nat.
  change (reverse bef ++ a :: b :: rest) with (reverse bef ++ [a; b] ++ rest).
  rewrite span_middle.
  destruct Hab as [[-> ->]|[-> ->]]; [by left|by right].
Qed.

(** X13: a year that [extract_year] returns from the text lies between
    1900 and 2099; a year taken from the file name is the number 19 or
    the number 20, never a year. *)
Theorem extract_year_range (text filename : str) (y : Z) :
  MetadataExtractor.extract_year text filename = Some y →
  (years_in text ≠ [] ∧ 1900 ≤ y ≤ 2099)
  ∨ (years_in text = [] ∧ (y = 19 ∨ y = 20)).
Proof.
  unfold MetadataExtractor.extract_year, years_in.
  destruct (findall1 false MetadataExtractor.YEAR_PATTERN text) as [|m ms] eqn:Hf.
  - destruct filename as [|f fs]; [done|].
    destruct (last _) as [x|] eqn:Hl; [|done]. intros [= <-]. right.
    split; [done|]. apply (filename_year_matches (f :: fs)).
    apply last_Some in Hl as [l' ->]. apply elem_of_app. right. by left.
  - intros Hy. left. split; [done|].
    destruct (fold_max_largest (map int_of_digits ms) (int_of_digits m)) as [Hin _].
    simpl in Hy. injection Hy as <-.
    rewrite <- map_cons in Hin. apply list_elem_of_fmap in Hin as (x & -> & Hx).
    apply (year_matches_in_range text). by rewrite Hf.
Qed.

Lemma extract_year_range_witness :
  MetadataExtractor.extract_year (lit "Act of 17 June 2016") (lit "act.json") = Some 2016
  ∧ ((years_in (lit "Act of 17 June 2016") ≠ [] ∧ 1900 ≤ 2016 ≤ 2099)
     ∨ (years_in (lit "Act of 17 June 2016") = [] ∧ (2016 = 19 ∨ 2016 = 20))).
Proof.
  split; [by vm_compute|].
  apply (extract_year_range (lit "Act of 17 June 2016") (lit "act.json")).
  by vm_compute.
Defined.

(** * Properties of sentence splitting and of the default indices *)

Section sentences.
Context (encode : str → option (list nat)).

Lemma tokens_sum_snoc (ps : list str) (p : str) :
  tokens_sum encode (ps ++ [p]) = tokens_sum encode ps + count_tokens encode p.
Proof.
  unfold tokens_sum. induction ps as [|q ps IH]; simpl; [lia|]. rewrite IH. lia.
Qed.

Lemma kept_sentences_cons (s : str) (rest : list str) :
  kept_sentences (s :: rest)
  = (if bool_decide (strip s ≠ []) then [strip s] else []) ++ kept_sentences rest.
Proof.
  unfold kept_sentences. rewrite map_cons, filter_cons.
  case_decide; case_bool_decide; done.
Qed.

Lemma pack_sentences_groups (max_tokens : Z) (sentences chunks current : list str)
    (current_tokens : Z) :
  current_tokens = tokens_sum encode current →
  (current ≠ [] → tokens_sum encode current ≤ max_tokens) →
  ∃ groups,
    pack_sentences encode max_tokens sentences chunks current current_tokens
    = chunks ++ map (join (lit " ")) groups
    ∧ concat groups = current ++ kept_sentences sentences
    ∧ Forall (sentence_group encode max_tokens) groups.
Proof.
  revert chunks current current_tokens.
  induction sentences as [|s0 rest IH]; intros chunks current tokens Htok Hmax.
  - simpl. destruct current as [|c cs].
    + exists []. simpl. by rewrite app_nil_r.
    + exists [c :: cs]. split_and!; [reflexivity|reflexivity|].
      apply Forall_singleton. split; [done|]. left. by apply Hmax.
  - rewrite kept_sentences_cons. cbn [pack_sentences].
    destruct (strip s0) as [|a s] eqn:Hs.
    { rewrite (bool_decide_false (@nil ascii ≠ [])) by (intros Hnn; by apply Hnn).
      by apply IH. }
    rewrite (bool_decide_true (a :: s ≠ [])) by done.
    set (sentence := a :: s) in *.
    case_bool_decide as Hover.
    + case_bool_decide as Hcur; cbv beta iota zeta.
      * destruct (IH ((chunks ++ [join (lit " ") current]) ++ [sentence]) [] 0)
          as (groups & Hp & Hc & HF); [done|done|].
        exists (current :: [sentence] :: groups). split_and!.
        -- etrans; [exact Hp|]. by rewrite <- !app_assoc.
        -- simpl. rewrite Hc. done.
        -- apply Forall_cons. split; [split; [done|left; by apply Hmax]|].
           apply Forall_cons. split; [|done]. split; [done|]. right. by exists sentence.
      * destruct (IH (chunks ++ [sentence]) current tokens) as (groups & Hp & Hc & HF);
          [done|done|].
        subst current.
        exists ([sentence] :: groups). split_and!.
        -- etrans; [exact Hp|]. by rewrite <- app_assoc.
        -- simpl. by rewrite Hc.
        -- apply Forall_cons. split; [|done]. split; [done|]. right. by exists sentence.
    + destruct (bool_decide (current ≠ []) && bool_decide (max_tokens < tokens + _))
        eqn:Hfull.
      * apply andb_true_iff in Hfull as [Hcur%bool_decide_eq_true _].
        destruct (IH (chunks ++ [join (lit " ") current]) [sentence]
                     (count_tokens encode sentence)) as (groups & Hp & Hc & HF).
        { unfold tokens_sum. simpl. lia. }
        { intros _. unfold tokens_sum. simpl. lia. }
        exists (current :: groups). split_and!.
        -- etrans; [exact Hp|]. by rewrite <- app_assoc.
        -- simpl. by rewrite Hc.
        -- apply Forall_cons. split; [|done]. split; [done|]. left. by apply Hmax.
      * destruct (IH chunks (current ++ [sentence])
                     (tokens + count_tokens encode sentence)) as (groups & Hp & Hc & HF).
        { rewrite tokens_sum_snoc. lia. }
        { intros _. rewrite tokens_sum_snoc.
          apply andb_false_iff in Hfull as [Hcur|Hsum].
          - apply bool_decide_eq_false in Hcur. apply dec_stable in Hcur.
            subst current. unfold tokens_sum. simpl. lia.
          - apply bool_decide_eq_false in Hsum. lia. }
        exists groups. split_and!; [done| |done].
        rewrite Hc. by rewrite <- app_assoc.
Qed.

(** X14: [split_at_sentences] returns the text itself when the sentence
    pattern splits nothing off; otherwise it packs the stripped, non-empty
    sentences into groups joined by a space: no sentence is dropped,
    repeated or moved, and every group either stays within [max_tokens]
    by the sum of its sentences' token counts or is one sentence that
    alone exceeds it. *)
Theorem split_at_sentences_groups (text : str) (max_tokens : Z) :
  let sentences := re_split false sentence_pattern text in
  (length sentences ≤ 1)%nat ∧ split_at_sentences encode text max_tokens = [text]
  ∨ (1 < length sentences)%nat
    ∧ ∃ groups,
        split_at_sentences encode text max_tokens = map (join (lit " ")) groups
        ∧ concat groups = kept_sentences sentences
        ∧ Forall (sentence_group encode max_tokens) groups.
Proof.
  intros sentences. unfold split_at_sentences. fold sentences.
  destruct sentences as [|s1 [|s2 rest]] eqn:Hs.
  - left. split; [simpl; lia|done].
  - left. split; [simpl; lia|done].
  - right. split; [simpl; lia|].
    destruct (pack_sentences_groups max_tokens (s1 :: s2 :: rest) [] [] 0)
      as (groups & Hp & Hc & HF); [done|done|].
    by exists groups.
Qed.
End sentences.

Lemma split_on_nonempty (sep : ascii) (s : str) : split_on sep s ≠ [].
Proof.
  destruct s as [|c s]; simpl; [done|].
  destruct (char_eqb c sep); [done|]. by destruct (split_on sep s).
Qed.

Lemma join_split_on (sep : ascii) (s : str) : join [sep] (split_on sep s) = s.
Proof.
  induction s as [|c s IH]; [done|]. simpl split_on.
  pose proof (split_on_nonempty sep s) as Hne.
  destruct (char_eqb c sep) eqn:Hc.
  - rewrite join_cons by done. rewrite IH. simpl.
    apply Ascii.eqb_eq in Hc. by rewrite Hc.
  - destruct (split_on sep s) as [|w ws]; [done|].
    destruct ws as [|w' ws]; simpl in *; by rewrite IH.
Qed.

Lemma split_on_free (sep : ascii) (s : str) :
  Forall (λ p, sep ∉ p) (split_on sep s).
Proof.
  induction s as [|c s IH]; simpl.
  - apply Forall_singleton. apply not_elem_of_nil.
  - destruct (char_eqb c sep) eqn:Hc.
    + apply Forall_cons. split; [apply not_elem_of_nil|done].
    + destruct (split_on sep s) as [|w ws].
      * apply Forall_singleton. intros Hin. apply list_elem_of_singleton in Hin.
        subst. unfold char_eqb in Hc. by rewrite Ascii.eqb_refl in Hc.
      * apply Forall_cons in IH as [Hw Hws]. apply Forall_cons. split; [|done].
        intros Hin. apply elem_of_cons in Hin as [->|Hin]; [|done].
        unfold char_eqb in Hc. by rewrite Ascii.eqb_refl in Hc.
Qed.

(** X15: when [_create_chunk_metadata] is given no paragraph indices, the
    indices it computes cut the chunk text exactly at its newlines: the
    pieces they locate hold no newline, and joined by newlines they give
    the chunk text back. *)
Theorem default_indices_cut_at_newlines (encode : str → option (list nat))
    (doc : DocumentInfo) (chunk_id : Z) (chunk_text chunk_type : str)
    (article_number : option str) (paragraph_numbers : loc) (char_start : Z)
    (md : doc_metadata) :
  let c := create_chunk_metadata encode doc chunk_id chunk_text chunk_type
             article_number paragraph_numbers char_start md None in
  chunk_paragraphs c = split_on newline chunk_text
  ∧ join nl (chunk_paragraphs c) = chunk_text
  ∧ Forall (λ p, newline ∉ p) (chunk_paragraphs c).
Proof.
  intros c.
  assert (Hc : chunk_paragraphs c = split_on newline chunk_text).
  { unfold chunk_paragraphs, c, create_chunk_metadata, split_indices. simpl.
    pose proof (slices_para_indices (split_on newline chunk_text) [] []) as H.
    rewrite app_nil_l, app_nil_r in H.
    unfold nl in H. rewrite join_split_on in H. exact H. }
  rewrite Hc. split_and!; [done|apply join_split_on|apply split_on_free].
Qed.

(** * Properties of the file writer *)


Lemma digit_code (d : nat) :
  (d < 10)%nat → (code (ascii_of_nat (48 + d)) - 48)%nat = d.
Proof.
  intros Hd. unfold code. rewrite nat_ascii_embedding by lia. lia.
Qed.

Lemma int_of_digits_fold (s : str) (a : Z) :
  fold_left (λ acc c, 10 * acc + Z.of_nat (code c - 48)) s a
  = a * 10 ^ Z.of_nat (length s) + int_of_digits s.
Proof.
  unfold int_of_digits. revert a.
  induction s as [|c s IH]; intros a; simpl fold_left.
  - simpl. lia.
  - rewrite (IH (10 * a + _)), (IH (10 * 0 + _)).
    rewrite length_cons, Nat2Z.inj_succ, Z.pow_succ_r by lia. lia.
Qed.

Lemma int_of_digits_cons (c : ascii) (s : str) :
  int_of_digits (c :: s)
  = Z.of_nat (code c - 48) * 10 ^ Z.of_nat (length s) + int_of_digits s.
Proof.
  unfold int_of_digits at 1. simpl fold_left. rewrite int_of_digits_fold. lia.
Qed.

Lemma digits_of_nat_value (fuel n : nat) (acc : str) :
  (n < fuel)%nat →
  int_of_digits (digits_of_nat fuel n acc)
  = Z.of_nat n * 10 ^ Z.of_nat (length acc) + int_of_digits acc.
Proof.
  revert n acc. induction fuel as [|fuel IH]; intros n acc Hn; [lia|].
  cbn [digits_of_nat].
  pose proof (Nat.mod_upper_bound n 10 ltac:(lia)) as Hmod.
  pose proof (Nat.div_mod_eq n 10) as Hdiv.
  destruct (Nat.ltb n 10) eqn:Hlt.
  - apply Nat.ltb_lt in Hlt. rewrite int_of_digits_cons, digit_code by done.
    rewrite Nat.mod_small by done. done.
  - apply Nat.ltb_ge in Hlt. rewrite IH by (apply Nat.Div0.div_lt_upper_bound; lia).
    rewrite int_of_digits_cons, digit_code by done.
    rewrite length_cons, Nat2Z.inj_succ, Z.pow_succ_r by lia.
    assert (Z.of_nat n = 10 * Z.of_nat (n / 10) + Z.of_nat (n mod 10)) by lia.
    nia.
Qed.

Lemma int_of_str_of_int (n : Z) : 0 ≤ n → int_of_digits (str_of_int n) = n.
Proof.
  intros Hn. unfold str_of_int. rewrite digits_of_nat_value by lia.
  simpl. unfold int_of_digits. simpl. lia.
Qed.

Lemma int_of_digits_zeros (k : nat) (s : str) :
  int_of_digits (replicate k ("0"%char) ++ s) = int_of_digits s.
Proof.
  induction k as [|k IH]; [done|].
  simpl replicate. rewrite <- app_comm_cons, int_of_digits_cons, IH.
  change (code "0" - 48)%nat with 0%nat. lia.
Qed.

Lemma int_of_pad6 (n : Z) : 0 ≤ n → int_of_digits (pad6 n) = n.
Proof.
  intros Hn. unfold pad6. by rewrite int_of_digits_zeros, int_of_str_of_int.
Qed.

Lemma batch_filename_inj (m n : Z) :
  0 ≤ m → 0 ≤ n → batch_filename m = batch_filename n → m = n.
Proof.
  unfold batch_filename. intros Hm Hn Heq.
  apply app_inv_head in Heq. apply app_inv_tail in Heq.
  rewrite <- (int_of_pad6 m), <- (int_of_pad6 n) by done. by rewrite Heq.
Qed.

Lemma counters_S (counter : Z) (n : nat) :
  counters counter (S n) = counter :: counters (counter + 1) n.
Proof.
  unfold counters. cbn [seq map]. rewrite Z.add_0_r. f_equal.
  rewrite <- seq_shift, map_map. apply map_ext. intros i. lia.
Qed.

Section writer_facts.
Context {T : Type} (dumps : T → str).

Lemma list_slice_take_drop {A} (l : list A) (a n : Z) :
  0 ≤ a → 0 ≤ n →
  list_slice l a (a + n) = take (Z.to_nat n) (drop (Z.to_nat a) l).
Proof.
  intros Ha Hn. unfold list_slice. rewrite Z2Nat.inj_add by done.
  rewrite take_drop_commute. do 2 f_equal; lia.
Qed.

Lemma write_loop (chunks : list T) (batch_size : Z) (fuel : nat)
    (start : Z) (written : list str) (w : LocalFileWriter) :
  0 < batch_size → 0 ≤ start → 0 ≤ file_counter w →
  Z.of_nat (length chunks) - start ≤ Z.of_nat fuel →
  ∃ batches w',
    fold_left (write_batch dumps chunks batch_size)
              (range_from fuel start (Z.of_nat (length chunks)) batch_size)
              (written, w)
    = (written ++ map batch_filename (counters (file_counter w) (length batches)), w')
    ∧ concat batches = drop (Z.to_nat start) chunks
    ∧ full_batches batch_size batches
    ∧ file_counter w' = file_counter w + Z.of_nat (length batches)
    ∧ (∀ i b, batches !! i = Some b →
         output_files w' !! batch_filename (file_counter w + Z.of_nat i)
         = Some (join nl (map dumps b)))
    ∧ (∀ name,
         (∀ i, (i < length batches)%nat →
               name ≠ batch_filename (file_counter w + Z.of_nat i)) →
         output_files w' !! name = output_files w !! name).
Proof.
  intros Hbs. revert start written w.
  induction fuel as [|fuel IH]; intros start written w Hstart Hfc Hfuel.
  - exists [], w. simpl. rewrite app_nil_r.
    split_and!; try done; try (rewrite drop_ge by lia; done);
      try (intros i b Hb; by rewrite lookup_nil in Hb); lia.
  - cbn [range_from]. case_bool_decide as Hlt.
    2:{ exists [], w. simpl. rewrite app_nil_r.
        split_and!; try done; try (rewrite drop_ge by lia; done);
          try (intros i b Hb; by rewrite lookup_nil in Hb); lia. }
    cbn [fold_left write_batch].
    set (batch := list_slice chunks start (start + batch_size)).
    set (w1 := {| output_files := <[batch_filename (file_counter w) :=
                                      join nl (map dumps batch)]> (output_files w);
                  file_counter := file_counter w + 1 |}).
    assert (Hbatch : batch = take (Z.to_nat batch_size) (drop (Z.to_nat start) chunks)).
    { unfold batch. apply list_slice_take_drop; lia. }
    assert (Hlen : Z.of_nat (length batch)
                   = Z.min batch_size (Z.of_nat (length chunks) - start)).
    { rewrite Hbatch, length_take, length_drop. lia. }
    destruct (IH (start + batch_size) (written ++ [batch_filename (file_counter w)]) w1)
      as (batches & w' & Hfold & Hcat & Hfull & Hcount & Hfiles & Hrest);
      [lia|simpl; lia|lia|].
    exists (batch :: batches), w'. split_and!.
    + rewrite Hfold. rewrite <- app_assoc. cbn [length].
      by rewrite counters_S.
    + cbn [concat]. rewrite Hcat, Hbatch.
      rewrite Z2Nat.inj_add by lia. rewrite <- drop_drop.
      apply take_drop.
    + intros i b Hb. destruct i as [|i].
      * injection Hb as <-. split_and!.
        -- intros He. rewrite He in Hlen. simpl in Hlen. lia.
        -- lia.
        -- cbn [length]. intros Hmore.
           destruct batches as [|b' batches']; [simpl in Hmore; lia|].
           destruct (Hfull 0%nat b' eq_refl) as (Hne & _ & _).
           assert (Hdrop : drop (Z.to_nat (start + batch_size)) chunks ≠ []).
           { rewrite <- Hcat. cbn [concat]. by destruct b'. }
           assert (start + batch_size < Z.of_nat (length chunks)).
           { destruct (decide (start + batch_size < Z.of_nat (length chunks)));
               [done|]. exfalso. apply Hdrop. apply drop_ge. lia. }
           lia.
      * destruct (Hfull i b Hb) as (Hne & Hle & Hex). split_and!; [done|done|].
        cbn [length]. intros Hmore. apply Hex. lia.
    + rewrite Hcount. subst w1. cbn [file_counter length]. lia.
    + intros i b Hb. destruct i as [|i].
      * injection Hb as <-. rewrite Hrest.
        -- subst w1. cbn [output_files]. rewrite Z.add_0_r. apply lookup_insert_eq.
        -- intros i Hi Heq. subst w1. cbn [file_counter] in Heq.
           apply batch_filename_inj in Heq; lia.
      * specialize (Hfiles i b Hb). subst w1. cbn [file_counter] in Hfiles.
        rewrite <- Hfiles. f_equal. f_equal. lia.
    + intros name Hname. rewrite Hrest.
      * subst w1. cbn [output_files]. apply lookup_insert_ne.
        specialize (Hname 0%nat). rewrite Z.add_0_r in Hname.
        intros Heq. apply Hname; [cbn [length]; lia|done].
      * intros i Hi. subst w1. cbn [file_counter].
        specialize (Hname (S i)). replace (file_counter w + 1 + Z.of_nat i)
          with (file_counter w + Z.of_nat (S i)) by lia.
        apply Hname. cbn [length]. lia.
Qed.

Lemma write_chunks_spec (w : LocalFileWriter) (chunks : list T)
    (batch_size : Z) :
  0 < batch_size → 0 ≤ file_counter w →
  ∃ batches w',
    write_chunks dumps w chunks batch_size
    = Returns (map batch_filename (counters (file_counter w) (length batches)), w')
    ∧ concat batches = chunks
    ∧ full_batches batch_size batches
    ∧ file_counter w' = file_counter w + Z.of_nat (length batches)
    ∧ (∀ i b, batches !! i = Some b →
         output_files w' !! batch_filename (file_counter w + Z.of_nat i)
         = Some (join nl (map dumps b)))
    ∧ (∀ name,
         (∀ i, (i < length batches)%nat →
               name ≠ batch_filename (file_counter w + Z.of_nat i)) →
         output_files w' !! name = output_files w !! name).
Proof.
  intros Hbs Hfc. unfold write_chunks.
  destruct chunks as [|c chunks].
  - exists [], w. simpl.
    split_and!; try done; try (intros i b Hb; by rewrite lookup_nil in Hb); lia.
  - rewrite bool_decide_false by lia. unfold range_step.
    rewrite bool_decide_true by done.
    destruct (write_loop (c :: chunks) batch_size
                (Z.to_nat (Z.of_nat (length (c :: chunks)))) 0 [] w)
      as (batches & w' & Hfold & Hcat & Hrest); [done|done|done|lia|].
    exists batches, w'. split; [by rewrite Hfold|]. split; [|done].
    by rewrite Hcat.
Qed.



(** X17: a batch size of zero makes [write_chunks] raise, and with a
    negative batch size it returns without writing anything: the chunks
    are dropped without an error. *)
Theorem write_chunks_without_batches (w : LocalFileWriter)
    (chunks : list T) (batch_size : Z) :
  chunks ≠ [] → batch_size ≤ 0 →
  write_chunks dumps w chunks batch_size
  = if bool_decide (batch_size = 0) then Raises else Returns ([], w).
Proof.
  intros Hne Hbs. unfold write_chunks. destruct chunks as [|c chunks]; [done|].
  case_bool_decide; [done|]. unfold range_step.
  by rewrite bool_decide_false by lia.
Qed.
End writer_facts.


Lemma write_chunks_without_batches_witness :
  write_chunks Chunk.full_text empty_writer three_lines (-1)
  = Returns ([], empty_writer).
Proof.
  apply (write_chunks_without_batches Chunk.full_text empty_writer three_lines (-1));
    [done|lia].
Defined.


(** * Properties of the configuration and of the document scanner *)


(** X18: [Config.get] returns the value at the path of keys when every
    key on the way is there, whatever the default is, also when that
    value is null; when the path breaks off it returns the default,
    provided the default is not itself a dict. *)
Theorem config_get_value_at (value : json) (keys : list str) (default : json) :
  is_dict default = false →
  config_get value keys default = from_option id default (value_at value keys).
Proof.
  intros Hd. revert value. induction keys as [|key keys IH]; intros value; [done|].
  cbn [config_get value_at]. destruct value; try done.
  destruct (assoc key items) as [v|]; cbn [from_option id].
  - apply IH.
  - rewrite IH. destruct keys as [|k ks]; [done|].
    cbn [value_at]. by destruct default.
Qed.

Lemma config_get_value_at_witness :
  config_get nested_config [lit "output"; lit "batch_size"] (JNum 1000) = JNum 500
  ∧ config_get nested_config [lit "logging"; lit "level"] (JStr (lit "INFO")) = JNull
  ∧ config_get nested_config [lit "gcp"; lit "bucket_name"] JNull = JNull.
Proof.
  split_and!.
  - by rewrite (config_get_value_at nested_config [lit "output"; lit "batch_size"]
                  (JNum 1000) eq_refl).
  - by rewrite (config_get_value_at nested_config [lit "logging"; lit "level"]
                  (JStr (lit "INFO")) eq_refl).
  - by rewrite (config_get_value_at nested_config [lit "gcp"; lit "bucket_name"]
                  JNull eq_refl).
Defined.

Lemma as_strings_length (values : list json) (ss : list str) :
  as_strings values = Returns ss → length ss = length values.
Proof.
  revert ss. induction values as [|v values IH]; intros ss; simpl.
  - by intros [= <-].
  - destruct v; try done.
    destruct (as_strings values) as [ss'|]; [|done].
    intros [= <-]. simpl. f_equal. by apply IH.
Qed.

Lemma detect_language_known (text_sample : str) :
  detect_language text_sample ∈ languages.
Proof.
  unfold detect_language, languages.
  repeat case_bool_decide; repeat first [by left|right].
Qed.

Lemma index_of_lookup (x : str) (l : list str) (i : nat) :
  index_of x l = Some i →
  l !! i = Some x ∧ x ∉ take i l.
Proof.
  revert i. induction l as [|y l IH]; intros i; simpl; [done|].
  case_bool_decide as Hy.
  - intros [= <-]. subst. split; [done|]. simpl. apply not_elem_of_nil.
  - destruct (index_of x l) as [j|]; [|done]. simpl. intros [= <-].
    destruct (IH j eq_refl) as [Hl Hn]. split; [done|].
    simpl. intros Hin. apply elem_of_cons in Hin as [->|Hin]; [done|by apply Hn].
Qed.

Lemma index_of_none (x : str) (l : list str) :
  index_of x l = None ↔ x ∉ l.
Proof.
  induction l as [|y l IH]; simpl.
  - split; [intros _; apply not_elem_of_nil|done].
  - case_bool_decide as Hy.
    + subst. split; [done|]. intros Hn. exfalso. apply Hn. by left.
    + destruct (index_of x l) as [j|]; simpl.
      * split; [done|]. intros Hn. exfalso.
        assert (Hx : x ∉ l) by (intros Hin; apply Hn; by right).
        apply IH in Hx. done.
      * split; [|done]. intros _ Hin.
        apply elem_of_cons in Hin as [->|Hin]; [done|].
        by apply (proj1 IH).
Qed.

(** The component that follows the first occurrence of a directory
    name in the parts of a path. *)
Lemma follows_first (x : str) (l : list str) :
  (∃ i y, index_of x l = Some i ∧ l !! S i = Some y) ↔ x ∈ removelast l.
Proof.
  split.
  - intros (i & y & Hi & Hy). apply index_of_lookup in Hi as [Hx _].
    apply list_elem_of_lookup. exists i.
    assert (Hlen : (S i < length l)%nat) by (by eapply lookup_lt_Some).
    rewrite removelast_firstn_len. rewrite lookup_take_lt by lia. done.
  - intros Hin. rewrite removelast_firstn_len in Hin.
    apply list_elem_of_lookup in Hin as [j Hj].
    assert (Hjl : (j < Nat.pred (length l))%nat).
    { apply lookup_lt_Some in Hj. rewrite length_take in Hj. lia. }
    rewrite lookup_take_lt in Hj by done.
    destruct (index_of x l) as [i|] eqn:Hi.
    + destruct (index_of_lookup _ _ _ Hi) as [Hx Hn].
      assert (Hij : (i ≤ j)%nat).
      { destruct (decide (i ≤ j)%nat); [done|]. exfalso. apply Hn.
        apply list_elem_of_lookup. exists j. rewrite lookup_take_lt by lia. done. }
      destruct (lookup_lt_is_Some_2 l (S i)) as [y Hy]; [lia|].
      by exists i, y.
    + apply index_of_none in Hi. exfalso. apply Hi.
      apply list_elem_of_lookup. by exists j.
Qed.

Section scanner_facts.
Context (md5_hexdigest : str → str).

Lemma source_info_cases (file_path : Path.t) (parts : list str) :
  let info := extract_source_info md5_hexdigest file_path parts in
  let eu := lit "output" ∈ removelast parts in
  let national := lit "other_national_laws" ∈ parts in
  let standard := lit "other_regulation_standards" ∈ parts in
  (eu ∧ info.1 = lit "eu_legislation"
     ∧ ∃ i, index_of (lit "output") parts = Some i ∧ parts !! S i = Some info.2)
  ∨ (¬ eu ∧ national ∧ info.1 = lit "national_law")
  ∨ (¬ eu ∧ ¬ national ∧ standard ∧ info.1 = lit "international_standard")
  ∨ (¬ eu ∧ ¬ national ∧ ¬ standard ∧ info.1 = lit "unknown").
Proof.
  intros info eu national standard.
  subst info eu national standard. unfold extract_source_info.
  pose proof (follows_first (lit "output") parts) as Heu.
  destruct (index_of (lit "output") parts) as [i|] eqn:Hi;
    [destruct (parts !! S i) as [y|] eqn:Hy|].
  - left. split_and!; [apply Heu; by exists i, y|done|by exists i].
  - right.
    assert (Hin : lit "output" ∉ removelast parts).
    { intros Hin. apply Heu in Hin as (j & z & Hj & Hz).
      injection Hj as <-. by rewrite Hy in Hz. }
    case_bool_decide as Hnat; [by left|]. right.
    destruct (index_of (lit "other_regulation_standards") parts) as [k|] eqn:Hk.
    + left. split_and!; [done|done| |done].
      apply index_of_lookup in Hk as [Hk _]. by eapply list_elem_of_lookup_2.
    + right. apply index_of_none in Hk. done.
  - right.
    assert (Hin : lit "output" ∉ removelast parts).
    { intros Hin. by apply Heu in Hin as (j & z & Hj & Hz). }
    case_bool_decide as Hnat; [by left|]. right.
    destruct (index_of (lit "other_regulation_standards") parts) as [k|] eqn:Hk.
    + left. split_and!; [done|done| |done].
      apply index_of_lookup in Hk as [Hk _]. by eapply list_elem_of_lookup_2.
    + right. apply index_of_none in Hk. done.
Qed.

Lemma source_type_known (file_path : Path.t) (parts : list str) :
  (extract_source_info md5_hexdigest file_path parts).1 ∈ source_types.
Proof.
  unfold source_types.
  destruct (source_info_cases file_path parts)
    as [(_ & -> & _)|[(_ & _ & ->)|[(_ & _ & _ & ->)|(_ & _ & _ & ->)]]].
  - by left.
  - right. by left.
  - do 2 right. by left.
  - do 3 right. by left.
Qed.

(** X19: the source type of a file follows from the directories of its
    path alone, in this order: a component after a directory 'output'
    makes it EU legislation, with the component after the first 'output'
    as document id; otherwise 'other_national_laws' anywhere in the path
    makes it a national law; otherwise 'other_regulation_standards' an
    international standard; otherwise it is unknown. *)
Theorem source_type_by_directory (file_path : Path.t) (parts : list str) :
  let info := extract_source_info md5_hexdigest file_path parts in
  let eu := lit "output" ∈ removelast parts in
  let national := lit "other_national_laws" ∈ parts in
  let standard := lit "other_regulation_standards" ∈ parts in
  (info.1 = lit "eu_legislation" ↔ eu)
  ∧ (info.1 = lit "national_law" ↔ ¬ eu ∧ national)
  ∧ (info.1 = lit "international_standard" ↔ ¬ eu ∧ ¬ national ∧ standard)
  ∧ (info.1 = lit "unknown" ↔ ¬ eu ∧ ¬ national ∧ ¬ standard)
  ∧ (eu → ∃ i, index_of (lit "output") parts = Some i ∧ parts !! S i = Some info.2).
Proof.
  intros info eu national standard.
  pose proof (source_info_cases file_path parts) as Hcases.
  assert (H1 : lit "eu_legislation" ≠ lit "national_law") by (by vm_compute).
  assert (H2 : lit "eu_legislation" ≠ lit "international_standard") by (by vm_compute).
  assert (H3 : lit "eu_legislation" ≠ lit "unknown") by (by vm_compute).
  assert (H4 : lit "national_law" ≠ lit "international_standard") by (by vm_compute).
  assert (H5 : lit "national_law" ≠ lit "unknown") by (by vm_compute).
  assert (H6 : lit "international_standard" ≠ lit "unknown") by (by vm_compute).
  destruct Hcases as [(He & Hi & Hid)|[(He & Hn & Hi)|[(He & Hn & Hs & Hi)
                                                     |(He & Hn & Hs & Hi)]]];
    fold info in Hi; rewrite Hi;
    split_and!; try split; try tauto; try congruence.
Qed.

Lemma load_document_run_some (path : Path.t) (data : json) (doc : DocumentInfo) :
  load_document_run md5_hexdigest path data = Returns (Some doc) →
  ∃ collected,
    collected ≠ []
    ∧ as_strings collected = Returns (paragraphs doc)
    ∧ full_text doc = join nl (paragraphs doc)
    ∧ filename doc = Path.name path
    ∧ file_path doc = Path.str_of path
    ∧ language doc = detect_language (take 1000 (full_text doc))
    ∧ (source_type doc, document_id doc)
      = extract_source_info md5_hexdigest path (Path.parts path).
Proof.
  unfold load_document_run. intros Hrun.
  apply bind_returns in Hrun as (pages_value & _ & Hrun).
  apply bind_returns in Hrun as (pages & _ & Hrun).
  apply bind_returns in Hrun as (collected & _ & Hrun).
  destruct collected as [|v collected]; [done|].
  destruct (extract_source_info md5_hexdigest path (Path.parts path))
    as [st id] eqn:Hinfo.
  apply bind_returns in Hrun as (ps & Hps & Hrun).
  injection Hrun as <-. exists (v :: collected). by cbn.
Qed.

(** X20: a document that [load_document] returns has at least one
    paragraph, all of them strings of the file; its text is the
    paragraphs joined by newlines, its language is 'en', 'fi' or 'multi',
    detected on the first 1000 characters, its source type is one of the
    four known ones, and the title text that [chunk_document] reads
    first exists. *)
Theorem load_document_invariants (path : Path.t) (data : option json)
    (doc : DocumentInfo) :
  load_document md5_hexdigest path data = Some doc →
  paragraphs doc ≠ []
  ∧ full_text doc = join nl (paragraphs doc)
  ∧ filename doc = Path.name path
  ∧ language doc = detect_language (take 1000 (full_text doc))
  ∧ language doc ∈ languages
  ∧ source_type doc ∈ source_types
  ∧ ∃ first_text, first_text_of doc = Returns first_text.
Proof.
  unfold load_document. destruct data as [d|]; [|done].
  destruct (load_document_run md5_hexdigest path d) as [r|] eqn:Hrun; [|done].
  intros ->.
  apply load_document_run_some in Hrun
    as (collected & Hne & Hps & Htext & Hname & _ & Hlang & Hinfo).
  assert (Hparas : paragraphs doc ≠ []).
  { apply as_strings_length in Hps. destruct (paragraphs doc); [|done].
    destruct collected; [done|]. simpl in Hps. lia. }
  split_and!; try done.
  - rewrite Hlang. apply detect_language_known.
  - pose proof (source_type_known path (Path.parts path)) as Hst.
    by rewrite <- Hinfo in Hst.
  - unfold first_text_of. case_bool_decide; [by eexists|].
    destruct (paragraphs doc); [done|by eexists].
Qed.
End scanner_facts.

Lemma load_document_invariants_witness :
  load_document fixed_digest fmx_path (Some page_numbered_file) = Some page_numbered_doc
  ∧ paragraphs page_numbered_doc ≠ []
  ∧ full_text page_numbered_doc = join nl (paragraphs page_numbered_doc)
  ∧ language page_numbered_doc ∈ languages
  ∧ source_type page_numbered_doc ∈ source_types.
Proof.
  assert (Hload : load_document fixed_digest fmx_path (Some page_numbered_file)
                  = Some page_numbered_doc) by (by vm_compute).
  destruct (load_document_invariants fixed_digest fmx_path _ _ Hload)
    as (Hp & Ht & _ & _ & Hl & Hs & _).
  done.
Defined.

(** X21: the chunks of a loaded document lie at their offsets in the
    text of the document, when the document gets no header, overlap is
    off and no paragraph exceeds the paragraph ceiling: [load_document]
    builds the text that [chunk_document] counts its offsets in. *)
Theorem loaded_document_offsets_locate (md5_hexdigest : str → str)
    (encode : str → option (list nat)) (cfg : Config) (path : Path.t)
    (data : option json) (doc : DocumentInfo)
    (cs : list Chunk.ChunkMetadata) (h : heap) :
  load_document md5_hexdigest path data = Some doc →
  cfg_enable_overlap cfg = false →
  (∀ first_text, first_text_of doc = Returns first_text →
                 md_doc_header (document_metadata doc first_text) = []) →
  (∀ p, p ∈ paragraphs doc → count_tokens encode p ≤ cfg_max_para_tokens cfg) →
  chunk_document encode cfg doc = Returns (cs, h) →
  Forall (located_at_offsets doc) cs.
Proof.
  intros Hload Hno Hhdr Hsmall Hrun.
  unfold load_document in Hload. destruct data as [d|]; [|done].
  destruct (load_document_run md5_hexdigest path d) as [r|] eqn:Hbody; [|done].
  subst r. apply load_document_run_some in Hbody as (collected & _ & _ & Htext & _).
  destruct (chunk_document_returns encode cfg doc cs h Hrun) as (ft & st & Hft & _).
  apply (char_offsets_locate_without_header encode cfg doc ft cs h);
    [done|done|by apply Hhdr|done|done|done].
Qed.

Lemma loaded_document_offsets_locate_witness :
  ∃ cs h,
    chunk_document word_encode (sample_config 10 0 20 false 5 (Some false))
      page_numbered_doc = Returns (cs, h)
    ∧ map (λ c, (Chunk.char_start c, Chunk.char_end c)) cs = [(0, 29)]
    ∧ Forall (located_at_offsets page_numbered_doc) cs.
Proof.
  destruct (chunk_document word_encode (sample_config 10 0 20 false 5 (Some false))
              page_numbered_doc) as [[cs h]|] eqn:Hrun; [|by vm_compute in Hrun].
  exists cs, h. split; [reflexivity|]. split.
  - vm_compute in Hrun. by injection Hrun as <- <-.
  - apply (loaded_document_offsets_locate fixed_digest word_encode
             (sample_config 10 0 20 false 5 (Some false)) fmx_path
             (Some page_numbered_file) page_numbered_doc cs h).
    + by vm_compute.
    + reflexivity.
    + intros ft Hft. vm_compute in Hft. injection Hft as <-. by vm_compute.
    + intros p Hp. cbn [paragraphs page_numbered_doc] in Hp.
      repeat (apply elem_of_cons in Hp as [->|Hp]; [by vm_compute|]).
      destruct (proj1 (elem_of_nil _) Hp).
    + exact Hrun.
Defined.

(** * Properties of the pipeline *)


Lemma counters_app (counter : Z) (n m : nat) :
  counters counter (n + m)
  = counters counter n ++ counters (counter + Z.of_nat n) m.
Proof.
  revert counter. induction n as [|n IH]; intros counter.
  - simpl. f_equal. lia.
  - change (S n + m)%nat with (S (n + m)). rewrite !counters_S, IH.
    rewrite <- app_comm_cons. do 3 f_equal. lia.
Qed.

Lemma omap_one {X Y} (f : X → option Y) (x : X) :
  omap f [x] = match f x with Some y => [y] | None => [] end.
Proof. done. Qed.

Section pipeline_facts.
Context (encode : str → option (list nat)) (cfg : Config).
Context (md5_hexdigest : str → str) (dumps : stored_chunk → str).
Context (in_scanner : Path.t → bool) (read_json : Path.t → option json).
Context (use_batches : bool) (write_batch_size chunk_batch_size : Z).
Context (counter : Z).
Hypothesis batch_size_positive : 0 < chunk_batch_size.
Hypothesis counter_nonneg : 0 ≤ counter.

(** A flush puts the buffered chunks on disk behind the batches that
    are there. *)
Lemma write_out_on_disk (st : run_state) (batches : list (list stored_chunk)) :
  on_disk dumps counter batches st →
  ∃ st' more,
    write_out dumps chunk_batch_size st = Returns st'
    ∧ concat more = all_chunks st
    ∧ all_chunks st' = []
    ∧ errors st' = errors st
    ∧ docs_processed st' = docs_processed st
    ∧ on_disk dumps counter (batches ++ more) st'.
Proof.
  intros (Hnames & Hcount & Htotal & Hne & Hfiles).
  destruct (write_chunks_spec dumps (writer st) (all_chunks st) chunk_batch_size)
    as (more & w' & Hw & Hcat & Hfull & Hcount' & Hfiles' & Hrest);
    [done|lia|].
  unfold write_out. rewrite Hw. cbn [mbind outcome_bind fst snd].
  eexists _, more. split; [reflexivity|]. cbn.
  split_and!; try done.
  unfold on_disk. cbn. split_and!.
  - rewrite Hnames, Hcount, length_app, counters_app, map_app. done.
  - rewrite Hcount', Hcount, length_app. lia.
  - rewrite Htotal, concat_app, length_app, Hcat. lia.
  - apply Forall_app. split; [done|].
    apply Forall_forall. intros b Hb.
    apply list_elem_of_lookup in Hb as [i Hi]. by destruct (Hfull i b Hi).
  - intros i b Hb. apply lookup_app_Some in Hb as [Hb|[Hlen Hb]].
    + rewrite Hrest; [by apply Hfiles|].
      intros j Hj Heq. rewrite Hcount in Heq.
      apply lookup_lt_Some in Hb.
      apply batch_filename_inj in Heq; lia.
    + specialize (Hfiles' _ _ Hb). rewrite Hcount in Hfiles'.
      rewrite <- Hfiles'. f_equal. f_equal. lia.
Qed.

Lemma process_file_invariant (done : list Path.t) (st : run_state) (p : Path.t) :
  run_invariant_of (chunks_of_file encode cfg md5_hexdigest in_scanner read_json)
    dumps counter (use_batches && bool_decide (write_batch_size = 0)) done st →
  run_invariant_of (chunks_of_file encode cfg md5_hexdigest in_scanner read_json)
    dumps counter (use_batches && bool_decide (write_batch_size = 0)) (done ++ [p])
    (process_file encode cfg md5_hexdigest dumps in_scanner read_json
       use_batches write_batch_size chunk_batch_size st p).
Proof.
  intros ((batches & Hcat & Hdisk) & Hdocs & Herr).
  unfold run_invariant_of, process_file, produced, chunked in *.
  rewrite omap_app, concat_app, !length_app, !omap_one. cbn [length].
  destruct (chunks_of_file encode cfg md5_hexdigest in_scanner read_json p)
    as [chunks|] eqn:Hp.
  2:{ cbn [failed all_chunks docs_processed errors concat length].
      rewrite !app_nil_r. split_and!.
      - by exists batches.
      - rewrite Hdocs. lia.
      - rewrite Herr. destruct (use_batches && _); lia. }
  cbn [concat length]. rewrite app_nil_r.
  set (st1 := {| all_chunks := all_chunks st ++ chunks;
                 written_files := written_files st;
                 errors := errors st;
                 docs_processed := docs_processed st + 1;
                 total_chunks_written := total_chunks_written st;
                 writer := writer st |}).
  assert (Hcat1 : concat batches ++ all_chunks st1
                  = concat (omap (chunks_of_file encode cfg md5_hexdigest
                                    in_scanner read_json) done) ++ chunks).
  { subst st1. cbn [all_chunks]. by rewrite app_assoc, Hcat. }
  assert (Hdisk1 : on_disk dumps counter batches st1) by exact Hdisk.
  destruct use_batches; cbn [andb] in *.
  - case_bool_decide as Hzero.
    + cbn [failed all_chunks docs_processed errors]. split_and!.
      * by exists batches.
      * subst st1. cbn [docs_processed]. lia.
      * subst st1. cbn [errors]. lia.
    + case_bool_decide as Hmod.
      * destruct (write_out_on_disk st1 batches Hdisk1)
          as (st' & more & Hw & Hmore & Hnil & Herr' & Hdocs' & Hdisk').
        rewrite Hw. split_and!.
        -- exists (batches ++ more). split; [|done].
           rewrite Hnil, app_nil_r, concat_app, Hmore. done.
        -- rewrite Hdocs'. subst st1. cbn [docs_processed]. lia.
        -- rewrite Herr'. subst st1. cbn [errors]. lia.
      * split_and!.
        -- by exists batches.
        -- subst st1. cbn [docs_processed]. lia.
        -- subst st1. cbn [errors]. lia.
  - split_and!.
    + by exists batches.
    + subst st1. cbn [docs_processed]. lia.
    + subst st1. cbn [errors]. lia.
Qed.

Lemma run_loop_invariant (paths done : list Path.t) (st : run_state) :
  run_invariant_of (chunks_of_file encode cfg md5_hexdigest in_scanner read_json)
    dumps counter (use_batches && bool_decide (write_batch_size = 0)) done st →
  run_invariant_of (chunks_of_file encode cfg md5_hexdigest in_scanner read_json)
    dumps counter (use_batches && bool_decide (write_batch_size = 0)) (done ++ paths)
    (fold_left (process_file encode cfg md5_hexdigest dumps in_scanner read_json
                  use_batches write_batch_size chunk_batch_size) paths st).
Proof.
  revert done st. induction paths as [|p paths IH]; intros done st Hinv.
  - by rewrite app_nil_r.
  - cbn [fold_left]. rewrite (cons_middle p done paths), app_assoc.
    apply IH. by apply process_file_invariant.
Qed.

Lemma run_spec (w : LocalFileWriter) (paths : list Path.t) :
  file_counter w = counter →
  ∃ st batches,
    run encode cfg md5_hexdigest dumps in_scanner read_json
        use_batches write_batch_size chunk_batch_size w paths = Returns st
    ∧ all_chunks st = []
    ∧ concat batches
      = produced (chunks_of_file encode cfg md5_hexdigest in_scanner read_json) paths
    ∧ on_disk dumps counter batches st
    ∧ run_invariant_of (chunks_of_file encode cfg md5_hexdigest in_scanner read_json)
    dumps counter (use_batches && bool_decide (write_batch_size = 0)) paths st.
Proof.
  intros Hw.
  assert (Hinit : run_invariant_of (chunks_of_file encode cfg md5_hexdigest in_scanner read_json)
    dumps counter (use_batches && bool_decide (write_batch_size = 0)) [] (initial_run w)).
  { unfold run_invariant_of. split; [|split].
    - exists []. split; [done|]. unfold on_disk. cbn.
      split_and!; try done; try lia;
        intros i b Hb; by rewrite lookup_nil in Hb.
    - done.
    - cbn. by destruct (use_batches && _). }
  pose proof (run_loop_invariant paths [] _ Hinit) as Hinv.
  rewrite app_nil_l in Hinv. unfold run.
  set (st := fold_left _ paths (initial_run w)) in *.
  destruct (all_chunks st) as [|c rest] eqn:Hall.
  - destruct Hinv as ((batches & Hcat & Hdisk) & Hdocs & Herr).
    exists st, batches. rewrite Hall, app_nil_r in Hcat.
    split; [done|]. split; [done|]. split; [done|]. split; [done|].
    unfold run_invariant_of. split; [|done].
    exists batches. by rewrite Hall, app_nil_r.
  - destruct Hinv as ((batches & Hcat & Hdisk) & Hdocs & Herr).
    destruct (write_out_on_disk st batches Hdisk)
      as (st' & more & Hwo & Hmore & Hnil & Herr' & Hdocs' & Hdisk').
    exists st', (batches ++ more). split; [done|].
    assert (Hcat' : concat (batches ++ more)
                    = produced (chunks_of_file encode cfg md5_hexdigest
                                  in_scanner read_json) paths).
    { by rewrite concat_app, Hmore. }
    split; [done|]. split; [done|]. split; [done|].
    unfold run_invariant_of. split; [|split].
    + exists (batches ++ more). by rewrite Hnil, app_nil_r.
    + by rewrite Hdocs'.
    + by rewrite Herr'.
Qed.
End pipeline_facts.



(** X23: [run] counts every file: [docs_processed] is the number of
    files that could be loaded and chunked, and [errors] the number of the
    others; only with batches and a batch interval of zero is every file
    counted as an error, the chunked ones as well, since the remainder by
    the interval fails after the document has been counted. *)
Theorem run_counts_files (encode : str → option (list nat)) (cfg : Config)
    (md5_hexdigest : str → str) (dumps : stored_chunk → str)
    (in_scanner : Path.t → bool) (read_json : Path.t → option json)
    (use_batches : bool) (write_batch_size chunk_batch_size : Z)
    (w : LocalFileWriter) (paths : list Path.t) (st : run_state) :
  0 < chunk_batch_size → 0 ≤ file_counter w →
  run encode cfg md5_hexdigest dumps in_scanner read_json
      use_batches write_batch_size chunk_batch_size w paths = Returns st →
  let good :=
    chunked (chunks_of_file encode cfg md5_hexdigest in_scanner read_json) paths in
  docs_processed st = good
  ∧ errors st
    = if use_batches && bool_decide (write_batch_size = 0)
      then Z.of_nat (length paths)
      else Z.of_nat (length paths) - good.
Proof.
  intros Hbs Hw Hrun good.
  destruct (run_spec encode cfg md5_hexdigest dumps in_scanner read_json
              use_batches write_batch_size chunk_batch_size (file_counter w)
              Hbs Hw w paths eq_refl)
    as (st' & batches & Hrun' & _ & _ & _ & (_ & Hdocs & Herr)).
  rewrite Hrun in Hrun'. injection Hrun' as <-. done.
Qed.

Lemma run_counts_files_witness :
  ∃ st,
    run word_encode (sample_config 10 0 20 false 5 (Some false)) fixed_digest
        text_line (λ _, true) sample_reader true 0 1000 empty_writer
        [fmx_path; missing_path; fmx_path] = Returns st
    ∧ docs_processed st = 2
    ∧ errors st = 3.
Proof.
  destruct (run word_encode (sample_config 10 0 20 false 5 (Some false)) fixed_digest
              text_line (λ _, true) sample_reader true 0 1000 empty_writer
              [fmx_path; missing_path; fmx_path]) as [st|] eqn:Hrun;
    [|by vm_compute in Hrun].
  assert (Hbs : 0 < 1000) by lia.
  assert (Hw : 0 ≤ file_counter empty_writer) by (simpl; lia).
  destruct (run_counts_files word_encode (sample_config 10 0 20 false 5 (Some false))
              fixed_digest text_line (λ _, true) sample_reader true 0 1000
              empty_writer [fmx_path; missing_path; fmx_path] st Hbs Hw Hrun)
    as [Hdocs Herr].
  exists st. split; [reflexivity|]. split.
  - rewrite Hdocs. by vm_compute.
  - rewrite Herr. by vm_compute.
Defined.
